(** * js-idb: the sorted-array index and the collection that keeps it in step
      with the stored records, in cached (memory) and read-through /
      write-through (file) mode.

    The development is a shallow embedding of [src/index-store.ts],
    [src/collection.ts], [src/validation.ts] and [src/storage.ts].

    Conventions of the embedding:
    - a JavaScript string is a [string] of code units below 256, compared
      lexicographically by code unit; [toLowerCase] folds the letters A-Z;
    - a JavaScript number is an integer [Z]; [NaN] is a value of its own
      ([VNaN]); infinities, fractions and the negative zero are not part of
      the value universe;
    - the builtin [Number(string)] is an interface ([JsNumber]): every
      definition and theorem is stated for an arbitrary implementation of it;
    - a record (a plain object) is a finite map from field names to values,
      an own property may hold [undefined];
    - a [Map] is an association list in insertion order, a [Set] a
      duplicate-free list in insertion order;
    - a thrown exception is the [Throw] result; the state at the point of
      the throw is the state the monad returns with it. *)

From Stdlib Require Import ZArith DecimalString Ascii.
From stdpp Require Import gmap strings list sorting pretty.

Set Warnings "-register-all".

(** ** Values *)

Inductive jsval :=
| VUndefined
| VNull
| VNaN
| VStr (s : string)
| VNum (n : Z)
| VBool (b : bool)
| VObject (props : list (string * jsval))
| VArray (items : list jsval).

(** Induction over values that reaches into properties and items. *)
Fixpoint jsval_nested_ind (P : jsval → Prop)
    (Hundefined : P VUndefined) (Hnull : P VNull) (Hnan : P VNaN)
    (Hstr : ∀ s, P (VStr s)) (Hnum : ∀ n, P (VNum n)) (Hbool : ∀ b, P (VBool b))
    (Hobject : ∀ props, Forall (λ kv, P kv.2) props → P (VObject props))
    (Harray : ∀ items, Forall P items → P (VArray items))
    (v : jsval) : P v :=
  match v with
  | VUndefined => Hundefined
  | VNull => Hnull
  | VNaN => Hnan
  | VStr s => Hstr s
  | VNum n => Hnum n
  | VBool b => Hbool b
  | VObject props =>
      Hobject props
        ((fix go (ps : list (string * jsval)) : Forall (λ kv, P kv.2) ps :=
            match ps with
            | [] => @List.Forall_nil _ _
            | (k, x) :: ps' =>
                @List.Forall_cons _ _ (k, x) ps'
                  (jsval_nested_ind P Hundefined Hnull Hnan Hstr Hnum Hbool
                     Hobject Harray x)
                  (go ps')
            end) props)
  | VArray items =>
      Harray items
        ((fix go (xs : list jsval) : Forall P xs :=
            match xs with
            | [] => @List.Forall_nil _ _
            | x :: xs' =>
                @List.Forall_cons _ _ x xs'
                  (jsval_nested_ind P Hundefined Hnull Hnan Hstr Hnum Hbool
                     Hobject Harray x)
                  (go xs')
            end) items)
  end.

Inductive FieldType := TString | TNumber | TBoolean | TObject.

Inductive Error :=
| InvalidNumericQuery (query : string)
| InvalidNumberFieldQuery (query : string)
| InvalidBooleanFieldQuery (query : string)
| FieldNotIndexed (field : string)
| RecordNotFound (id : string)
| UnknownField
| MissingRequiredField (field : string)
| WrongFieldType (field : string)
| NestedObject (field : string)
| SchemaError (field : string)
| Stuck.

Inductive result (A : Type) :=
| Ok (a : A)
| Throw (e : Error).
Arguments Ok {A} a.
Arguments Throw {A} e.

#[global] Instance result_ret : MRet result := λ A a, Ok a.
#[global] Instance result_bind : MBind result := λ A B f m,
  match m with Ok a => f a | Throw e => Throw e end.

#[global] Instance FieldType_eq_dec : EqDecision FieldType.
Proof. solve_decision. Defined.

(** The builtin [Number(s)]: [None] stands for [NaN]. *)
Class JsNumber := Number : string → option Z.

(** A reading of [Number] on the decimal integer literals, used to run the
    definitions on concrete inputs: surrounding white space is skipped, the
    empty string is [0], an optional sign precedes the digits. *)
Definition digit_value (c : ascii) : option Z :=
  let n := Z.of_N (N_of_ascii c) in
  if ((48 <=? n) && (n <=? 57))%Z then Some (n - 48)%Z else None.

Fixpoint digits_value (acc : Z) (s : string) : option Z :=
  match s with
  | EmptyString => Some acc
  | String c s' =>
      match digit_value c with
      | Some d => digits_value (10 * acc + d)%Z s'
      | None => None
      end
  end.

Fixpoint trim_left (s : string) : string :=
  match s with
  | String c s' => if Ascii.is_space c then trim_left s' else s
  | EmptyString => EmptyString
  end.

Fixpoint trim_right (s : string) : string :=
  match s with
  | EmptyString => EmptyString
  | String c s' =>
      match trim_right s' with
      | EmptyString => if Ascii.is_space c then EmptyString else String c ""
      | t => String c t
      end
  end.

Definition trim (s : string) : string := trim_right (trim_left s).

Definition decimal_Number (s : string) : option Z :=
  match trim s with
  | EmptyString => Some 0%Z
  | String "-"%char (String c r) => Z.opp <$> digits_value 0 (String c r)
  | String "+"%char (String c r) => digits_value 0 (String c r)
  | t => digits_value 0 t
  end.

(** ** String operations of the runtime *)

Definition startsWith (s p : string) : bool := String.prefix p s.

Definition endsWith (s p : string) : bool :=
  String.prefix (String.rev p) (String.rev s).

Fixpoint includes (s sub : string) : bool :=
  String.prefix sub s ||
  match s with
  | EmptyString => false
  | String _ s' => includes s' sub
  end.

Definition lower_char (c : ascii) : ascii :=
  let n := N_of_ascii c in
  if ((65 <=? n) && (n <=? 90))%N then ascii_of_N (n + 32) else c.

Fixpoint toLowerCase (s : string) : string :=
  match s with
  | EmptyString => EmptyString
  | String c s' => String (lower_char c) (toLowerCase s')
  end.

(** [s.slice(1)] *)
Definition slice_from1 (s : string) : string :=
  match s with
  | EmptyString => EmptyString
  | String _ s' => s'
  end.

(** [s.slice(0, -1)] *)
Fixpoint slice_to_last (s : string) : string :=
  match s with
  | EmptyString => EmptyString
  | String _ EmptyString => EmptyString
  | String c s' => String c (slice_to_last s')
  end.

(** [s.slice(1, -1)] *)
Definition slice_inner (s : string) : string := slice_to_last (slice_from1 s).

(** The characters [.] refuses in a regular expression without the [s]
    flag. *)
Definition is_line_terminator (c : ascii) : bool :=
  let n := N_of_ascii c in ((n =? 10) || (n =? 13))%N.

Fixpoint no_line_terminator (s : string) : bool :=
  match s with
  | EmptyString => true
  | String c s' => negb (is_line_terminator c) && no_line_terminator s'
  end.

(** [(.+)$] read against the whole rest of the input. *)
Definition dot_plus (s : string) : bool :=
  match s with
  | EmptyString => false
  | _ => no_line_terminator s
  end.

(** [query.match(/^(>=?|<=?)(.+)$/)]: the operator takes the [=] when the
    rest still matches [(.+)$], and gives it back otherwise. *)
Definition rangeMatch (query : string) : option (string * string) :=
  match query with
  | String c rest =>
      if (Stdlib.Strings.Ascii.eqb c ">" || Stdlib.Strings.Ascii.eqb c "<")%bool
      then
        match rest with
        | String d rest' =>
            if Stdlib.Strings.Ascii.eqb d "=" && dot_plus rest'
            then Some (String c "=", rest')
            else if dot_plus rest then Some (String c "", rest)
            else None
        | EmptyString => None
        end
      else None
  | EmptyString => None
  end.

(** ** Conversions and comparisons of the language *)

(** [String(v)] *)
Fixpoint js_String (v : jsval) : string :=
  match v with
  | VUndefined => "undefined"
  | VNull => "null"
  | VNaN => "NaN"
  | VStr s => s
  | VNum n => NilZero.string_of_int (Z.to_int n)
  | VBool true => "true"
  | VBool false => "false"
  | VObject _ => "[object Object]"
  | VArray xs =>
      String.concat ","
        (map (λ x, match x with
                   | VUndefined | VNull => ""
                   | _ => js_String x
                   end) xs)
  end.

Definition ToPrimitive (v : jsval) : jsval :=
  match v with
  | VObject _ | VArray _ => VStr (js_String v)
  | _ => v
  end.

Section Language.
Context `{JsNumber}.

Definition ToNumber (v : jsval) : option Z :=
  match ToPrimitive v with
  | VNull => Some 0%Z
  | VStr s => Number s
  | VNum n => Some n
  | VBool true => Some 1%Z
  | VBool false => Some 0%Z
  | _ => None
  end.

(** [a < b] *)
Definition js_lt (a b : jsval) : bool :=
  match ToPrimitive a, ToPrimitive b with
  | VStr s1, VStr s2 => String.ltb s1 s2
  | pa, pb =>
      match ToNumber pa, ToNumber pb with
      | Some x, Some y => (x <? y)%Z
      | _, _ => false
      end
  end.
End Language.

(** [a === b]; two objects are never the same reference here. *)
Definition strict_eq (a b : jsval) : bool :=
  match a, b with
  | VUndefined, VUndefined => true
  | VNull, VNull => true
  | VStr s1, VStr s2 => String.eqb s1 s2
  | VNum n1, VNum n2 => (n1 =? n2)%Z
  | VBool b1, VBool b2 => Bool.eqb b1 b2
  | _, _ => false
  end.

Definition is_undefined (v : jsval) : bool :=
  match v with VUndefined => true | _ => false end.

(** [(n) >>> 1] *)
Definition ushr1 (n : nat) : nat :=
  Z.to_nat (Z.shiftr (Z.of_nat n mod 2 ^ 32) 1).

(** ** index-store.ts *)

Record IndexEntry := { value : jsval; id : string }.

Module Index.

Record t := {
  field : string;
  fieldType : FieldType;
  ignoreCase : bool;
  entries : list IndexEntry
}.

Definition with_entries (idx : t) (es : list IndexEntry) : t :=
  {| field := field idx; fieldType := fieldType idx;
     ignoreCase := ignoreCase idx; entries := es |}.

(** [new Index(field, fieldType, ignoreCase = false)] *)
Definition new (f : string) (ft : FieldType) (ic : option bool) : t :=
  {| field := f; fieldType := ft; ignoreCase := from_option (λ b, b) false ic;
     entries := [] |}.

Definition normalize (idx : t) (v : jsval) : jsval :=
  match v with
  | VStr s => if ignoreCase idx then VStr (toLowerCase s) else v
  | _ => v
  end.

Definition fold_query (idx : t) (s : string) : string :=
  if ignoreCase idx then toLowerCase s else s.

Section WithNumber.
Context `{JsNumber}.

Definition compare (a b : jsval) : Z :=
  if js_lt a b then (-1)%Z else if js_lt b a then 1%Z else 0%Z.

(** The [while (lo < hi)] loop of [lowerBound]; it is [Stuck] when the
    fuel runs out or when [entries[mid]] does not exist. *)
Fixpoint lowerBound_loop (fuel : nat) (es : list IndexEntry)
    (target : jsval) (lo hi : nat) : result nat :=
  match fuel with
  | O => Throw Stuck
  | S fuel' =>
      if lo <? hi then
        let mid := ushr1 (lo + hi) in
        match es !! mid with
        | Some e =>
            if (compare (value e) target <? 0)%Z
            then lowerBound_loop fuel' es target (mid + 1) hi
            else lowerBound_loop fuel' es target lo mid
        | None => Throw Stuck
        end
      else Ok lo
  end.

Definition lowerBound (idx : t) (target : jsval) : result nat :=
  lowerBound_loop (S (length (entries idx))) (entries idx) target
    0 (length (entries idx)).

(** [entries.splice(i, 0, entry)] *)
Definition splice_in (i : nat) (e : IndexEntry) (es : list IndexEntry) :=
  take i es ++ e :: drop i es.

Definition add (idx : t) (i : string) (v : jsval) : result t :=
  let normalized := normalize idx v in
  let entry := {| value := normalized; id := i |} in
  pos ← lowerBound idx normalized;
  Ok (with_entries idx (splice_in pos entry (entries idx))).

(** The scan of [remove] from the lower bound on: it stops at the first
    entry with another value and drops the first entry with the id. *)
Fixpoint remove_scan (i : string) (normalized : jsval)
    (es : list IndexEntry) : list IndexEntry :=
  match es with
  | [] => []
  | e :: es' =>
      if negb (strict_eq (value e) normalized) then es
      else if String.eqb (id e) i then es'
      else e :: remove_scan i normalized es'
  end.

Definition remove (idx : t) (i : string) (v : jsval) : result t :=
  let normalized := normalize idx v in
  pos ← lowerBound idx normalized;
  Ok (with_entries idx
        (take pos (entries idx)
           ++ remove_scan i normalized (drop pos (entries idx)))).

(** The scan shared by [exactQuery] and the [<=] branch of
    [rangeQuery]. *)
Fixpoint tie_run (target : jsval) (es : list IndexEntry) : list string :=
  match es with
  | [] => []
  | e :: es' =>
      if negb (strict_eq (value e) target) then []
      else id e :: tie_run target es'
  end.

Definition exactQuery (idx : t) (target : jsval) : result (list string) :=
  pos ← lowerBound idx target;
  Ok (tie_run target (drop pos (entries idx))).

Fixpoint prefix_run (normalized : string) (es : list IndexEntry)
    : list string :=
  match es with
  | [] => []
  | e :: es' =>
      if negb (startsWith (js_String (value e)) normalized) then []
      else id e :: prefix_run normalized es'
  end.

Definition prefixQuery (idx : t) (prefix : string)
    : result (list string) :=
  let normalized := fold_query idx prefix in
  pos ← lowerBound idx (VStr normalized);
  Ok (prefix_run normalized (drop pos (entries idx))).

Definition suffixQuery (idx : t) (suffix : string) : list string :=
  let normalized := fold_query idx suffix in
  id <$> List.filter (λ e, endsWith (js_String (value e)) normalized)
           (entries idx).

Definition containsQuery (idx : t) (sub : string) : list string :=
  let normalized := fold_query idx sub in
  id <$> List.filter (λ e, includes (js_String (value e)) normalized)
           (entries idx).

Definition rangeQuery (idx : t) (op : string) (target : Z)
    : result (list string) :=
  if (String.eqb op ">" || String.eqb op ">=")%bool then
    pos ← lowerBound idx (VNum target);
    Ok (id <$> List.filter
                 (λ e, negb (String.eqb op ">"
                             && strict_eq (value e) (VNum target)))
                 (drop pos (entries idx)))
  else
    pos ← lowerBound idx (VNum target);
    Ok ((id <$> take pos (entries idx))
          ++ (if String.eqb op "<="
              then tie_run (VNum target) (drop pos (entries idx))
              else [])).

Definition find (idx : t) (query : string) : result (list string) :=
  match fieldType idx with
  | TNumber =>
      match rangeMatch query with
      | Some (op, lit) =>
          match Number lit with
          | None => Throw (InvalidNumericQuery query)
          | Some num => rangeQuery idx op num
          end
      | None =>
          match Number query with
          | Some num => exactQuery idx (VNum num)
          | None => Throw (InvalidNumberFieldQuery query)
          end
      end
  | TBoolean =>
      if String.eqb query "true" then exactQuery idx (VBool true)
      else if String.eqb query "false" then exactQuery idx (VBool false)
      else Throw (InvalidBooleanFieldQuery query)
  | _ =>
      let startsWithWild := startsWith query "%" in
      let endsWithWild := endsWith query "%" in
      if startsWithWild && endsWithWild && (1 <? String.length query)
      then Ok (containsQuery idx (slice_inner query))
      else if endsWithWild then prefixQuery idx (slice_to_last query)
      else if startsWithWild
      then Ok (suffixQuery idx (slice_from1 query))
      else exactQuery idx (VStr (fold_query idx query))
  end.
End WithNumber.

Definition clear (idx : t) : t := with_entries idx [].

Definition size (idx : t) : nat := length (entries idx).

(** Modelled from the spec: [Index.serialize] and [Index.fromEntries] are
    called by the collection but are not part of the sources at hand; the
    specification has an index exported to, and rebuilt from, its entry
    sequence verbatim (field name, type, case-folding flag and the list of
    pairs). *)
Definition serialize (idx : t) : list IndexEntry := entries idx.

Definition fromEntries (f : string) (ft : FieldType) (ic : bool)
    (es : list IndexEntry) : t :=
  {| field := f; fieldType := ft; ignoreCase := ic; entries := es |}.

End Index.


(** ** types.ts *)

Record IndexSetting := { setting_ignoreCase : option bool }.

(** [{ type, index?, indexSetting?, default? }]; an absent [default] is
    [VUndefined]. *)
Record FieldDefinition := {
  type : FieldType;
  index : option bool;
  indexSetting : option IndexSetting;
  default : jsval
}.

(** A schema in the order of [Object.entries]. *)
Abbreviation Schema := (list (string * FieldDefinition)).

(** [if (flag)] on an optional boolean. *)
Definition truthy (flag : option bool) : bool := from_option (λ b, b) false flag.

(** [def.indexSetting?.ignoreCase] *)
Definition ignoreCase_of (def : FieldDefinition) : option bool :=
  indexSetting def ≫= setting_ignoreCase.

(** [schema[key]] *)
Definition schema_get (schema : Schema) (key : string)
    : option FieldDefinition :=
  snd <$> List.find (λ kv, String.eqb kv.1 key) schema.

(** [record[field]] *)
Definition record_get (record : gmap string jsval) (field : string) : jsval :=
  from_option (λ v, v) VUndefined (record !! field).

Module CollectionMeta.
Record t := {
  schema : Schema;
  indexes : option (gmap string (list IndexEntry))
}.
End CollectionMeta.

(** ** A [Map] keyed by strings, in insertion order *)

Definition Map_get {V} (key : string) (m : list (string * V)) : option V :=
  snd <$> List.find (λ kv, String.eqb kv.1 key) m.

Fixpoint Map_set {V} (key : string) (v : V) (m : list (string * V))
    : list (string * V) :=
  match m with
  | [] => [(key, v)]
  | (k, v') :: m' =>
      if String.eqb k key then (key, v) :: m' else (k, v') :: Map_set key v m'
  end.

(** [new Set(list)], in insertion order. *)
Fixpoint Set_of (l : list string) : list string :=
  match l with
  | [] => []
  | x :: l' => x :: List.filter (λ y, negb (String.eqb y x)) (Set_of l')
  end.

Definition Set_has (s : list string) (x : string) : bool :=
  existsb (String.eqb x) s.

(** ** validation.ts *)

Fixpoint validateSchema (schema : Schema) : result unit :=
  match schema with
  | [] => Ok ()
  | (field, def) :: rest =>
      if truthy (index def) && bool_decide (type def = TObject)
      then Throw (SchemaError field)
      else if bool_decide (is_Some (indexSetting def)) && negb (truthy (index def))
      then Throw (SchemaError field)
      else if bool_decide (is_Some (indexSetting def))
              && negb (bool_decide (type def = TString))
      then Throw (SchemaError field)
      else validateSchema rest
  end.

Definition is_nested (v : jsval) : bool :=
  match v with VObject _ | VArray _ => true | _ => false end.

(** The [switch (def.type)] of [validateRecord]. *)
Definition check_type (field : string) (ft : FieldType) (v : jsval)
    : result unit :=
  match ft, v with
  | TString, VStr _ => Ok ()
  | TNumber, VNum _ => Ok ()
  | TBoolean, VBool _ => Ok ()
  | TObject, VObject props =>
      if existsb (λ kv, is_nested kv.2) props then Throw (NestedObject field)
      else Ok ()
  | _, _ => Throw (WrongFieldType field)
  end.

Fixpoint check_fields (record : gmap string jsval) (fields : Schema)
    (isPartial : bool) : result unit :=
  match fields with
  | [] => Ok ()
  | (field, def) :: rest =>
      let v := record_get record field in
      if is_undefined v then
        if isPartial then check_fields record rest isPartial
        else Throw (MissingRequiredField field)
      else
        check_type field (type def) v;;
        check_fields record rest isPartial
  end.

Definition validateRecord (record : gmap string jsval) (schema : Schema)
    (isPartial : bool) : result unit :=
  if bool_decide (dom record ⊆ (list_to_set schema.*1 : gset string))
  then check_fields record schema isPartial
  else Throw UnknownField.

(** ** storage.ts: the file adapter *)

(** [JSON.parse(JSON.stringify(v))]: a property holding [undefined] is left
    out, [NaN] and an [undefined] array element come back as [null]. *)
Fixpoint json_value (v : jsval) : jsval :=
  match v with
  | VNaN => VNull
  | VObject props =>
      VObject
        ((fix go (ps : list (string * jsval)) : list (string * jsval) :=
            match ps with
            | [] => []
            | (k, x) :: ps' =>
                if is_undefined x then go ps' else (k, json_value x) :: go ps'
            end) props)
  | VArray items =>
      VArray (map (λ x, if is_undefined x then VNull else json_value x) items)
  | _ => v
  end.

Definition json_record (record : gmap string jsval) : gmap string jsval :=
  omap (λ v, if is_undefined v then None else Some (json_value v)) record.

Definition json_entry (e : IndexEntry) : IndexEntry :=
  {| value := json_value (value e); id := id e |}.

Definition json_definition (def : FieldDefinition) : FieldDefinition :=
  {| type := type def; index := index def; indexSetting := indexSetting def;
     default := json_value (default def) |}.

Definition json_schema (sch : Schema) : Schema :=
  (λ '(field, def), (field, json_definition def)) <$> sch.

Definition json_indexes (ixs : gmap string (list IndexEntry))
    : gmap string (list IndexEntry) :=
  (λ es : list IndexEntry, json_entry <$> es) <$> ixs.

Definition json_meta (meta : CollectionMeta.t) : CollectionMeta.t :=
  {| CollectionMeta.schema := json_schema (CollectionMeta.schema meta);
     CollectionMeta.indexes := json_indexes <$> CollectionMeta.indexes meta |}.

(** What reached the disk, in order. *)
Inductive WriteEvent :=
| WroteData (collection : string)
| WroteMeta (collection : string).

Module FileAdapter.
Record t := {
  dataFiles : gmap string (gmap string (gmap string jsval));
  metaFiles : gmap string CollectionMeta.t;
  log : list WriteEvent
}.

Definition empty : t := {| dataFiles := ∅; metaFiles := ∅; log := [] |}.

Definition readData (fs : t) (collection : string)
    : option (gmap string (gmap string jsval)) :=
  dataFiles fs !! collection.

Definition writeData (fs : t) (collection : string)
    (data : gmap string (gmap string jsval)) : t :=
  {| dataFiles := <[collection := json_record <$> data]> (dataFiles fs);
     metaFiles := metaFiles fs;
     log := log fs ++ [WroteData collection] |}.

Definition readMeta (fs : t) (collection : string) : option CollectionMeta.t :=
  metaFiles fs !! collection.

Definition writeMeta (fs : t) (collection : string) (meta : CollectionMeta.t)
    : t :=
  {| dataFiles := dataFiles fs;
     metaFiles := <[collection := json_meta meta]> (metaFiles fs);
     log := log fs ++ [WroteMeta collection] |}.
End FileAdapter.

(** ** collection.ts *)

(** [{ ...v }] *)
Definition object_spread (v : jsval) : jsval :=
  match v with
  | VObject props => VObject props
  | VArray items =>
      VObject (imap (λ i x, (NilZero.string_of_uint (Nat.to_uint i), x)) items)
  | VStr s =>
      VObject (imap (λ i c, (NilZero.string_of_uint (Nat.to_uint i),
                              VStr (String c "")))
                 (String.list_ascii_of_string s))
  | _ => VObject []
  end.

Module Collection.

Record t := {
  name : string;
  schema : Schema;
  fileMode : bool;
  data : gmap string (gmap string jsval);
  indexes : list (string * Index.t)
}.

(** The object, the disk it may be bound to, and the identifiers
    [generateId] is going to return. *)
Record World := {
  this : t;
  storage : FileAdapter.t;
  uuids : nat → string;
  issued : nat
}.

Definition M (A : Type) : Type := World → result A * World.

#[global] Instance M_ret : MRet M := λ A a w, (Ok a, w).
#[global] Instance M_bind : MBind M := λ A B f m w,
  match m w with
  | (Ok a, w') => f a w'
  | (Throw e, w') => (Throw e, w')
  end.

Definition lift {A} (r : result A) : M A := λ w, (r, w).

Definition throw {A} (e : Error) : M A := λ w, (Throw e, w).

Definition self : M t := λ w, (Ok (this w), w).

Definition set_this (c : t) : M unit := λ w,
  (Ok (), {| this := c; storage := storage w; uuids := uuids w;
             issued := issued w |}).

Definition set_data (d : gmap string (gmap string jsval)) : M unit :=
  c ← self;
  set_this {| name := name c; schema := schema c; fileMode := fileMode c;
              data := d; indexes := indexes c |}.

Definition set_indexes (ixs : list (string * Index.t)) : M unit :=
  c ← self;
  set_this {| name := name c; schema := schema c; fileMode := fileMode c;
              data := data c; indexes := ixs |}.

Definition set_storage (fs : FileAdapter.t) : M unit := λ w,
  (Ok (), {| this := this w; storage := fs; uuids := uuids w;
             issued := issued w |}).

Definition generateId : M string := λ w,
  (Ok (uuids w (issued w)),
   {| this := this w; storage := storage w; uuids := uuids w;
      issued := S (issued w) |}).

Definition storage_readData : M (option (gmap string (gmap string jsval))) :=
  λ w, (Ok (FileAdapter.readData (storage w) (name (this w))), w).

Definition storage_writeData (d : gmap string (gmap string jsval)) : M unit :=
  λ w, set_storage (FileAdapter.writeData (storage w) (name (this w)) d) w.

Definition storage_readMeta : M (option CollectionMeta.t) :=
  λ w, (Ok (FileAdapter.readMeta (storage w) (name (this w))), w).

Definition storage_writeMeta (meta : CollectionMeta.t) : M unit :=
  λ w, set_storage (FileAdapter.writeMeta (storage w) (name (this w)) meta) w.

Definition new_index (field : string) (def : FieldDefinition) : Index.t :=
  Index.new field (type def) (ignoreCase_of def).

Definition buildIndexes (sch : Schema) : list (string * Index.t) :=
  foldl (λ ixs '(field, def),
           if truthy (index def) then Map_set field (new_index field def) ixs
           else ixs)
    [] sch.

Definition initMemoryIndexes : M unit :=
  c ← self; set_indexes (buildIndexes (schema c)).

Definition buildMeta (sch : Schema) (ixs : list (string * Index.t))
    : CollectionMeta.t :=
  {| CollectionMeta.schema := sch;
     CollectionMeta.indexes :=
       Some (foldl (λ serialized '(field, idx),
                      <[field := Index.serialize idx]> serialized)
               ∅ ixs) |}.

(** One step of the loop of [schemasMatch]. *)
Definition definitions_match (curr prev : FieldDefinition) : bool :=
  bool_decide (type curr = type prev)
  && Bool.eqb (truthy (index curr)) (truthy (index prev))
  && bool_decide (ignoreCase_of curr = ignoreCase_of prev).

Fixpoint schemasMatch_loop (current stored : Schema)
    (currentKeys storedKeys : list string) : bool :=
  match currentKeys, storedKeys with
  | ck :: cks, sk :: sks =>
      if negb (String.eqb ck sk) then false
      else
        match schema_get current ck, schema_get stored sk with
        | Some curr, Some prev =>
            if definitions_match curr prev
            then schemasMatch_loop current stored cks sks
            else false
        | _, _ => false
        end
  | _, _ => true
  end.

(** [Object.keys(schema).sort()] *)
Definition sorted_keys (sch : Schema) : list string :=
  merge_sort String.le sch.*1.

Definition schemasMatch (current stored : Schema) : bool :=
  let currentKeys := sorted_keys current in
  let storedKeys := sorted_keys stored in
  if negb (length currentKeys =? length storedKeys) then false
  else schemasMatch_loop current stored currentKeys storedKeys.

Definition wipe : M unit :=
  c ← self;
  storage_writeData ∅;;
  storage_writeMeta (buildMeta (schema c) []).

Definition initFileMode : M unit :=
  c ← self;
  meta ← storage_readMeta;
  match meta with
  | Some meta =>
      if negb (schemasMatch (schema c) (CollectionMeta.schema meta))
      then wipe else mret ()
  | None => wipe
  end.

(** [new Collection(name, schema, storage)]; [file] says whether the storage
    is a [FileAdapter]. *)
Definition create (nm : string) (sch : Schema) (file : bool)
    (fs : FileAdapter.t) (gen : nat → string) (n : nat) : World :=
  let c := {| name := nm; schema := sch; fileMode := file; data := ∅;
              indexes := [] |} in
  let w := {| this := c; storage := fs; uuids := gen; issued := n |} in
  ((if file then initFileMode else initMemoryIndexes) w).2.

Definition loadIndexesFromMeta : M (list (string * Index.t)) :=
  c ← self;
  meta ← storage_readMeta;
  match meta ≫= CollectionMeta.indexes with
  | None => mret (buildIndexes (schema c))
  | Some stored =>
      mret (foldl (λ ixs '(field, def),
                     if truthy (index def) then
                       match stored !! field with
                       | Some es =>
                           Map_set field
                             (Index.fromEntries field (type def)
                                (from_option (λ b, b) false (ignoreCase_of def))
                                es) ixs
                       | None => Map_set field (new_index field def) ixs
                       end
                     else ixs)
              [] (schema c))
  end.

Definition readData : M (gmap string (gmap string jsval)) :=
  rawData ← storage_readData;
  mret (from_option (λ d, d) ∅ rawData).

Definition writeData (d : gmap string (gmap string jsval)) : M unit :=
  storage_writeData d.

Definition applyDefaults (sch : Schema) (record : gmap string jsval)
    : gmap string jsval :=
  foldl (λ result '(field, def),
           if is_undefined (record_get result field)
              && negb (is_undefined (default def))
           then <[field := if bool_decide (type def = TObject)
                           then object_spread (default def)
                           else default def]> result
           else result)
    record sch.

(** [{ _id: id, ...record }] *)
Definition toDocument (i : string) (record : gmap string jsval)
    : gmap string jsval :=
  record ∪ {["_id" := VStr i]}.

(** [for (const [field, index] of indexes) ...]: the indexes as the loop
    leaves them, and whether it ran to its end. *)
Fixpoint for_indexes (body : string → Index.t → result Index.t)
    (ixs : list (string * Index.t)) : result unit * list (string * Index.t) :=
  match ixs with
  | [] => (Ok (), [])
  | (field, idx) :: rest =>
      match body field idx with
      | Ok idx' =>
          let '(r, rest') := for_indexes body rest in (r, (field, idx') :: rest')
      | Throw e => (Throw e, ixs)
      end
  end.

(** The loop over the long-lived indexes of the memory mode. *)
Definition for_own_indexes (body : string → Index.t → result Index.t)
    : M unit :=
  c ← self;
  let '(r, ixs) := for_indexes body (indexes c) in
  set_indexes ixs;; lift r.

(** The loop over indexes freshly loaded from the meta artifact. *)
Definition for_loaded_indexes (body : string → Index.t → result Index.t)
    (ixs : list (string * Index.t)) : M (list (string * Index.t)) :=
  let '(r, ixs') := for_indexes body ixs in
  lift r;; mret ixs'.

Section Methods.
Context `{JsNumber}.

(** The body of the indexing loop of [add] and [addMany]. *)
Definition index_record (i : string) (record : gmap string jsval)
    (field : string) (idx : Index.t) : result Index.t :=
  let val := record_get record field in
  if is_undefined val then Ok idx else Index.add idx i val.

Definition add (record : gmap string jsval) : M (gmap string jsval) :=
  c ← self;
  let withDefaults := applyDefaults (schema c) record in
  lift (validateRecord withDefaults (schema c) false);;
  i ← generateId;
  (if fileMode c then
     d ← readData;
     writeData (<[i := withDefaults]> d);;
     ixs ← loadIndexesFromMeta;
     ixs' ← for_loaded_indexes (index_record i withDefaults) ixs;
     storage_writeMeta (buildMeta (schema c) ixs')
   else
     set_data (<[i := withDefaults]> (data c));;
     for_own_indexes (index_record i withDefaults));;
  mret (toDocument i withDefaults).

(** The first loop of [addMany]. *)
Fixpoint validate_all (records : list (gmap string jsval))
    : M (list (string * gmap string jsval)) :=
  match records with
  | [] => mret []
  | record :: rest =>
      c ← self;
      let withDefaults := applyDefaults (schema c) record in
      lift (validateRecord withDefaults (schema c) false);;
      i ← generateId;
      validated ← validate_all rest;
      mret ((i, withDefaults) :: validated)
  end.

(** The storing loop of [addMany] on the freshly read data and indexes. *)
Fixpoint store_loaded (validated : list (string * gmap string jsval))
    (d : gmap string (gmap string jsval)) (ixs : list (string * Index.t))
    : M (gmap string (gmap string jsval) * list (string * Index.t)
         * list (gmap string jsval)) :=
  match validated with
  | [] => mret (d, ixs, [])
  | (i, raw) :: rest =>
      ixs' ← for_loaded_indexes (index_record i raw) ixs;
      '(d', ixs'', docs) ← store_loaded rest (<[i := raw]> d) ixs';
      mret (d', ixs'', toDocument i raw :: docs)
  end.

(** The storing loop of [addMany] on the long-lived data and indexes. *)
Fixpoint store_own (validated : list (string * gmap string jsval))
    : M (list (gmap string jsval)) :=
  match validated with
  | [] => mret []
  | (i, raw) :: rest =>
      c ← self;
      set_data (<[i := raw]> (data c));;
      for_own_indexes (index_record i raw);;
      docs ← store_own rest;
      mret (toDocument i raw :: docs)
  end.

Definition addMany (records : list (gmap string jsval))
    : M (list (gmap string jsval)) :=
  validated ← validate_all records;
  c ← self;
  if fileMode c then
    d ← readData;
    ixs ← loadIndexesFromMeta;
    '(d', ixs', docs) ← store_loaded validated d ixs;
    writeData d';;
    storage_writeMeta (buildMeta (schema c) ixs');;
    mret docs
  else store_own validated.

Definition get (i : string) : M (option (gmap string jsval)) :=
  c ← self;
  if fileMode c then
    d ← readData;
    mret (toDocument i <$> d !! i)
  else mret (toDocument i <$> data c !! i).

Definition all : M (list (gmap string jsval)) :=
  c ← self;
  if fileMode c then
    d ← readData;
    mret ((λ '(i, record), toDocument i record) <$> map_to_list d)
  else mret ((λ '(i, record), toDocument i record) <$> map_to_list (data c)).

(** The loop of [find]; [None] is the [null] the running set starts as. The
    early [return []] and the final spread both give the list of
    identifiers to materialize. *)
Fixpoint find_loop (ixs : list (string * Index.t))
    (queryEntries : list (string * string)) (resultIds : option (list string))
    : result (list string) :=
  match queryEntries with
  | [] => Ok (from_option (λ r, r) [] resultIds)
  | (field, queryStr) :: rest =>
      match Map_get field ixs with
      | None => Throw (FieldNotIndexed field)
      | Some idx =>
          found ← Index.find idx queryStr;
          let ids := Set_of found in
          let running :=
            match resultIds with
            | None => ids
            | Some r => List.filter (Set_has ids) r
            end in
          match running with
          | [] => Ok []
          | _ => find_loop ixs rest (Some running)
          end
      end
  end.

Definition find (query : list (string * string))
    : M (list (option (gmap string jsval))) :=
  match query with
  | [] => docs ← all; mret (Some <$> docs)
  | _ =>
      c ← self;
      ixs ← (if fileMode c then loadIndexesFromMeta else mret (indexes c));
      ids ← lift (find_loop ixs query None);
      if fileMode c then
        d ← readData;
        mret ((λ i, Some (toDocument i (from_option (λ r, r) ∅ (d !! i))))
                <$> ids)
      else mret ((λ i, toDocument i <$> data c !! i) <$> ids)
  end.

(** The body of the indexing loop of [update]. *)
Definition reindex (i : string) (existing partial : gmap string jsval)
    (field : string) (idx : Index.t) : result Index.t :=
  let newVal := record_get partial field in
  if is_undefined newVal then Ok idx
  else
    let oldVal := record_get existing field in
    idx' ← (if is_undefined oldVal then Ok idx else Index.remove idx i oldVal);
    Index.add idx' i newVal.

Definition update (i : string) (partial : gmap string jsval)
    : M (gmap string jsval) :=
  c ← self;
  lift (validateRecord partial (schema c) true);;
  if fileMode c then
    d ← readData;
    match d !! i with
    | None => throw (RecordNotFound i)
    | Some existing =>
        ixs ← loadIndexesFromMeta;
        ixs' ← for_loaded_indexes (reindex i existing partial) ixs;
        let existing' := partial ∪ existing in
        writeData (<[i := existing']> d);;
        storage_writeMeta (buildMeta (schema c) ixs');;
        mret (toDocument i existing')
    end
  else
    match data c !! i with
    | None => throw (RecordNotFound i)
    | Some existing =>
        for_own_indexes (reindex i existing partial);;
        let existing' := partial ∪ existing in
        set_data (<[i := existing']> (data c));;
        mret (toDocument i existing')
    end.

(** The body of the loop of [remove]. *)
Definition unindex (i : string) (existing : gmap string jsval)
    (field : string) (idx : Index.t) : result Index.t :=
  let val := record_get existing field in
  if is_undefined val then Ok idx else Index.remove idx i val.

Definition remove (i : string) : M unit :=
  c ← self;
  if fileMode c then
    d ← readData;
    match d !! i with
    | None => throw (RecordNotFound i)
    | Some existing =>
        ixs ← loadIndexesFromMeta;
        ixs' ← for_loaded_indexes (unindex i existing) ixs;
        writeData (delete i d);;
        storage_writeMeta (buildMeta (schema c) ixs')
    end
  else
    match data c !! i with
    | None => throw (RecordNotFound i)
    | Some existing =>
        for_own_indexes (unindex i existing);;
        set_data (delete i (data c))
    end.

Definition clear : M unit :=
  c ← self;
  if fileMode c then wipe
  else
    set_data ∅;;
    set_indexes ((λ '(field, idx), (field, Index.clear idx)) <$> indexes c).

Definition count : M nat :=
  c ← self;
  if fileMode c then d ← readData; mret (size d)
  else mret (size (data c)).
End Methods.

End Collection.

(** [createDB] for one collection of its configuration: the schema is
    validated, then the collection is constructed on the file adapter when a
    path is given and on the memory adapter otherwise. *)
Definition createDB (nm : string) (sch : Schema) (path : bool)
    (fs : FileAdapter.t) (gen : nat → string) (n : nat)
    : result Collection.World :=
  validateSchema sch;;
  Ok (Collection.create nm sch path fs gen n).

(** * Vocabulary of the statements *)

(** Values of an indexable field type. *)
Definition same_kind (ft : FieldType) (v : jsval) : bool :=
  match ft, v with
  | TString, VStr _ | TNumber, VNum _ | TBoolean, VBool _ => true
  | _, _ => false
  end.

Definition typed (ft : FieldType) (v : jsval) : Prop := same_kind ft v = true.

Definition entries_typed (ft : FieldType) (es : list IndexEntry) : Prop :=
  Forall (λ e, typed ft (value e)) es.

Section OrderVocabulary.
Context `{JsNumber}.

(** [a <= b] read as "not [b < a]": the order the binary search sees. *)
Definition js_le (a b : jsval) : bool := negb (js_lt b a).

(** Ascending order of the entry sequence. *)
Definition entry_le (e1 e2 : IndexEntry) : Prop :=
  js_le (value e1) (value e2) = true.

Definition sorted (es : list IndexEntry) : Prop :=
  StronglySorted entry_le es.

Definition below (target : jsval) (e : IndexEntry) : Prop :=
  js_lt (value e) target = true.

Definition not_below (target : jsval) (e : IndexEntry) : Prop :=
  js_lt (value e) target = false.
End OrderVocabulary.

(** The array length below which [(lo + hi) >>> 1] is the midpoint. *)
Definition small (es : list IndexEntry) : Prop :=
  (Z.of_nat (length es) < 2 ^ 31)%Z.

(** An entry holds the value [target]. *)
Definition has_value (target : jsval) (e : IndexEntry) : bool :=
  strict_eq (value e) target.

(** The first entry for the pair [(target, i)] taken out of a sequence. *)
Fixpoint remove_first (i : string) (target : jsval) (es : list IndexEntry)
    : list IndexEntry :=
  match es with
  | [] => []
  | e :: es' =>
      if has_value target e && String.eqb (id e) i then es'
      else e :: remove_first i target es'
  end.

(** Calls on one index. *)
Inductive IndexOp :=
| IAdd (i : string) (v : jsval)
| IRemove (i : string) (v : jsval).

Definition op_value (o : IndexOp) : jsval :=
  match o with IAdd _ v | IRemove _ v => v end.

Section IndexRuns.
Context `{JsNumber}.

Definition run_op (idx : Index.t) (o : IndexOp) : result Index.t :=
  match o with
  | IAdd i v => Index.add idx i v
  | IRemove i v => Index.remove idx i v
  end.

Fixpoint run_ops (idx : Index.t) (ops : list IndexOp) : result Index.t :=
  match ops with
  | [] => Ok idx
  | o :: ops' => idx' ← run_op idx o; run_ops idx' ops'
  end.
End IndexRuns.

(** The pairs an index should hold after a run, the most recently inserted
    first: an insertion is put in front, a removal takes out the most recent
    insertion of its pair. *)
Fixpoint latest_first (norm : jsval → jsval) (ops : list IndexOp)
    (h : list IndexEntry) : list IndexEntry :=
  match ops with
  | [] => h
  | IAdd i v :: ops' =>
      latest_first norm ops' ({| value := norm v; id := i |} :: h)
  | IRemove i v :: ops' =>
      latest_first norm ops' (remove_first i (norm v) h)
  end.

(** The same pairs, the earliest inserted first. *)
Definition earliest_first (norm : jsval → jsval) (ops : list IndexOp)
    : list IndexEntry :=
  reverse (latest_first norm ops []).

Definition ops_typed (ft : FieldType) (ops : list IndexOp) : Prop :=
  Forall (λ o, typed ft (op_value o)) ops.

(** The number an entry of a number field holds. *)
Definition entry_num (e : IndexEntry) : Z :=
  match value e with VNum n => n | _ => 0%Z end.

Definition raises {A} (r : result A) : Prop :=
  match r with Throw _ => True | Ok _ => False end.

(** The four range operators. *)
Definition range_ops : list string := [">"; ">="; "<"; "<="].


(** The errors of record validation and of a missing identifier. *)
Definition is_rejection (e : Error) : Prop :=
  match e with
  | UnknownField | MissingRequiredField _ | WrongFieldType _ | NestedObject _
  | RecordNotFound _ => True
  | _ => False
  end.

(** The records a collection reads: its own map in memory mode, the data
    artifact in file mode. *)
Definition current_data (w : Collection.World)
    : gmap string (gmap string jsval) :=
  if Collection.fileMode (Collection.this w)
  then from_option (λ d, d) ∅
         (FileAdapter.readData (Collection.storage w)
            (Collection.name (Collection.this w)))
  else Collection.data (Collection.this w).

(** The indexes a collection queries: its own in memory mode, the ones the
    meta artifact gives in file mode. *)
Definition current_indexes (w : Collection.World) : list (string * Index.t) :=
  if Collection.fileMode (Collection.this w)
  then match (Collection.loadIndexesFromMeta w).1 with
       | Ok ixs => ixs
       | Throw _ => []
       end
  else Collection.indexes (Collection.this w).

(** A computation that fails only by running out of fuel. *)
Definition only_stuck {A} (m : Collection.M A) : Prop :=
  ∀ w e w', m w = (Throw e, w') → e = Stuck.

Definition stuck_or_ok {A} (r : result A) : Prop :=
  ∀ e, r = Throw e → e = Stuck.

(** A call left the object and the disk as they were. *)
Definition unchanged (w w' : Collection.World) : Prop :=
  Collection.this w' = Collection.this w
  ∧ Collection.storage w' = Collection.storage w.

(** A record passes the validation of [add]. *)
Definition valid_for_add (sch : Schema) (record : gmap string jsval) : Prop :=
  validateRecord (Collection.applyDefaults sch record) sch false = Ok ().

(** What [find] turns an identifier into. *)
Definition materialize (w : Collection.World) (i : string)
    : option (gmap string jsval) :=
  if Collection.fileMode (Collection.this w)
  then Some (Collection.toDocument i
               (from_option (λ r, r) ∅ (current_data w !! i)))
  else Collection.toDocument i <$> current_data w !! i.

Definition all_documents (w : Collection.World) : list (gmap string jsval) :=
  (λ '(i, record), Collection.toDocument i record)
    <$> map_to_list (current_data w).

(** A queried field has an index and its pattern is answered. *)
Definition answered `{JsNumber} (ixs : list (string * Index.t))
    (fq : string * string) : Prop :=
  ∃ idx ids, Map_get fq.1 ixs = Some idx ∧ Index.find idx fq.2 = Ok ids.

(** The identifier [x] is in the answer of a queried field. *)
Definition in_answer `{JsNumber} (ixs : list (string * Index.t)) (x : string)
    (fq : string * string) : Prop :=
  ∃ idx ids, Map_get fq.1 ixs = Some idx ∧ Index.find idx fq.2 = Ok ids
             ∧ x ∈ ids.

(** ** Sample data *)

Definition users_schema : Schema :=
  [("name", {| type := TString; index := Some true;
               indexSetting := Some {| setting_ignoreCase := Some true |};
               default := VUndefined |});
   ("age", {| type := TNumber; index := Some true; indexSetting := None;
              default := VUndefined |});
   ("sex", {| type := TString; index := None; indexSetting := None;
              default := VUndefined |})].

Definition user (nm : string) (age : Z) (sex : string) : gmap string jsval :=
  {["name" := VStr nm; "age" := VNum age; "sex" := VStr sex]}.

Definition sample_uuid (n : nat) : string := "id" +:+ pretty n.

(** A collection named [users], fresh, in memory or on an empty disk. *)
Definition fresh_users (file : bool) : Collection.World :=
  Collection.create "users" users_schema file FileAdapter.empty sample_uuid 0.

(** The world a call leaves behind. *)
Definition after {A} (m : Collection.M A) (w : Collection.World)
    : Collection.World := (m w).2.

(** Two definitions of one field agree on type, indexed flag and
    case-folding setting. *)
Definition definitions_agree (curr prev : FieldDefinition) : Prop :=
  type curr = type prev
  ∧ truthy (index curr) = truthy (index prev)
  ∧ ignoreCase_of curr = ignoreCase_of prev.

(** Two schemas have the same field names, and agree field by field. *)
Definition schemas_agree (current stored : Schema) : Prop :=
  (∀ k, k ∈ current.*1 ↔ k ∈ stored.*1)
  ∧ ∀ k curr prev,
      schema_get current k = Some curr → schema_get stored k = Some prev →
      definitions_agree curr prev.

(** Both artifacts of a collection reset to empty. *)
Definition wiped (fs : FileAdapter.t) (nm : string) (sch : Schema)
    : FileAdapter.t :=
  FileAdapter.writeMeta (FileAdapter.writeData fs nm ∅) nm
    (Collection.buildMeta sch []).

(** The index the collection makes for a field, holding the entries [es]. *)
Definition index_for (field : string) (def : FieldDefinition)
    (es : list IndexEntry) : Index.t :=
  Index.fromEntries field (type def)
    (from_option (λ b, b) false (ignoreCase_of def)) es.

(** The indexes of a schema, field by field in schema order, holding the
    entries [E] gives for each indexed field. *)
Definition shaped (sch : Schema) (E : string → list IndexEntry)
    : list (string * Index.t) :=
  omap (λ '(field, def),
          if truthy (index def) then Some (field, index_for field def (E field))
          else None) sch.

Definition is_indexed (sch : Schema) (field : string) : bool :=
  from_option (λ def, truthy (index def)) false (schema_get sch field).

(** The entries the meta artifact holds for a field. *)
Definition disk_entries (w : Collection.World) (field : string)
    : list IndexEntry :=
  match FileAdapter.readMeta (Collection.storage w)
          (Collection.name (Collection.this w)) ≫= CollectionMeta.indexes with
  | Some stored => from_option (λ es, es) [] (stored !! field)
  | None => []
  end.

(** What one pass of an indexing loop makes of the entries of each field. *)
Definition stepE (body : string → Index.t → result Index.t) (sch : Schema)
    (E : string → list IndexEntry) (field : string) : list IndexEntry :=
  match schema_get sch field with
  | Some def =>
      match body field (index_for field def (E field)) with
      | Ok idx' => Index.entries idx'
      | Throw _ => E field
      end
  | None => E field
  end.


(** The world after a write-through of the records [d] and the indexes
    [ixs], with [n] identifiers issued. *)
Definition written (w : Collection.World)
    (d : gmap string (gmap string jsval)) (ixs : list (string * Index.t))
    (n : nat) : Collection.World :=
  {| Collection.this := Collection.this w;
     Collection.storage :=
       FileAdapter.writeMeta
         (FileAdapter.writeData (Collection.storage w)
            (Collection.name (Collection.this w)) d)
         (Collection.name (Collection.this w))
         (Collection.buildMeta (Collection.schema (Collection.this w)) ixs);
     Collection.uuids := Collection.uuids w;
     Collection.issued := n |}.

(** The world of a memory-mode collection holding [d] and [ixs]. *)
Definition holding (w : Collection.World)
    (d : gmap string (gmap string jsval)) (ixs : list (string * Index.t))
    (n : nat) : Collection.World :=
  {| Collection.this :=
       {| Collection.name := Collection.name (Collection.this w);
          Collection.schema := Collection.schema (Collection.this w);
          Collection.fileMode := Collection.fileMode (Collection.this w);
          Collection.data := d; Collection.indexes := ixs |};
     Collection.storage := Collection.storage w;
     Collection.uuids := Collection.uuids w;
     Collection.issued := n |}.

(** The world after a successful mutation that leaves the records [d] and
    the indexes [ixs]. *)
Definition updated (w : Collection.World)
    (d : gmap string (gmap string jsval)) (ixs : list (string * Index.t))
    (n : nat) : Collection.World :=
  if Collection.fileMode (Collection.this w) then written w d ixs n
  else holding w d ixs n.

(** Everything the disk holds for the collection came out of
    [JSON.parse]. *)
Definition disk_json (w : Collection.World) : Prop :=
  json_record <$> current_data w = current_data w
  ∧ ∀ f, json_entry <$> disk_entries w f = disk_entries w f.


(** The indexing of a batch, one record after the other. *)
Fixpoint index_all `{JsNumber} (validated : list (string * gmap string jsval))
    (ixs : list (string * Index.t)) : result (list (string * Index.t)) :=
  match validated with
  | [] => Ok ixs
  | (i, raw) :: rest =>
      let '(r, ixs') :=
        Collection.for_indexes (Collection.index_record i raw) ixs in
      r;; index_all rest ixs'
  end.

Definition store_all (validated : list (string * gmap string jsval))
    (d : gmap string (gmap string jsval)) : gmap string (gmap string jsval) :=
  foldl (λ d '(i, raw), <[i := raw]> d) d validated.

Definition documents_of (validated : list (string * gmap string jsval))
    : list (gmap string jsval) :=
  (λ '(i, raw), Collection.toDocument i raw) <$> validated.

(** The pairs the validating loop of [addMany] produces. *)
Definition validated_of (w : Collection.World)
    (records : list (gmap string jsval)) : list (string * gmap string jsval) :=
  zip ((λ k, Collection.uuids w (Collection.issued w + k))
         <$> seq 0 (length records))
      (Collection.applyDefaults (Collection.schema (Collection.this w))
         <$> records).


(** A mutating call on a collection. *)
Inductive Mutation :=
| DoAdd (record : gmap string jsval)
| DoAddMany (records : list (gmap string jsval))
| DoUpdate (i : string) (partial : gmap string jsval)
| DoRemove (i : string)
| DoClear.

Definition mutate `{JsNumber} (m : Mutation) : Collection.M unit :=
  match m with
  | DoAdd record => Collection.add record;; mret ()
  | DoAddMany records => Collection.addMany records;; mret ()
  | DoUpdate i partial => Collection.update i partial;; mret ()
  | DoRemove i => Collection.remove i
  | DoClear => Collection.clear
  end.

(** The world after a sequence of calls, each of which returned or threw. *)
Definition mutated `{JsNumber} (ms : list Mutation) (w : Collection.World)
    : Collection.World :=
  foldl (λ w m, after (mutate m) w) w ms.

(** The collection object is [c], and the disk holds a meta artifact for it
    whose schema the schema of [c] matches. *)
Definition bound (c : Collection.t) (w : Collection.World) : Prop :=
  Collection.this w = c
  ∧ ∃ meta,
      FileAdapter.readMeta (Collection.storage w) (Collection.name c)
      = Some meta
      ∧ Collection.schemasMatch (Collection.schema c)
          (CollectionMeta.schema meta) = true.

(** A computation that keeps the collection bound to its artifacts. *)
Definition keeps {A} (c : Collection.t) (m : Collection.M A) : Prop :=
  ∀ w, bound c w → bound c (m w).2.

(** What a run keeps true: the sequence is ascending, and the entries of
    each value stand in the order of the log [h]. *)
Definition run_invariant `{JsNumber} (ft : FieldType)
    (es h : list IndexEntry) : Prop :=
  sorted es ∧ entries_typed ft es ∧ entries_typed ft h
  ∧ ∀ v, List.filter (has_value v) es = List.filter (has_value v) h.

(** An index a binary search can be run on: ascending entries of the
    field's type, short enough for the midpoint. *)
Definition searchable `{JsNumber} (ft : FieldType) (idx : Index.t) : Prop :=
  sorted (Index.entries idx) ∧ entries_typed ft (Index.entries idx)
  ∧ small (Index.entries idx).

(** An entry's text starts with, ends with or contains a text. *)
Definition text_starts (p : string) (e : IndexEntry) : bool :=
  startsWith (js_String (value e)) p.

Definition text_ends (p : string) (e : IndexEntry) : bool :=
  endsWith (js_String (value e)) p.

Definition text_includes (p : string) (e : IndexEntry) : bool :=
  includes (js_String (value e)) p.

(** Two indexes to run the calls on. *)
Definition sample_ages : Index.t :=
  {| Index.field := "age"; Index.fieldType := TNumber;
     Index.ignoreCase := false;
     Index.entries := [{| value := VNum 25; id := "id2" |};
                       {| value := VNum 30; id := "id3" |};
                       {| value := VNum 30; id := "id1" |}] |}.

Definition sample_names : Index.t :=
  {| Index.field := "name"; Index.fieldType := TString;
     Index.ignoreCase := true;
     Index.entries := [{| value := VStr "anna"; id := "id3" |};
                       {| value := VStr "josef"; id := "id1" |};
                       {| value := VStr "josefina"; id := "id2" |};
                       {| value := VStr "karel"; id := "id4" |}] |}.

(** A field definition [validateSchema] lets through: no index on an object
    field, an index setting only on an indexed string field. *)
Definition definition_ok (def : FieldDefinition) : Prop :=
  (truthy (index def) = true → type def ≠ TObject)
  ∧ (is_Some (indexSetting def) →
     truthy (index def) = true ∧ type def = TString).

(** A value of a field type as [validateRecord] wants it: a string, a number
    other than [NaN], a boolean, or a plain object whose properties hold no
    object or array. *)
Definition value_ok (ft : FieldType) (v : jsval) : Prop :=
  match ft, v with
  | TString, VStr _ | TNumber, VNum _ | TBoolean, VBool _ => True
  | TObject, VObject props => Forall (λ kv, is_nested kv.2 = false) props
  | _, _ => False
  end.

(** The value [applyDefaults] puts in for a field. *)
Definition default_value (def : FieldDefinition) : jsval :=
  if bool_decide (type def = TObject) then object_spread (default def)
  else default def.

(** A schema with defaults. *)
Definition accounts_schema : Schema :=
  [("name", {| type := TString; index := Some true; indexSetting := None;
               default := VUndefined |});
   ("active", {| type := TBoolean; index := None; indexSetting := None;
                 default := VBool true |});
   ("meta", {| type := TObject; index := None; indexSetting := None;
               default := VObject [("role", VStr "user")] |})].

(** What a record looks like once stored: as it is in memory mode, as
    [JSON.parse] gives it back in file mode. *)
Definition stored_form (w : Collection.World) (record : gmap string jsval)
    : gmap string jsval :=
  if Collection.fileMode (Collection.this w) then json_record record
  else record.

(** Every index emptied, as [clear] leaves them. *)
Definition cleared (ixs : list (string * Index.t)) : list (string * Index.t) :=
  (λ '(field, idx), (field, Index.clear idx)) <$> ixs.

(** A computation that keeps a property of the world. *)
Definition preserves {A} (I : Collection.World → Prop) (m : Collection.M A)
    : Prop :=
  ∀ w, I w → I (m w).2.

(** A memory-mode collection of a schema, beside a storage it does not use,
    with indexes for the fields [K]. *)
Definition in_memory (sch : Schema) (fs : FileAdapter.t) (K : list string)
    (w : Collection.World) : Prop :=
  Collection.fileMode (Collection.this w) = false
  ∧ Collection.schema (Collection.this w) = sch
  ∧ Collection.storage w = fs
  ∧ (Collection.indexes (Collection.this w)).*1 = K.

(** The object of such a collection. *)
Definition memory_object (sch : Schema) (K : list string) (c : Collection.t)
    : Prop :=
  Collection.fileMode c = false ∧ Collection.schema c = sch
  ∧ (Collection.indexes c).*1 = K.

(** A file-mode collection object [c], beside the artifacts [D] and [M] of
    another collection [other] on the same storage. *)
Definition on_disk (c : Collection.t) (other : string)
    (D : option (gmap string (gmap string jsval)))
    (M : option CollectionMeta.t) (w : Collection.World) : Prop :=
  Collection.this w = c
  ∧ FileAdapter.readData (Collection.storage w) other = D
  ∧ FileAdapter.readMeta (Collection.storage w) other = M.

(** The fields of a schema that have an index, in schema order. *)
Definition indexed_fields (sch : Schema) : list string :=
  (List.filter (λ fd, truthy (index fd.2)) sch).*1.

(** A file-mode collection object [c] over artifacts that came out of
    [JSON.parse]. *)
Definition on_json (c : Collection.t) (w : Collection.World) : Prop :=
  Collection.this w = c ∧ disk_json w.

(** The value an index of the field holds for a record: the field's value,
    case-folded when the definition asks for it. *)
Definition field_value (f : string) (def : FieldDefinition)
    (record : gmap string jsval) : jsval :=
  Index.normalize (index_for f def []) (record_get record f).

(** The entries of the index of a field are in step with the records:
    ascending, of the field's type, one entry per stored record, holding the
    record's value of the field. *)
Definition mirrors `{JsNumber} (f : string) (def : FieldDefinition)
    (d : gmap string (gmap string jsval)) (es : list IndexEntry) : Prop :=
  sorted es ∧ entries_typed (type def) es ∧ NoDup (id <$> es)
  ∧ ∀ e, e ∈ es ↔ ∃ r, d !! id e = Some r ∧ value e = field_value f def r.

(** A collection whose indexes are in step with its records (its own in
    memory mode, those of its artifacts in file mode), whose records hold a
    value of the field's type in every indexed field, and whose identifiers
    were all issued by the generator. *)
Definition in_step `{JsNumber} (sch : Schema) (w : Collection.World) : Prop :=
  Collection.schema (Collection.this w) = sch
  ∧ (∃ E, current_indexes w = shaped sch E
          ∧ ∀ f def, (f, def) ∈ sch → truthy (index def) = true →
                     mirrors f def (current_data w) (E f))
  ∧ (∀ i r f def, current_data w !! i = Some r →
                  (f, def) ∈ sch → truthy (index def) = true →
                  typed (type def) (record_get r f))
  ∧ (∀ i, is_Some (current_data w !! i) →
          ∃ k, k < Collection.issued w ∧ Collection.uuids w k = i).

(** A construction that starts from nothing: in file mode the storage holds
    no meta artifact for the collection, or one of a schema that does not
    match, so that the constructor resets the artifacts. *)
Definition starts_empty (file : bool) (fs : FileAdapter.t) (nm : string)
    (sch : Schema) : Prop :=
  file = true →
  ∀ meta, FileAdapter.readMeta fs nm = Some meta →
          Collection.schemasMatch sch (CollectionMeta.schema meta) = false.

(** A call that passes no explicit [undefined] to [update]. *)
Definition no_undefined (m : Mutation) : Prop :=
  match m with
  | DoUpdate _ partial => ∀ k v, partial !! k = Some v → v ≠ VUndefined
  | _ => True
  end.

(** How many records a call can add. *)
Definition adds (m : Mutation) : nat :=
  match m with
  | DoAdd _ => 1
  | DoAddMany records => length records
  | _ => 0
  end.

(** The value an exact-match query of a field asks for, when the query is
    one: a string without a wildcard at either end, a number that is not a
    range, or one of the two boolean literals. *)
Definition exact_target `{JsNumber} (f : string) (def : FieldDefinition)
    (q : string) : option jsval :=
  match type def with
  | TNumber =>
      match rangeMatch q with
      | Some _ => None
      | None => VNum <$> Number q
      end
  | TBoolean =>
      if String.eqb q "true" then Some (VBool true)
      else if String.eqb q "false" then Some (VBool false)
      else None
  | _ =>
      if startsWith q "%" || endsWith q "%" then None
      else Some (VStr (Index.fold_query (index_for f def []) q))
  end.

(** The arguments of a call pass its checks: the records of [add] and
    [addMany] are valid, the partial record of [update] is valid and its
    identifier is stored, the identifier of [remove] is stored. *)
Definition accepted (sch : Schema) (w : Collection.World) (m : Mutation)
    : Prop :=
  match m with
  | DoAdd record => valid_for_add sch record
  | DoAddMany records => Forall (valid_for_add sch) records
  | DoUpdate i partial =>
      validateRecord partial sch true = Ok () ∧ is_Some (current_data w !! i)
  | DoRemove i => is_Some (current_data w !! i)
  | DoClear => True
  end.

(** The query finds the record in an index of the field that holds the
    record alone. *)
Definition found_alone `{JsNumber} (f : string) (def : FieldDefinition)
    (q : string) (i : string) (record : gmap string jsval) : bool :=
  match Index.find
          (index_for f def [{| value := field_value f def record; id := i |}])
          q with
  | Ok (_ :: _) => true
  | _ => false
  end.

(** The queried field has an index, and the pattern is one the index does
    not refuse. *)
Definition askable `{JsNumber} (sch : Schema) (fq : string * string) : Prop :=
  ∃ def, (fq.1, def) ∈ sch ∧ truthy (index def) = true
         ∧ ¬ raises (Index.find (index_for fq.1 def []) fq.2).

(** The record is the one a queried field finds. *)
Definition passes `{JsNumber} (sch : Schema) (i : string)
    (record : gmap string jsval) (fq : string * string) : Prop :=
  ∃ def, (fq.1, def) ∈ sch ∧ found_alone fq.1 def fq.2 i record = true.

(** ** database.ts *)

Module Database.

(** [options.path ? new FileAdapter(options.path) : new MemoryAdapter()]:
    an absent or empty path gives a memory database. *)
Definition uses_files (path : option string) : bool :=
  match path with
  | Some p => negb (String.eqb p "")
  | None => false
  end.

(** The loop over [Object.entries(options.collections)]: each schema is
    validated, then its collection is constructed on the shared storage and
    set in the map. *)
Fixpoint construct (file : bool) (gen : nat → string)
    (entries : list (string * Schema))
    (collections : list (string * Collection.t)) (fs : FileAdapter.t)
    : result (list (string * Collection.t)) * FileAdapter.t :=
  match entries with
  | [] => (Ok collections, fs)
  | (name, sch) :: rest =>
      match validateSchema sch with
      | Throw e => (Throw e, fs)
      | Ok _ =>
          let w := Collection.create name sch file fs gen 0 in
          construct file gen rest
            (Map_set name (Collection.this w) collections)
            (Collection.storage w)
      end
  end.

(** [createDB(options)]: the map of collections, and what the storage
    holds afterwards; [fs] is what it held before. *)
Definition createDB (path : option string) (fs : FileAdapter.t)
    (gen : nat → string) (entries : list (string * Schema))
    : result (list (string * Collection.t)) * FileAdapter.t :=
  construct (uses_files path) gen entries [] fs.

(** What [db.collection(name)] gives: the collection, or the error that
    it does not exist. *)
Inductive Lookup :=
| Found (col : Collection.t)
| Missing (name : string).

Definition collection (collections : list (string * Collection.t))
    (name : string) : Lookup :=
  match Map_get name collections with
  | Some col => Found col
  | None => Missing name
  end.
End Database.

(** The collection object the constructor leaves. *)
Definition constructed (name : string) (sch : Schema) (file : bool)
    : Collection.t :=
  {| Collection.name := name; Collection.schema := sch;
     Collection.fileMode := file; Collection.data := ∅;
     Collection.indexes := if file then [] else Collection.buildIndexes sch |}.

(** The value the index of a field holds for the record stored under an
    identifier. *)
Definition value_at (w : Collection.World) (f : string)
    (def : FieldDefinition) (i : string) : jsval :=
  field_value f def (from_option (λ r, r) ∅ (current_data w !! i)).

(** The records of the identifiers come in ascending order of a field. *)
Definition ascending `{JsNumber} (w : Collection.World) (f : string)
    (def : FieldDefinition) (ids : list string) : Prop :=
  StronglySorted
    (λ i j, js_le (value_at w f def i) (value_at w f def j) = true) ids.

(** * Properties *)

(** ** The order on values of an indexable type *)

Lemma string_ltb_leb (a b : string) : String.ltb a b = negb (String.leb b a).
Proof.
  unfold String.ltb, String.leb. rewrite (String.compare_antisym b a).
  by destruct (String.compare a b).
Qed.

Lemma string_leb_trans (a b c : string) :
  String.leb a b = true → String.leb b c = true → String.leb a c = true.
Proof.
  intros Hab Hbc. apply Is_true_true.
  apply Is_true_true in Hab, Hbc.
  exact (transitivity (R := String.le) Hab Hbc).
Qed.

Section Order.
Context `{JsNumber}.

Lemma js_le_refl ft a : typed ft a → js_le a a = true.
Proof.
  unfold typed, js_le, js_lt.
  destruct ft, a as [| | |s|n|[]| |]; simpl; try done; intros _.
  - rewrite string_ltb_leb.
    assert (String.leb s s = true) as ->; [|done].
    apply Is_true_true. exact (reflexivity (R := String.le) s).
  - by rewrite Z.ltb_irrefl.
Qed.

Lemma js_le_trans ft a b c :
  typed ft a → typed ft b → typed ft c →
  js_le a b = true → js_le b c = true → js_le a c = true.
Proof.
  unfold typed, js_le, js_lt.
  destruct ft, a as [| | |s1|n1|[]| |], b as [| | |s2|n2|[]| |],
    c as [| | |s3|n3|[]| |]; simpl; try done; intros _ _ _.
  - rewrite !string_ltb_leb, !negb_involutive. apply string_leb_trans.
  - rewrite !negb_true_iff, !Z.ltb_ge. lia.
Qed.

Lemma js_le_antisym ft a b :
  typed ft a → typed ft b →
  js_le a b = true → js_le b a = true → a = b.
Proof.
  unfold typed, js_le, js_lt.
  destruct ft, a as [| | |s1|n1|[]| |], b as [| | |s2|n2|[]| |];
    simpl; try done; intros _ _.
  - rewrite !string_ltb_leb, !negb_involutive.
    intros H1 H2. f_equal. by apply String.leb_antisym.
  - rewrite !negb_true_iff, !Z.ltb_ge. intros. f_equal. lia.
Qed.

Lemma js_le_total ft a b :
  typed ft a → typed ft b → js_le a b = true ∨ js_le b a = true.
Proof.
  unfold typed, js_le, js_lt.
  destruct ft, a as [| | |s1|n1|[]| |], b as [| | |s2|n2|[]| |];
    simpl; try done; intros _ _; auto.
  - rewrite !string_ltb_leb, !negb_involutive.
    destruct (String.leb_total s1 s2); auto.
  - rewrite !negb_true_iff, !Z.ltb_ge. lia.
Qed.

Lemma js_lt_le ft a b :
  typed ft a → typed ft b → js_lt a b = true → js_le a b = true.
Proof.
  intros Ha Hb Hlt. destruct (js_le_total ft a b Ha Hb) as [|Hba]; [done|].
  unfold js_le in Hba. by rewrite Hlt in Hba.
Qed.

Lemma js_lt_irrefl ft a : typed ft a → js_lt a a = false.
Proof. intros Ha. apply negb_true_iff. exact (js_le_refl ft a Ha). Qed.

(** [a < b <= c] gives [a < c]. *)
Lemma js_lt_le_trans ft a b c :
  typed ft a → typed ft b → typed ft c →
  js_lt a b = true → js_le b c = true → js_lt a c = true.
Proof.
  intros Ha Hb Hc Hab Hbc.
  destruct (js_lt a c) eqn:Hac; [done|].
  assert (js_le c a = true) as Hca by (unfold js_le; by rewrite Hac).
  pose proof (js_le_trans ft b c a Hb Hc Ha Hbc Hca) as Hba.
  unfold js_le in Hba. by rewrite Hab in Hba.
Qed.

(** [a <= b < c] gives [a < c]. *)
Lemma js_le_lt_trans ft a b c :
  typed ft a → typed ft b → typed ft c →
  js_le a b = true → js_lt b c = true → js_lt a c = true.
Proof.
  intros Ha Hb Hc Hab Hbc.
  destruct (js_lt a c) eqn:Hac; [done|].
  assert (js_le c a = true) as Hca by (unfold js_le; by rewrite Hac).
  pose proof (js_le_trans ft c a b Hc Ha Hb Hca Hab) as Hcb.
  unfold js_le in Hcb. by rewrite Hbc in Hcb.
Qed.

Lemma strict_eq_typed ft a b :
  typed ft a → typed ft b → strict_eq a b = true ↔ a = b.
Proof.
  unfold typed.
  destruct ft, a as [| | |s1|n1|b1| |], b as [| | |s2|n2|b2| |];
    simpl; try done; intros _ _.
  - rewrite String.eqb_eq. naive_solver.
  - rewrite Z.eqb_eq. naive_solver.
  - rewrite Bool.eqb_true_iff. naive_solver.
Qed.

Lemma strict_eq_refl ft a : typed ft a → strict_eq a a = true.
Proof. intros Ha. by apply (strict_eq_typed ft). Qed.

Lemma js_lt_not_eq ft a b :
  typed ft a → typed ft b → js_lt a b = true → strict_eq a b = false.
Proof.
  intros Ha Hb Hlt. destruct (strict_eq a b) eqn:Heq; [|done].
  apply (strict_eq_typed ft) in Heq; [|done..]. subst.
  by rewrite (js_lt_irrefl ft) in Hlt.
Qed.

Lemma compare_neg a b : (Index.compare a b <? 0)%Z = js_lt a b.
Proof. unfold Index.compare. by destruct (js_lt a b), (js_lt b a). Qed.
End Order.

(** ** The binary search *)

Lemma ushr1_half (n : nat) : (Z.of_nat n < 2 ^ 32)%Z → ushr1 n = n `div` 2.
Proof.
  intros Hn. unfold ushr1.
  rewrite Z.mod_small by lia. rewrite Z.shiftr_div_pow2 by lia.
  change (2 ^ 1)%Z with 2%Z. apply Nat2Z.inj. rewrite Z2Nat.id.
  - by rewrite Nat2Z.inj_div.
  - apply Z.div_pos; lia.
Qed.

Section BinarySearch.
Context `{JsNumber}.
Variable ft : FieldType.
Variable es : list IndexEntry.
Variable target : jsval.
Hypothesis Hsorted : sorted es.
Hypothesis Htyped : entries_typed ft es.
Hypothesis Htarget : typed ft target.
Hypothesis Hsmall : small es.

Lemma sorted_before_mid mid e :
  es !! mid = Some e → below target e → Forall (below target) (take (S mid) es).
Proof using Hsorted Htyped Htarget.
  intros Hmid Hlt.
  pose proof (take_drop_middle es mid e Hmid) as Hsplit.
  rewrite (take_S_r es mid e Hmid). apply Forall_app. split; [|by constructor].
  apply Forall_forall. intros x Hx.
  assert (entry_le x e) as Hle.
  { unfold sorted in Hsorted. rewrite <- Hsplit in Hsorted.
    apply (StronglySorted_app_1_elem_of _ _ _ _ _ Hsorted Hx). by left. }
  unfold below. eapply (js_le_lt_trans ft); try exact Hle; try exact Hlt.
  - eapply Forall_forall in Htyped; [exact Htyped|].
    by apply (subseteq_take mid es).
  - eapply Forall_forall in Htyped; [exact Htyped|].
    by eapply list_elem_of_lookup_2.
  - done.
Qed.

Lemma sorted_from_mid mid e :
  es !! mid = Some e → not_below target e →
  Forall (not_below target) (drop mid es).
Proof using Hsorted Htyped Htarget.
  intros Hmid Hge.
  pose proof (take_drop_middle es mid e Hmid) as Hsplit.
  rewrite (drop_S es e mid Hmid). constructor; [done|].
  apply Forall_forall. intros x Hx.
  assert (entry_le e x) as Hle.
  { unfold sorted in Hsorted. rewrite <- Hsplit in Hsorted.
    apply StronglySorted_app_1_r in Hsorted.
    apply StronglySorted_cons in Hsorted as [Hall _].
    eapply Forall_forall in Hall; eauto. }
  unfold not_below. destruct (js_lt (value x) target) eqn:Hx'; [|done].
  assert (js_lt (value e) target = true) as Hcontra; [|unfold not_below in Hge; congruence].
  eapply (js_le_lt_trans ft); try exact Hle; try exact Hx'.
  - eapply Forall_forall in Htyped; [exact Htyped|].
    by eapply list_elem_of_lookup_2.
  - eapply Forall_forall in Htyped; [exact Htyped|].
    by apply (subseteq_drop (S mid) es).
  - done.
Qed.

Lemma lowerBound_loop_spec fuel lo hi :
  lo ≤ hi → hi ≤ length es → hi - lo < fuel →
  Forall (below target) (take lo es) →
  Forall (not_below target) (drop hi es) →
  ∃ n, Index.lowerBound_loop fuel es target lo hi = Ok n
       ∧ lo ≤ n ≤ hi
       ∧ Forall (below target) (take n es)
       ∧ Forall (not_below target) (drop n es).
Proof using Hsorted Htyped Htarget Hsmall.
  revert lo hi. induction fuel as [|fuel IH]; intros lo hi Hlh Hhi Hfuel Hlo Hhigh;
    [lia|].
  simpl. destruct (lo <? hi) eqn:Hcmp.
  - apply Nat.ltb_lt in Hcmp.
    unfold small in Hsmall.
    rewrite ushr1_half by lia.
    assert (lo ≤ (lo + hi) `div` 2 < hi) as [Hm1 Hm2].
    { split; [apply Nat.div_le_lower_bound; lia
             |apply Nat.Div0.div_lt_upper_bound; lia]. }
    destruct (lookup_lt_is_Some_2 es ((lo + hi) `div` 2)) as [e He]; [lia|].
    rewrite He, compare_neg.
    destruct (js_lt (value e) target) eqn:Hlt.
    + destruct (IH ((lo + hi) `div` 2 + 1) hi) as (n & Hn & Hr & Hb & Hnb);
        try lia; try done.
      { rewrite Nat.add_1_r. by eapply sorted_before_mid. }
      exists n. repeat split; try done; lia.
    + destruct (IH lo ((lo + hi) `div` 2)) as (n & Hn & Hr & Hb & Hnb);
        try lia; try done.
      { by eapply sorted_from_mid. }
      exists n. repeat split; try done; lia.
  - apply Nat.ltb_ge in Hcmp. assert (lo = hi) as -> by lia.
    exists hi. repeat split; try done; lia.
Qed.
End BinarySearch.

(** ** One call on a sorted index *)

Lemma normalize_typed ft idx v : typed ft v → typed ft (Index.normalize idx v).
Proof.
  unfold typed, Index.normalize.
  destruct ft, v; simpl; try done; by destruct (Index.ignoreCase idx).
Qed.

Section SortedIndex.
Context `{JsNumber}.
Variable ft : FieldType.

Lemma lowerBound_spec idx target :
  sorted (Index.entries idx) → entries_typed ft (Index.entries idx) →
  typed ft target → small (Index.entries idx) →
  ∃ n, Index.lowerBound idx target = Ok n
       ∧ n ≤ length (Index.entries idx)
       ∧ Forall (below target) (take n (Index.entries idx))
       ∧ Forall (not_below target) (drop n (Index.entries idx)).
Proof.
  intros Hs Ht Htg Hsm. unfold Index.lowerBound.
  destruct (lowerBound_loop_spec ft (Index.entries idx) target Hs Ht Htg Hsm
              (S (length (Index.entries idx))) 0 (length (Index.entries idx)))
    as (n & Hn & Hr & Hb & Hnb); try lia.
  - by rewrite take_0.
  - by rewrite drop_all.
  - exists n. repeat split; try done; lia.
Qed.

Lemma sorted_insert l r e :
  sorted (l ++ r) → entries_typed ft (l ++ r) → typed ft (value e) →
  Forall (below (value e)) l → Forall (not_below (value e)) r →
  sorted (l ++ e :: r).
Proof.
  intros Hs Ht He Hl Hr. unfold sorted in *.
  apply StronglySorted_app in Hs as (Hlr & Hsl & Hsr).
  apply Forall_app in Ht as [Htl Htr].
  apply StronglySorted_app. repeat split; [|done|].
  - intros x1 x2 Hx1 Hx2. apply elem_of_cons in Hx2 as [->|Hx2]; [|by apply Hlr].
    eapply Forall_forall in Hl; [|exact Hx1].
    eapply Forall_forall in Htl; [|exact Hx1].
    by apply (js_lt_le ft).
  - apply StronglySorted_cons. split; [|done].
    apply Forall_forall. intros x Hx.
    eapply Forall_forall in Hr; [|exact Hx]. unfold not_below in Hr.
    unfold entry_le, js_le. by rewrite Hr.
Qed.

Lemma add_spec idx i v :
  sorted (Index.entries idx) → entries_typed ft (Index.entries idx) →
  typed ft v → small (Index.entries idx) →
  ∃ l r, Index.entries idx = l ++ r
         ∧ Forall (below (Index.normalize idx v)) l
         ∧ Forall (not_below (Index.normalize idx v)) r
         ∧ Index.add idx i v
           = Ok (Index.with_entries idx
                   (l ++ {| value := Index.normalize idx v; id := i |} :: r)).
Proof.
  intros Hs Ht Hv Hsm.
  destruct (lowerBound_spec idx (Index.normalize idx v) Hs Ht
              (normalize_typed ft idx v Hv) Hsm) as (n & Hn & _ & Hb & Hnb).
  exists (take n (Index.entries idx)), (drop n (Index.entries idx)).
  repeat split; try done.
  - by rewrite take_drop.
  - unfold Index.add. by rewrite Hn.
Qed.

Lemma filter_below_none target l :
  entries_typed ft l → typed ft target →
  Forall (below target) l → List.filter (has_value target) l = [].
Proof.
  intros Ht Htg Hb. induction l as [|e l IH]; [done|].
  inversion Ht; inversion Hb; subst. simpl.
  unfold has_value at 1. rewrite (js_lt_not_eq ft); auto.
Qed.

Lemma remove_first_below i target l r :
  entries_typed ft l → typed ft target → Forall (below target) l →
  remove_first i target (l ++ r) = l ++ remove_first i target r.
Proof.
  intros Ht Htg Hb. induction l as [|e l IH]; [done|].
  inversion Ht; inversion Hb; subst. simpl.
  unfold has_value at 1. rewrite (js_lt_not_eq ft); auto. simpl.
  by rewrite IH.
Qed.

(** Past the lower bound, an entry with another value is above the
    target, and so is every entry after it. *)
Lemma sorted_tail_above target e r :
  sorted (e :: r) → entries_typed ft (e :: r) → typed ft target →
  not_below target e → has_value target e = false →
  Forall (λ x, has_value target x = false) (e :: r).
Proof.
  intros Hs Ht Htg Hnb Hne.
  assert (js_lt target (value e) = true) as Hlt.
  { destruct (js_lt target (value e)) eqn:Hlt; [done|].
    inversion Ht; subst.
    assert (value e = target) as Heq.
    { apply (js_le_antisym ft); try done; unfold js_le.
      - by rewrite Hlt.
      - by rewrite Hnb. }
    unfold has_value in Hne. rewrite Heq in Hne.
    by rewrite (strict_eq_refl ft) in Hne. }
  apply StronglySorted_cons in Hs as [Hall _].
  constructor; [done|]. apply Forall_forall. intros x Hx.
  eapply Forall_forall in Hall; [|exact Hx].
  inversion Ht as [|? ? Hte Htr]; subst.
  eapply Forall_forall in Htr; [|exact Hx].
  destruct (has_value target x) eqn:Hx'; [|done].
  apply (strict_eq_typed ft) in Hx'; [|done..].
  rewrite <- Hx' in Hlt.
  assert (js_lt (value x) (value x) = true) as Hcontra.
  { eapply (js_lt_le_trans ft); [| | |exact Hlt|exact Hall]; done. }
  by rewrite (js_lt_irrefl ft) in Hcontra.
Qed.

Lemma remove_first_absent i target l :
  Forall (λ x, has_value target x = false) l → remove_first i target l = l.
Proof.
  induction 1 as [|e l He _ IH]; [done|]. simpl. by rewrite He, IH.
Qed.

Lemma remove_scan_first i target r :
  sorted r → entries_typed ft r → typed ft target →
  Forall (not_below target) r →
  Index.remove_scan i target r = remove_first i target r.
Proof.
  intros Hs Ht Htg Hnb. induction r as [|e r IH]; [done|].
  simpl. fold (has_value target e).
  destruct (has_value target e) eqn:He; simpl.
  - destruct (String.eqb (id e) i); [done|]. f_equal.
    inversion Ht; inversion Hnb; subst.
    apply StronglySorted_cons in Hs as [_ Hs]. by apply IH.
  - f_equal. symmetry.
    pose proof (sorted_tail_above target e r Hs Ht Htg) as Habove.
    inversion Hnb; subst. specialize (Habove ltac:(done) He).
    inversion Habove; subst. by apply remove_first_absent.
Qed.

Lemma remove_spec idx i v :
  sorted (Index.entries idx) → entries_typed ft (Index.entries idx) →
  typed ft v → small (Index.entries idx) →
  Index.remove idx i v
  = Ok (Index.with_entries idx
          (remove_first i (Index.normalize idx v) (Index.entries idx))).
Proof.
  intros Hs Ht Hv Hsm.
  pose proof (normalize_typed ft idx v Hv) as Hnv.
  destruct (lowerBound_spec idx (Index.normalize idx v) Hs Ht Hnv Hsm)
    as (n & Hn & _ & Hb & Hnb).
  unfold Index.remove. rewrite Hn. simpl. do 2 f_equal.
  rewrite <- (take_drop n (Index.entries idx)) at 3.
  rewrite (remove_first_below i _ _ _ (Forall_take _ n _ Ht) Hnv Hb).
  f_equal. apply remove_scan_first; try done.
  - unfold sorted in *. rewrite <- (take_drop n (Index.entries idx)) in Hs.
    by apply StronglySorted_app_1_r in Hs.
  - by apply Forall_drop.
Qed.

Lemma tie_run_filter target r :
  sorted r → entries_typed ft r → typed ft target →
  Forall (not_below target) r →
  Index.tie_run target r = id <$> List.filter (has_value target) r.
Proof.
  intros Hs Ht Htg Hnb. induction r as [|e r IH]; [done|].
  simpl. fold (has_value target e).
  destruct (has_value target e) eqn:He; simpl.
  - f_equal. inversion Ht; inversion Hnb; subst.
    apply StronglySorted_cons in Hs as [_ Hs]. by apply IH.
  - pose proof (sorted_tail_above target e r Hs Ht Htg) as Habove.
    inversion Hnb; subst. specialize (Habove ltac:(done) He).
    inversion Habove as [|? ? _ Hr]; subst.
    clear -Hr. induction Hr as [|x r Hx _ IH]; [done|]. simpl. by rewrite Hx.
Qed.

Lemma exactQuery_spec idx target :
  sorted (Index.entries idx) → entries_typed ft (Index.entries idx) →
  typed ft target → small (Index.entries idx) →
  Index.exactQuery idx target
  = Ok (id <$> List.filter (has_value target) (Index.entries idx)).
Proof.
  intros Hs Ht Htg Hsm.
  destruct (lowerBound_spec idx target Hs Ht Htg Hsm) as (n & Hn & _ & Hb & Hnb).
  unfold Index.exactQuery. rewrite Hn. simpl. f_equal.
  rewrite <- (take_drop n (Index.entries idx)) at 2.
  rewrite List.filter_app.
  rewrite (filter_below_none target _ (Forall_take _ n _ Ht) Htg Hb). simpl.
  apply tie_run_filter; try done.
  - unfold sorted in *. rewrite <- (take_drop n (Index.entries idx)) in Hs.
    by apply StronglySorted_app_1_r in Hs.
  - by apply Forall_drop.
Qed.
End SortedIndex.

(** ** Runs of calls on one index *)

Section IndexRunsFacts.
Context `{JsNumber}.
Variable ft : FieldType.

Lemma filter_untyped v l :
  entries_typed ft l → ¬ typed ft v → List.filter (has_value v) l = [].
Proof.
  intros Ht Hv. induction Ht as [|e l He _ IH]; [done|]. simpl.
  assert (has_value v e = false) as ->; [|done].
  unfold has_value, typed in *.
  destruct ft, (value e), v; simpl in *; done.
Qed.

Lemma remove_first_typed i nv l :
  entries_typed ft l → entries_typed ft (remove_first i nv l).
Proof.
  induction 1 as [|e l He Hl IH]; [constructor|]. simpl.
  destruct (has_value nv e && String.eqb (id e) i); [done|by constructor].
Qed.

Lemma remove_first_sorted i nv l : sorted l → sorted (remove_first i nv l).
Proof.
  unfold sorted. induction 1 as [|e l Hl IH Hall]; [constructor|]. simpl.
  destruct (has_value nv e && String.eqb (id e) i); [done|].
  constructor; [done|].
  apply Forall_forall. intros x Hx. eapply Forall_forall in Hall; [done|].
  clear -Hx. induction l as [|y l IHl]; [done|]. simpl in Hx.
  destruct (has_value nv y && String.eqb (id y) i).
  - by right.
  - apply elem_of_cons in Hx as [->|Hx]; [by left|right; auto].
Qed.

Lemma remove_first_length i nv l : length (remove_first i nv l) ≤ length l.
Proof.
  induction l as [|e l IH]; [done|]. simpl.
  destruct (has_value nv e && String.eqb (id e) i); simpl; lia.
Qed.

Lemma filter_remove_first i nv v l :
  entries_typed ft l → typed ft nv → typed ft v →
  List.filter (has_value v) (remove_first i nv l)
  = if strict_eq nv v
    then remove_first i nv (List.filter (has_value v) l)
    else List.filter (has_value v) l.
Proof.
  intros Ht Hnv Hv. induction Ht as [|e l He _ IH]; [by destruct (strict_eq _ _)|].
  simpl. destruct (has_value nv e) eqn:Hnve; simpl.
  - pose proof Hnve as Heq. apply (strict_eq_typed ft) in Heq; [|done..].
    assert (has_value v e = strict_eq nv v) as Hve.
    { unfold has_value. by rewrite Heq. }
    destruct (String.eqb (id e) i) eqn:Hid.
    + rewrite Hve. destruct (strict_eq nv v); [|done].
      simpl. by rewrite Hnve, Hid.
    + simpl. rewrite Hve, IH. destruct (strict_eq nv v); [|done].
      simpl. by rewrite Hnve, Hid.
  - destruct (has_value v e) eqn:Hve; rewrite IH;
      destruct (strict_eq nv v); try done.
    simpl. by rewrite Hnve.
Qed.

Lemma run_ops_invariant ops : ∀ idx h,
  ops_typed ft ops →
  (Z.of_nat (length (Index.entries idx) + length ops) < 2 ^ 31)%Z →
  run_invariant ft (Index.entries idx) h →
  ∃ idx', run_ops idx ops = Ok idx'
          ∧ run_invariant ft (Index.entries idx')
              (latest_first (Index.normalize idx) ops h).
Proof.
  induction ops as [|o ops IH]; intros idx h Hops Hlen Hinv.
  { exists idx. by split. }
  inversion Hops as [|? ? Ho Hops']; subst.
  destruct Hinv as (Hs & Ht & Hth & Hties).
  assert (small (Index.entries idx)) as Hsm.
  { unfold small. simpl in Hlen. lia. }
  destruct o as [i v|i v]; simpl in Ho |- *.
  - destruct (add_spec ft idx i v Hs Ht Ho Hsm) as (l & r & Hlr & Hl & Hr & ->).
    pose proof (normalize_typed ft idx v Ho) as Hnv.
    simpl. apply (IH (Index.with_entries idx _)); [done| |].
    + simpl. rewrite Hlr in Hlen. rewrite !length_app in *. simpl in *. lia.
    + simpl. rewrite Hlr in Hs, Ht, Hties.
      repeat split.
      * by apply (sorted_insert ft).
      * apply Forall_app in Ht as [??]. apply Forall_app.
        split; [done|by constructor].
      * by constructor.
      * intros w. specialize (Hties w).
        rewrite List.filter_app in Hties |- *. simpl.
        destruct (has_value w {| value := Index.normalize idx v; id := i |})
          eqn:Hw; [|done].
        unfold has_value in Hw. simpl in Hw.
        assert (typed ft w) as Hwt.
        { unfold typed in *. destruct ft, (Index.normalize idx v), w; done. }
        apply (strict_eq_typed ft) in Hw; [|done..]. subst w.
        apply Forall_app in Ht as [Htl _].
        rewrite (filter_below_none ft _ l Htl Hnv Hl) in Hties |- *.
        simpl in *. by rewrite Hties.
  - rewrite (remove_spec ft idx i v Hs Ht Ho Hsm).
    pose proof (normalize_typed ft idx v Ho) as Hnv.
    simpl. apply (IH (Index.with_entries idx _)); [done| |].
    + simpl in *.
      pose proof (remove_first_length i (Index.normalize idx v)
                    (Index.entries idx)). lia.
    + simpl. repeat split.
      * by apply remove_first_sorted.
      * by apply remove_first_typed.
      * by apply remove_first_typed.
      * intros w. destruct (same_kind ft w) eqn:Hw.
        -- rewrite !filter_remove_first by done. by rewrite Hties.
        -- rewrite !filter_untyped; auto using remove_first_typed;
             unfold typed; by rewrite Hw.
Qed.
End IndexRunsFacts.

(** C2, as the code has it: after every run of [add] and [remove] calls on
    a fresh index, with values of the field's type and fewer than 2^31 calls,
    the entry sequence is ascending by normalized value, and the entries that
    share a value stand latest-inserted first (an insertion lands at the lower
    bound, in front of the entries of its value). *)
Theorem C2_sorted_ties_latest_first `{JsNumber} f ft ic ops :
  ops_typed ft ops →
  (Z.of_nat (length ops) < 2 ^ 31)%Z →
  ∃ idx, run_ops (Index.new f ft ic) ops = Ok idx
         ∧ sorted (Index.entries idx)
         ∧ ∀ v, List.filter (has_value v) (Index.entries idx)
                = List.filter (has_value v)
                    (latest_first (Index.normalize (Index.new f ft ic)) ops []).
Proof.
  intros Hops Hlen.
  destruct (run_ops_invariant ft ops (Index.new f ft ic) [] Hops)
    as (idx & Hrun & Hs & _ & _ & Hties).
  - simpl. lia.
  - repeat split; try constructor. 
  - by exists idx.
Qed.

Lemma C2_witness :
  ∃ idx, run_ops (H := decimal_Number) (Index.new "age" TNumber None)
           [IAdd "1" (VNum 30); IAdd "2" (VNum 25); IAdd "3" (VNum 30);
            IRemove "1" (VNum 30)] = Ok idx
         ∧ sorted (H := decimal_Number) (Index.entries idx)
         ∧ ∀ v, List.filter (has_value v) (Index.entries idx)
                = List.filter (has_value v)
                    (latest_first (Index.normalize (Index.new "age" TNumber None))
                       [IAdd "1" (VNum 30); IAdd "2" (VNum 25);
                        IAdd "3" (VNum 30); IRemove "1" (VNum 30)] []).
Proof.
  apply (C2_sorted_ties_latest_first (H := decimal_Number)).
  - repeat constructor.
  - simpl. lia.
Defined.

(** C2 as stated fails: two insertions of one value leave the later one in
    front, so the entries of that value are not in insertion order. *)
Lemma C2_ties_not_in_insertion_order :
  ∃ idx, run_ops (H := decimal_Number) (Index.new "name" TString None)
           [IAdd "1" (VStr "a"); IAdd "2" (VStr "a")] = Ok idx
         ∧ Index.entries idx
           = [{| value := VStr "a"; id := "2" |};
              {| value := VStr "a"; id := "1" |}]
         ∧ List.filter (has_value (VStr "a")) (Index.entries idx)
           ≠ List.filter (has_value (VStr "a"))
               (earliest_first (Index.normalize (Index.new "name" TString None))
                  [IAdd "1" (VStr "a"); IAdd "2" (VStr "a")]).
Proof.
  eexists. split; [reflexivity|]. split; [reflexivity|]. vm_compute. discriminate.
Qed.

(** ** Range queries on a number index *)

Lemma filter_all {A} (p : A → bool) l :
  Forall (λ x, p x = true) l → List.filter p l = l.
Proof. induction 1 as [|x l Hx _ IH]; [done|]. simpl. by rewrite Hx, IH. Qed.

Lemma filter_none {A} (p : A → bool) l :
  Forall (λ x, p x = false) l → List.filter p l = [].
Proof. induction 1 as [|x l Hx _ IH]; [done|]. simpl. by rewrite Hx. Qed.

Lemma filter_agree {A} (p q : A → bool) l :
  Forall (λ x, p x = q x) l → List.filter p l = List.filter q l.
Proof. induction 1 as [|x l Hx _ IH]; [done|]. simpl. by rewrite Hx, IH. Qed.

Section RangeQuery.
Context `{JsNumber}.
Variable idx : Index.t.
Variable b : Z.
Hypothesis Hsorted : sorted (Index.entries idx).
Hypothesis Htyped : entries_typed TNumber (Index.entries idx).
Hypothesis Hsmall : small (Index.entries idx).

Lemma number_split :
  ∃ n, Index.lowerBound idx (VNum b) = Ok n
       ∧ Forall (λ e, ∃ x, value e = VNum x ∧ (x < b)%Z)
           (take n (Index.entries idx))
       ∧ Forall (λ e, ∃ x, value e = VNum x ∧ (b ≤ x)%Z)
           (drop n (Index.entries idx))
       ∧ sorted (drop n (Index.entries idx)).
Proof using Hsorted Htyped Hsmall.
  destruct (lowerBound_spec TNumber idx (VNum b) Hsorted Htyped eq_refl Hsmall)
    as (n & Hn & _ & Hb & Hnb).
  exists n. split; [done|]. repeat split.
  - pose proof (Forall_take _ n _ Htyped) as Ht.
    apply Forall_forall. intros e He.
    pose proof (proj1 (Forall_forall _ _) Ht e He) as Hte.
    pose proof (proj1 (Forall_forall _ _) Hb e He) as Hbe.
    simpl in Hte. unfold typed, below, js_lt in *.
    destruct (value e); simpl in *; try done. eexists. split; [done|].
    by apply Z.ltb_lt.
  - pose proof (Forall_drop _ n _ Htyped) as Ht.
    apply Forall_forall. intros e He.
    pose proof (proj1 (Forall_forall _ _) Ht e He) as Hte.
    pose proof (proj1 (Forall_forall _ _) Hnb e He) as Hbe.
    simpl in Hte. unfold typed, not_below, js_lt in *.
    destruct (value e); simpl in *; try done. eexists. split; [done|].
    by apply Z.ltb_ge.
  - unfold sorted in *. rewrite <- (take_drop n (Index.entries idx)) in Hsorted.
    by apply StronglySorted_app_1_r in Hsorted.
Qed.

Lemma number_entries (R : Z → Prop) (P : IndexEntry → Prop) l :
  Forall (λ e, ∃ x, value e = VNum x ∧ R x) l →
  (∀ e x, value e = VNum x → R x → P e) → Forall P l.
Proof.
  intros Hl HP. eapply Forall_impl; [exact Hl|].
  intros e (x & Hx & Hr). eauto.
Qed.

Ltac at_entry :=
  let e := fresh "e" in let x := fresh "x" in
  let Hx := fresh "Hx" in let Hr := fresh "Hr" in
  intros e x Hx Hr; unfold entry_num, has_value; rewrite Hx; simpl;
  repeat match goal with
         | |- context [(?a =? ?b)%Z] => destruct (Z.eqb_spec a b)
         | |- context [(?a <? ?b)%Z] => destruct (Z.ltb_spec a b)
         | |- context [(?a <=? ?b)%Z] => destruct (Z.leb_spec a b)
         end; simpl; try done; try lia.

Lemma rangeQuery_gt :
  Index.rangeQuery idx ">" b
  = Ok (id <$> List.filter (λ e, (b <? entry_num e)%Z) (Index.entries idx)).
Proof using Hsorted Htyped Hsmall.
  destruct number_split as (n & Hn & Hlo & Hhi & Hs).
  unfold Index.rangeQuery. simpl. rewrite Hn. simpl. do 2 f_equal.
  rewrite <- (take_drop n (Index.entries idx)) at 2.
  rewrite List.filter_app, (filter_none _ (take n _)); simpl.
  - apply filter_agree, (number_entries _ _ _ Hhi). at_entry.
  - apply (number_entries _ _ _ Hlo). at_entry.
Qed.

Lemma rangeQuery_ge :
  Index.rangeQuery idx ">=" b
  = Ok (id <$> List.filter (λ e, (b <=? entry_num e)%Z) (Index.entries idx)).
Proof using Hsorted Htyped Hsmall.
  destruct number_split as (n & Hn & Hlo & Hhi & Hs).
  unfold Index.rangeQuery. simpl. rewrite Hn. simpl. do 2 f_equal.
  rewrite <- (take_drop n (Index.entries idx)) at 2.
  rewrite List.filter_app, (filter_none _ (take n _)); simpl.
  - apply filter_agree, (number_entries _ _ _ Hhi). at_entry.
  - apply (number_entries _ _ _ Hlo). at_entry.
Qed.

Lemma rangeQuery_lt :
  Index.rangeQuery idx "<" b
  = Ok (id <$> List.filter (λ e, (entry_num e <? b)%Z) (Index.entries idx)).
Proof using Hsorted Htyped Hsmall.
  destruct number_split as (n & Hn & Hlo & Hhi & Hs).
  unfold Index.rangeQuery. simpl. rewrite Hn. simpl. f_equal.
  rewrite app_nil_r. f_equal.
  rewrite <- (take_drop n (Index.entries idx)) at 2.
  rewrite List.filter_app, (filter_none _ (drop n _)), app_nil_r.
  - symmetry. apply filter_all, (number_entries _ _ _ Hlo). at_entry.
  - apply (number_entries _ _ _ Hhi). at_entry.
Qed.

Lemma rangeQuery_le :
  Index.rangeQuery idx "<=" b
  = Ok (id <$> List.filter (λ e, (entry_num e <=? b)%Z) (Index.entries idx)).
Proof using Hsorted Htyped Hsmall.
  destruct number_split as (n & Hn & Hlo & Hhi & Hs).
  pose proof (lowerBound_spec TNumber idx (VNum b) Hsorted Htyped eq_refl
                Hsmall) as (n' & Hn' & _ & _ & Hnb).
  rewrite Hn in Hn'. injection Hn' as <-.
  unfold Index.rangeQuery. simpl. rewrite Hn. simpl. f_equal.
  rewrite <- (take_drop n (Index.entries idx)) at 3.
  rewrite List.filter_app, fmap_app. f_equal.
  - f_equal. symmetry. apply filter_all, (number_entries _ _ _ Hlo). at_entry.
  - rewrite (tie_run_filter TNumber); try done; [|by apply Forall_drop].
    f_equal. apply filter_agree, (number_entries _ _ _ Hhi). at_entry.
Qed.
End RangeQuery.

Lemma rangeMatch_bare (c : ascii) (lit : string) :
  c = ">"%char ∨ c = "<"%char →
  dot_plus lit = true → startsWith lit "=" = false →
  rangeMatch (String c lit) = Some (String c "", lit).
Proof.
  intros Hc Hlit Heq. destruct lit as [|d lit]; [done|].
  assert (Stdlib.Strings.Ascii.eqb d "=" = false) as Hd.
  { destruct (Stdlib.Strings.Ascii.eqb_spec d "=") as [->|]; [|done].
    simpl in Heq. by destruct lit. }
  unfold rangeMatch. rewrite Hd, Hlit. by destruct Hc as [-> | ->].
Qed.

Lemma rangeMatch_op (op lit : string) :
  op ∈ range_ops → dot_plus lit = true → startsWith lit "=" = false →
  rangeMatch (op +:+ lit) = Some (op, lit).
Proof.
  intros Hop Hlit Heq. unfold range_ops in Hop.
  repeat (apply elem_of_cons in Hop as [->|Hop]); [..|by apply elem_of_nil in Hop].
  - apply (rangeMatch_bare ">"); auto.
  - change (">=" +:+ lit) with (String ">" (String "=" lit)).
    simpl. by rewrite Hlit.
  - apply (rangeMatch_bare "<"); auto.
  - change ("<=" +:+ lit) with (String "<" (String "=" lit)).
    simpl. by rewrite Hlit.
Qed.

(** C5: on a number index with ascending entries, a range query whose bound
    is written as the literal [lit] (non-empty, on one line, read by [Number]
    as [b]) returns the identifiers of exactly the entries above [b] for [>],
    at or above [b] for [>=], below [b] for [<], at or below [b] for [<=]. *)
Theorem C5_range_queries `{JsNumber} idx lit b :
  Index.fieldType idx = TNumber →
  sorted (Index.entries idx) →
  entries_typed TNumber (Index.entries idx) →
  small (Index.entries idx) →
  dot_plus lit = true → startsWith lit "=" = false → Number lit = Some b →
  Index.find idx (">" +:+ lit)
  = Ok (id <$> List.filter (λ e, (b <? entry_num e)%Z) (Index.entries idx))
  ∧ Index.find idx (">=" +:+ lit)
    = Ok (id <$> List.filter (λ e, (b <=? entry_num e)%Z) (Index.entries idx))
  ∧ Index.find idx ("<" +:+ lit)
    = Ok (id <$> List.filter (λ e, (entry_num e <? b)%Z) (Index.entries idx))
  ∧ Index.find idx ("<=" +:+ lit)
    = Ok (id <$> List.filter (λ e, (entry_num e <=? b)%Z) (Index.entries idx)).
Proof.
  intros Hft Hs Ht Hsm Hlit Heq Hnum. unfold Index.find. rewrite Hft.
  rewrite !rangeMatch_op by (try done; unfold range_ops; set_solver).
  rewrite Hnum.
  auto using rangeQuery_gt, rangeQuery_ge, rangeQuery_lt, rangeQuery_le.
Qed.

Lemma C5_witness :
  let idx := Index.fromEntries "age" TNumber false
               [{| value := VNum 10; id := "1" |};
                {| value := VNum 20; id := "4" |};
                {| value := VNum 20; id := "2" |};
                {| value := VNum 30; id := "3" |}] in
  Index.find (H := decimal_Number) idx ">20" = Ok ["3"]
  ∧ Index.find (H := decimal_Number) idx ">=20" = Ok ["4"; "2"; "3"]
  ∧ Index.find (H := decimal_Number) idx "<20" = Ok ["1"]
  ∧ Index.find (H := decimal_Number) idx "<=20" = Ok ["1"; "4"; "2"].
Proof.
  intros idx.
  apply (C5_range_queries (H := decimal_Number) idx "20" 20).
  - reflexivity.
  - repeat constructor.
  - repeat constructor.
  - unfold small. simpl. lia.
  - reflexivity.
  - reflexivity.
  - reflexivity.
Defined.

(** ** Which queries an index refuses *)

Section Totality.
Context `{JsNumber}.





Lemma rangeMatch_inv q op lit :
  rangeMatch q = Some (op, lit) →
  ∃ c, (c = ">"%char ∨ c = "<"%char) ∧ dot_plus lit = true
       ∧ ((op = String c "" ∧ q = String c lit
           ∧ ∀ rest, lit = String "=" rest → dot_plus rest = false)
          ∨ (op = String c "=" ∧ q = String c (String "=" lit))).
Proof.
  destruct q as [|c rest]; [done|]. simpl.
  destruct (Stdlib.Strings.Ascii.eqb c ">" || Stdlib.Strings.Ascii.eqb c "<")
    eqn:Hc; [|done].
  assert (c = ">"%char ∨ c = "<"%char) as Hc'.
  { apply orb_true_iff in Hc as [Hc|Hc];
      apply Stdlib.Strings.Ascii.eqb_eq in Hc; auto. }
  destruct rest as [|d rest]; [done|].
  destruct (Stdlib.Strings.Ascii.eqb_spec d "=") as [->|Hd]; simpl.
  - destruct (dot_plus rest) eqn:Hrest.
    + intros [= <- <-]. exists c. repeat split; auto.
    + destruct (no_line_terminator rest) eqn:Hnl; [|done].
      intros [= <- <-]. exists c. repeat split; auto.
      left. repeat split; try done. by intros ? [= <-].
  - destruct (negb (is_line_terminator d) && no_line_terminator rest) eqn:Hnl;
      [|done].
    intros [= <- <-]. exists c. repeat split; auto.
    left. repeat split; try done. by intros ? [= ? ?].
Qed.


End Totality.






(** ** The lone wildcard *)

Lemma prefix_empty s : String.prefix "" s = true.
Proof. by destruct s. Qed.

Lemma ushr1_le (n : nat) : 0 < n → ushr1 n < n.
Proof.
  intros Hn. unfold ushr1. rewrite Z.shiftr_div_pow2 by lia.
  change (2 ^ 1)%Z with 2%Z.
  assert (0 ≤ Z.of_nat n mod 2 ^ 32 ≤ Z.of_nat n)%Z as Hmod.
  { split; [apply Z.mod_pos_bound; lia|apply Z.mod_le; lia]. }
  assert ((Z.of_nat n mod 2 ^ 32) `div` 2 < Z.of_nat n)%Z.
  { apply Z.div_lt_upper_bound; lia. }
  assert (0 ≤ (Z.of_nat n mod 2 ^ 32) `div` 2)%Z by (apply Z.div_pos; lia).
  lia.
Qed.

Section LoneWildcard.
Context `{JsNumber}.

Lemma lowerBound_loop_floor es target :
  Forall (not_below target) es →
  ∀ fuel hi, hi ≤ length es → hi < fuel →
             Index.lowerBound_loop fuel es target 0 hi = Ok 0.
Proof.
  intros Hall. induction fuel as [|fuel IH]; intros hi Hhi Hfuel; [lia|].
  simpl. destruct hi as [|hi]; [done|].
  change (0 <? S hi) with true. cbv iota.
  pose proof (ushr1_le (S hi) ltac:(lia)) as Hmid.
  destruct (lookup_lt_is_Some_2 es (ushr1 (S hi))) as [e He]; [lia|].
  rewrite He, compare_neg.
  eapply Forall_forall in Hall; [|by eapply list_elem_of_lookup_2].
  unfold not_below in Hall. rewrite Hall. apply IH; lia.
Qed.

Lemma prefix_run_empty es : Index.prefix_run "" es = id <$> es.
Proof.
  induction es as [|e es IH]; [done|]. simpl.
  unfold startsWith. by rewrite prefix_empty, IH.
Qed.
End LoneWildcard.

(** C10: on a string index whose entries hold strings, the query ["%"] is not
    refused and is not a contains query: it is the prefix query for the empty
    prefix, and it returns the identifier of every entry, in index order. *)
Theorem C10_lone_wildcard `{JsNumber} idx :
  Index.fieldType idx = TString →
  entries_typed TString (Index.entries idx) →
  Index.find idx "%" = Index.prefixQuery idx ""
  ∧ Index.find idx "%" = Ok (id <$> Index.entries idx).
Proof.
  intros Hft Ht.
  assert (Index.find idx "%" = Index.prefixQuery idx "") as Hfind.
  { unfold Index.find. by rewrite Hft. }
  split; [done|]. rewrite Hfind. unfold Index.prefixQuery.
  assert (Index.fold_query idx "" = "") as ->.
  { unfold Index.fold_query. by destruct (Index.ignoreCase idx). }
  unfold Index.lowerBound.
  rewrite lowerBound_loop_floor; try lia.
  - simpl. by rewrite drop_0, prefix_run_empty.
  - eapply Forall_impl; [exact Ht|]. intros e He. unfold typed, not_below, js_lt in *.
    destruct (value e) as [| | |s| | | |]; try done. simpl.
    rewrite string_ltb_leb. by destruct s.
Qed.

Lemma C10_witness :
  let idx := Index.fromEntries "name" TString true
               [{| value := VStr "ann"; id := "2" |};
                {| value := VStr "bob"; id := "1" |}] in
  Index.find (H := decimal_Number) idx "%"
  = Index.prefixQuery (H := decimal_Number) idx ""
  ∧ Index.find (H := decimal_Number) idx "%" = Ok ["2"; "1"].
Proof.
  intros idx. apply (C10_lone_wildcard (H := decimal_Number) idx).
  - reflexivity.
  - repeat constructor.
Defined.

(** ** The state monad of the collection *)

Lemma bind_run {A B} (m : Collection.M A) (f : A → Collection.M B) w :
  (m ≫= f) w
  = match m w with
    | (Ok a, w') => f a w'
    | (Throw e, w') => (Throw e, w')
    end.
Proof. done. Qed.

Lemma only_stuck_bind {A B} (m : Collection.M A) (f : A → Collection.M B) :
  only_stuck m → (∀ a, only_stuck (f a)) → only_stuck (m ≫= f).
Proof.
  intros Hm Hf w e w'. rewrite bind_run.
  destruct (m w) as [[a|e'] w1] eqn:Hmw.
  - apply Hf.
  - intros [= <- <-]. by eapply Hm.
Qed.

Lemma only_stuck_ret {A} (a : A) : only_stuck (mret a).
Proof. by intros w e w'. Qed.

Lemma only_stuck_lift {A} (r : result A) :
  stuck_or_ok r → only_stuck (Collection.lift r).
Proof. intros Hr w e w' [= -> <-]. by apply Hr. Qed.

Lemma only_stuck_total {A} (m : Collection.M A) :
  (∀ w, ∃ a w', m w = (Ok a, w')) → only_stuck m.
Proof. intros Hm w e w' Hw. destruct (Hm w) as (a & w1 & Hw1). congruence. Qed.

Section StuckOnly.
Context `{JsNumber}.

Lemma lowerBound_loop_stuck fuel es target : ∀ lo hi,
  stuck_or_ok (Index.lowerBound_loop fuel es target lo hi).
Proof.
  induction fuel as [|fuel IH]; intros lo hi e; simpl; [congruence|].
  destruct (lo <? hi); [|done].
  destruct (es !! _); [|congruence].
  destruct (_ <? _)%Z; apply IH.
Qed.

Lemma add_stuck idx i v : stuck_or_ok (Index.add idx i v).
Proof.
  intros e. unfold Index.add, Index.lowerBound.
  destruct (Index.lowerBound_loop _ _ _ _ _) eqn:Hl; simpl; [done|].
  intros [= <-]. by eapply lowerBound_loop_stuck.
Qed.

Lemma remove_stuck idx i v : stuck_or_ok (Index.remove idx i v).
Proof.
  intros e. unfold Index.remove, Index.lowerBound.
  destruct (Index.lowerBound_loop _ _ _ _ _) eqn:Hl; simpl; [done|].
  intros [= <-]. by eapply lowerBound_loop_stuck.
Qed.

Lemma index_record_stuck i record field idx :
  stuck_or_ok (Collection.index_record i record field idx).
Proof.
  unfold Collection.index_record. destruct (is_undefined _); [done|].
  apply add_stuck.
Qed.

Lemma reindex_stuck i existing partial field idx :
  stuck_or_ok (Collection.reindex i existing partial field idx).
Proof.
  unfold Collection.reindex. destruct (is_undefined _); [done|].
  destruct (is_undefined _); simpl; [apply add_stuck|].
  destruct (Index.remove idx i _) eqn:Hr; simpl; [apply add_stuck|].
  intros e' [= <-]. by eapply remove_stuck.
Qed.

Lemma unindex_stuck i existing field idx :
  stuck_or_ok (Collection.unindex i existing field idx).
Proof.
  unfold Collection.unindex. destruct (is_undefined _); [done|].
  apply remove_stuck.
Qed.

Lemma for_indexes_stuck body ixs :
  (∀ field idx, stuck_or_ok (body field idx)) →
  stuck_or_ok (Collection.for_indexes body ixs).1.
Proof.
  intros Hbody. induction ixs as [|[field idx] ixs IH]; simpl; [done|].
  destruct (body field idx) eqn:Hb; simpl.
  - by destruct (Collection.for_indexes body ixs).
  - intros e' [= <-]. by eapply Hbody.
Qed.

Lemma for_own_indexes_stuck body :
  (∀ field idx, stuck_or_ok (body field idx)) →
  only_stuck (Collection.for_own_indexes body).
Proof.
  intros Hbody w e w'. unfold Collection.for_own_indexes.
  rewrite bind_run. simpl.
  pose proof (for_indexes_stuck body (Collection.indexes (Collection.this w))
                Hbody) as Hs.
  destruct (Collection.for_indexes _ _) as [r ixs]. simpl in Hs.
  rewrite bind_run. simpl. intros [= -> <-]. by apply Hs.
Qed.

Lemma for_loaded_indexes_stuck body ixs :
  (∀ field idx, stuck_or_ok (body field idx)) →
  only_stuck (Collection.for_loaded_indexes body ixs).
Proof.
  intros Hbody w e w'. unfold Collection.for_loaded_indexes.
  pose proof (for_indexes_stuck body ixs Hbody) as Hs.
  destruct (Collection.for_indexes _ _) as [r ixs']. simpl in Hs.
  rewrite bind_run. unfold Collection.lift.
  destruct r; simpl; [done|]. intros [= <- <-]. by apply Hs.
Qed.
End StuckOnly.

Lemma self_run w : Collection.self w = (Ok (Collection.this w), w).
Proof. done. Qed.

Lemma readData_run w :
  Collection.fileMode (Collection.this w) = true →
  Collection.readData w = (Ok (current_data w), w).
Proof. intros Hf. unfold current_data. by rewrite Hf. Qed.

Lemma loadIndexesFromMeta_total w :
  ∃ ixs, Collection.loadIndexesFromMeta w = (Ok ixs, w).
Proof.
  unfold Collection.loadIndexesFromMeta. rewrite bind_run, self_run, bind_run.
  simpl. destruct (_ ≫= CollectionMeta.indexes); by eexists.
Qed.

Lemma loadIndexesFromMeta_run w :
  Collection.fileMode (Collection.this w) = true →
  Collection.loadIndexesFromMeta w = (Ok (current_indexes w), w).
Proof.
  intros Hf. unfold current_indexes. rewrite Hf.
  by destruct (loadIndexesFromMeta_total w) as [ixs ->].
Qed.

(** ** Failures that come before any mutation *)

Lemma check_type_rejection field ft v e :
  check_type field ft v = Throw e → is_rejection e.
Proof.
  unfold check_type. destruct ft, v; try (by intros [= <-]).
  destruct (existsb _ _); by intros [= <-].
Qed.

Lemma check_fields_rejection record fields isPartial e :
  check_fields record fields isPartial = Throw e → is_rejection e.
Proof.
  induction fields as [|[field def] fields IH]; simpl; [done|].
  destruct (is_undefined _).
  - destruct isPartial; [done|]. by intros [= <-].
  - destruct (check_type _ _ _) eqn:Hc; simpl; [done|].
    intros [= <-]. by eapply check_type_rejection.
Qed.

Lemma validateRecord_rejection record sch isPartial e :
  validateRecord record sch isPartial = Throw e → is_rejection e.
Proof.
  unfold validateRecord. case_bool_decide.
  - apply check_fields_rejection.
  - by intros [= <-].
Qed.

Lemma rejection_not_stuck e : is_rejection e → e ≠ Stuck.
Proof. by intros He ->. Qed.

Lemma loadIndexesFromMeta_stuck : only_stuck Collection.loadIndexesFromMeta.
Proof.
  apply only_stuck_total. intros w.
  destruct (loadIndexesFromMeta_total w) as [ixs ->]. by eexists _, _.
Qed.

Ltac total_step :=
  first [apply loadIndexesFromMeta_stuck
        |apply only_stuck_total; intros ?; by eexists _, _].

Ltac stuck_steps :=
  repeat match goal with
         | |- only_stuck (_ ≫= _) => apply only_stuck_bind; [|intros]
         | |- only_stuck (mret _) => apply only_stuck_ret
         | |- only_stuck (let _ := _ in _) => cbv zeta
         | |- only_stuck (Collection.for_own_indexes _) =>
             apply for_own_indexes_stuck; intros
         | |- only_stuck (Collection.for_loaded_indexes _ _) =>
             apply for_loaded_indexes_stuck; intros
         | |- stuck_or_ok (Collection.index_record _ _ _ _) =>
             apply index_record_stuck
         | |- stuck_or_ok (Collection.reindex _ _ _ _ _) => apply reindex_stuck
         | |- stuck_or_ok (Collection.unindex _ _ _ _) => apply unindex_stuck
         | |- only_stuck (if ?b then _ else _) => destruct b
         | |- only_stuck (match ?x with _ => _ end) => destruct x
         | |- only_stuck _ => total_step
         end.

Section Rejections.
Context `{JsNumber}.

Lemma store_loaded_stuck validated : ∀ d ixs,
  only_stuck (Collection.store_loaded validated d ixs).
Proof.
  induction validated as [|[i raw] validated IH]; intros d ixs; simpl.
  - apply only_stuck_ret.
  - apply only_stuck_bind; [stuck_steps|]. intros ixs'.
    apply only_stuck_bind; [apply IH|]. intros [[d' ixs''] docs].
    apply only_stuck_ret.
Qed.

Lemma store_own_stuck validated : only_stuck (Collection.store_own validated).
Proof.
  induction validated as [|[i raw] validated IH]; simpl.
  - apply only_stuck_ret.
  - stuck_steps; apply IH.
Qed.

(** The validating loop of [addMany] touches nothing but the supply of
    identifiers, and fails only by rejecting a record. *)
Lemma validate_all_run records : ∀ w r w',
  Collection.validate_all records w = (r, w') →
  unchanged w w' ∧ Collection.uuids w' = Collection.uuids w
  ∧ match r with
    | Ok validated =>
        Forall (valid_for_add (Collection.schema (Collection.this w))) records
        ∧ validated.*2
          = Collection.applyDefaults (Collection.schema (Collection.this w))
              <$> records
        ∧ validated.*1
          = (λ k, Collection.uuids w (Collection.issued w + k))
              <$> seq 0 (length records)
        ∧ Collection.issued w' = Collection.issued w + length records
    | Throw e =>
        is_rejection e
        ∧ Exists (λ record, ¬ valid_for_add
                              (Collection.schema (Collection.this w)) record)
            records
    end.
Proof.
  induction records as [|record records IH]; intros w r w'.
  - intros [= <- <-]. repeat split; try done; simpl; lia.
  - cbn [Collection.validate_all].
    rewrite bind_run, self_run, bind_run. unfold Collection.lift at 1.
    destruct (validateRecord _ _ _) as [[]|e] eqn:Hv.
    + rewrite bind_run. simpl.
      set (w1 := {| Collection.this := Collection.this w;
                    Collection.storage := Collection.storage w;
                    Collection.uuids := Collection.uuids w;
                    Collection.issued := S (Collection.issued w) |}).
      rewrite bind_run.
      destruct (Collection.validate_all records w1) as [[validated|e] w2] eqn:Hrest;
        destruct (IH _ _ _ Hrest) as ((Ht & Hs) & Hu & Hr); simpl in *.
      * intros [= <- <-]. destruct Hr as (Hall & Hrecs & Hids & Hn).
        repeat split; try done.
        -- by constructor.
        -- rewrite fmap_cons. simpl. by rewrite Hrecs.
        -- rewrite fmap_cons. simpl. rewrite Hids, Nat.add_0_r. f_equal.
           rewrite <- fmap_S_seq, <- list_fmap_compose.
           apply list_fmap_ext. intros ? k _. simpl. f_equal. lia.
        -- lia.
      * intros [= <- <-]. destruct Hr as [He Hex]. repeat split; try done.
        by apply Exists_cons_tl.
    + intros [= <- <-]. repeat split; try done.
      * by eapply validateRecord_rejection.
      * apply Exists_cons_hd. unfold valid_for_add. by rewrite Hv.
Qed.

Lemma add_rest_stuck (c : Collection.t) (withDefaults : gmap string jsval) :
  only_stuck
    (i ← Collection.generateId;
     (if Collection.fileMode c then
        d ← Collection.readData;
        Collection.writeData (<[i := withDefaults]> d);;
        ixs ← Collection.loadIndexesFromMeta;
        ixs' ← Collection.for_loaded_indexes
                 (Collection.index_record i withDefaults) ixs;
        Collection.storage_writeMeta (Collection.buildMeta (Collection.schema c) ixs')
      else
        Collection.set_data (<[i := withDefaults]> (Collection.data c));;
        Collection.for_own_indexes (Collection.index_record i withDefaults));;
     mret (Collection.toDocument i withDefaults)).
Proof. stuck_steps. Qed.

Lemma add_rejected record w e w' :
  is_rejection e → Collection.add record w = (Throw e, w') → w' = w.
Proof.
  intros He. unfold Collection.add.
  rewrite bind_run, self_run, bind_run. unfold Collection.lift at 1.
  destruct (validateRecord _ _ _) as [[]|e'] eqn:Hv.
  - intros Hrest. apply add_rest_stuck in Hrest. by subst.
  - by intros [= <- <-].
Qed.

Lemma add_invalid record w :
  ¬ valid_for_add (Collection.schema (Collection.this w)) record →
  ∃ e, is_rejection e ∧ Collection.add record w = (Throw e, w).
Proof.
  intros Hn. unfold Collection.add.
  rewrite bind_run, self_run, bind_run. unfold Collection.lift at 1.
  unfold valid_for_add in Hn.
  destruct (validateRecord _ _ _) as [[]|e] eqn:Hv; [done|].
  exists e. split; [by eapply validateRecord_rejection|done].
Qed.

Lemma addMany_rest_stuck validated :
  only_stuck
    (c ← Collection.self;
     if Collection.fileMode c then
       d ← Collection.readData;
       ixs ← Collection.loadIndexesFromMeta;
       '(d', ixs', docs) ← Collection.store_loaded validated d ixs;
       Collection.writeData d';;
       Collection.storage_writeMeta
         (Collection.buildMeta (Collection.schema c) ixs');;
       mret docs
     else Collection.store_own validated).
Proof.
  apply only_stuck_bind; [total_step|]. intros c.
  destruct (Collection.fileMode c); [|apply store_own_stuck].
  apply only_stuck_bind; [total_step|]. intros d.
  apply only_stuck_bind; [total_step|]. intros ixs.
  apply only_stuck_bind; [apply store_loaded_stuck|]. intros [[d' ixs'] docs].
  stuck_steps.
Qed.

Lemma addMany_rejected records w e w' :
  is_rejection e → Collection.addMany records w = (Throw e, w') →
  unchanged w w'.
Proof.
  intros He. unfold Collection.addMany. rewrite bind_run.
  destruct (Collection.validate_all records w) as [[validated|e'] w1] eqn:Hv.
  - intros Hrest. apply addMany_rest_stuck in Hrest. by subst.
  - intros [= <- <-]. by apply validate_all_run in Hv as [? _].
Qed.

Lemma addMany_invalid records w :
  Exists (λ record, ¬ valid_for_add (Collection.schema (Collection.this w)) record)
    records →
  ∃ e w', is_rejection e ∧ Collection.addMany records w = (Throw e, w')
          ∧ unchanged w w'.
Proof.
  intros Hex. unfold Collection.addMany. rewrite bind_run.
  destruct (Collection.validate_all records w) as [[validated|e] w1] eqn:Hv;
    apply validate_all_run in Hv as (Hun & _ & Hr).
  - destruct Hr as [Hall _]. apply Exists_exists in Hex as (r & Hr & Hn).
    eapply Forall_forall in Hall; [|exact Hr]. done.
  - destruct Hr as [He _]. by exists e, w1.
Qed.

Lemma update_rejected i partial w e w' :
  is_rejection e → Collection.update i partial w = (Throw e, w') → w' = w.
Proof.
  intros He. unfold Collection.update.
  rewrite bind_run, self_run, bind_run. unfold Collection.lift at 1.
  destruct (validateRecord _ _ _) as [[]|e'] eqn:Hv; [|by intros [= <- <-]].
  destruct (Collection.fileMode (Collection.this w)) eqn:Hf.
  - rewrite bind_run, (readData_run w Hf).
    destruct (current_data w !! i) as [existing|]; [|by intros [= <- <-]].
    intros Hrest.
    assert (only_stuck
              (ixs ← Collection.loadIndexesFromMeta;
               ixs' ← Collection.for_loaded_indexes
                        (Collection.reindex i existing partial) ixs;
               let existing' := partial ∪ existing in
               Collection.writeData (<[i := existing']> (current_data w));;
               Collection.storage_writeMeta
                 (Collection.buildMeta
                    (Collection.schema (Collection.this w)) ixs');;
               mret (Collection.toDocument i existing'))) as Hs
      by stuck_steps.
    apply Hs in Hrest. by subst.
  - destruct (Collection.data (Collection.this w) !! i) as [existing|];
      [|by intros [= <- <-]].
    intros Hrest.
    assert (only_stuck
              (Collection.for_own_indexes
                 (Collection.reindex i existing partial);;
               let existing' := partial ∪ existing in
               Collection.set_data
                 (<[i := existing']> (Collection.data (Collection.this w)));;
               mret (Collection.toDocument i existing'))) as Hs
      by stuck_steps.
    apply Hs in Hrest. by subst.
Qed.

Lemma update_unknown i partial w :
  validateRecord partial (Collection.schema (Collection.this w)) true = Ok () →
  current_data w !! i = None →
  Collection.update i partial w = (Throw (RecordNotFound i), w).
Proof.
  intros Hv Hi. unfold Collection.update.
  rewrite bind_run, self_run, bind_run. unfold Collection.lift at 1.
  rewrite Hv. unfold current_data in Hi.
  destruct (Collection.fileMode (Collection.this w)) eqn:Hf.
  - rewrite bind_run, (readData_run w Hf). unfold current_data.
    by rewrite Hf, Hi.
  - by rewrite Hi.
Qed.

Lemma remove_rejected i w e w' :
  is_rejection e → Collection.remove i w = (Throw e, w') → w' = w.
Proof.
  intros He. unfold Collection.remove. rewrite bind_run, self_run.
  destruct (Collection.fileMode (Collection.this w)) eqn:Hf.
  - rewrite bind_run, (readData_run w Hf).
    destruct (current_data w !! i) as [existing|]; [|by intros [= <- <-]].
    intros Hrest.
    assert (only_stuck
              (ixs ← Collection.loadIndexesFromMeta;
               ixs' ← Collection.for_loaded_indexes
                        (Collection.unindex i existing) ixs;
               Collection.writeData (delete i (current_data w));;
               Collection.storage_writeMeta
                 (Collection.buildMeta
                    (Collection.schema (Collection.this w)) ixs'))) as Hs
      by stuck_steps.
    apply Hs in Hrest. by subst.
  - destruct (Collection.data (Collection.this w) !! i) as [existing|];
      [|by intros [= <- <-]].
    intros Hrest.
    assert (only_stuck
              (Collection.for_own_indexes (Collection.unindex i existing);;
               Collection.set_data
                 (delete i (Collection.data (Collection.this w))))) as Hs
      by stuck_steps.
    apply Hs in Hrest. by subst.
Qed.

Lemma remove_unknown i w :
  current_data w !! i = None →
  Collection.remove i w = (Throw (RecordNotFound i), w).
Proof.
  intros Hi. unfold Collection.remove. rewrite bind_run, self_run.
  unfold current_data in Hi.
  destruct (Collection.fileMode (Collection.this w)) eqn:Hf.
  - rewrite bind_run, (readData_run w Hf). unfold current_data.
    by rewrite Hf, Hi.
  - by rewrite Hi.
Qed.
End Rejections.

(** C7: a mutating call that fails with a record-validation error or a
    not-found error has changed nothing: the object (data and indexes) and
    the disk (artifacts and write log) are those of before the call.  Such
    failures do occur: [add] of a record that does not validate, [addMany]
    of a batch with one such record anywhere in it, [update] and [remove] of
    an unknown identifier. *)
Theorem C7_rejections_change_nothing `{JsNumber} w :
  (∀ e w', is_rejection e →
     (∀ record, Collection.add record w = (Throw e, w') → unchanged w w')
     ∧ (∀ records, Collection.addMany records w = (Throw e, w') → unchanged w w')
     ∧ (∀ i partial, Collection.update i partial w = (Throw e, w') →
                     unchanged w w')
     ∧ (∀ i, Collection.remove i w = (Throw e, w') → unchanged w w'))
  ∧ (∀ record,
       ¬ valid_for_add (Collection.schema (Collection.this w)) record →
       ∃ e, is_rejection e ∧ Collection.add record w = (Throw e, w))
  ∧ (∀ records,
       Exists (λ record, ¬ valid_for_add
                             (Collection.schema (Collection.this w)) record)
         records →
       ∃ e w', is_rejection e ∧ Collection.addMany records w = (Throw e, w')
               ∧ unchanged w w')
  ∧ (∀ i partial,
       validateRecord partial (Collection.schema (Collection.this w)) true
       = Ok () →
       current_data w !! i = None →
       Collection.update i partial w = (Throw (RecordNotFound i), w))
  ∧ (∀ i, current_data w !! i = None →
          Collection.remove i w = (Throw (RecordNotFound i), w)).
Proof.
  split; [|auto using add_invalid, addMany_invalid, update_unknown,
             remove_unknown].
  intros e w' He. split; [|split; [|split]].
  - intros record Hrun. by apply add_rejected in Hrun as ->.
  - intros records Hrun. by eapply addMany_rejected.
  - intros i partial Hrun. by apply update_rejected in Hrun as ->.
  - intros i Hrun. by apply remove_rejected in Hrun as ->.
Qed.

Lemma C7_witness :
  let w := after (Collection.add (H := decimal_Number) (user "Josef" 30 "male"))
             (fresh_users true) in
  ∃ e, is_rejection e
       ∧ Collection.add (H := decimal_Number) {["name" := VNum 123]} w
         = (Throw e, w).
Proof.
  intros w.
  destruct (C7_rejections_change_nothing (H := decimal_Number) w)
    as (_ & Hadd & _).
  apply Hadd. unfold valid_for_add. vm_compute. discriminate.
Defined.

(** ** Queries over several fields *)

Lemma elem_of_List_filter {A} (p : A → bool) (l : list A) x :
  x ∈ List.filter p l ↔ x ∈ l ∧ p x = true.
Proof. rewrite !list_elem_of_In. apply filter_In. Qed.

Lemma Set_has_elem (s : list string) x : Set_has s x = true ↔ x ∈ s.
Proof.
  unfold Set_has. rewrite existsb_exists. split.
  - intros (y & Hy & Heq). apply String.eqb_eq in Heq as ->.
    by apply list_elem_of_In.
  - intros Hx. exists x. split; [by apply list_elem_of_In|apply String.eqb_refl].
Qed.

Lemma Set_of_elem (l : list string) x : x ∈ Set_of l ↔ x ∈ l.
Proof.
  induction l as [|y l IH]; [done|]. simpl.
  rewrite !elem_of_cons, elem_of_List_filter, IH, negb_true_iff, String.eqb_neq.
  destruct (decide (x = y)); tauto.
Qed.

Lemma NoDup_List_filter {A} (p : A → bool) (l : list A) :
  NoDup l → NoDup (List.filter p l).
Proof. rewrite !NoDup_ListNoDup. apply List.NoDup_filter. Qed.

Lemma Set_of_NoDup (l : list string) : NoDup (Set_of l).
Proof.
  induction l as [|y l IH]; [constructor|]. simpl. constructor.
  - rewrite elem_of_List_filter, negb_true_iff, String.eqb_neq. tauto.
  - by apply NoDup_List_filter.
Qed.

Section FindLoop.
Context `{JsNumber}.
Variable ixs : list (string * Index.t).


Lemma find_loop_running q : ∀ r,
  NoDup r → Forall (answered ixs) q →
  ∃ res, Collection.find_loop ixs q (Some r) = Ok res ∧ NoDup res
         ∧ ∀ x, x ∈ res ↔ x ∈ r ∧ Forall (in_answer ixs x) q.
Proof.
  induction q as [|[f s] q IH]; intros r Hr Hq; simpl.
  { exists r. repeat split; try done; tauto. }
  inversion Hq as [|? ? (idx & ids & Hidx & Hfind) Hq']; subst.
  simpl in *. rewrite Hidx, Hfind. simpl.
  assert (∀ x, x ∈ List.filter (Set_has (Set_of ids)) r
               ↔ x ∈ r ∧ in_answer ixs x (f, s)) as Hrun.
  { intros x. rewrite elem_of_List_filter, Set_has_elem, Set_of_elem.
    unfold in_answer. simpl. split.
    - intros [Hx Hx']. split; [done|]. by exists idx, ids.
    - intros (Hx & idx' & ids' & Hidx' & Hfind' & Hx'). split; [done|].
      congruence. }
  pose proof (NoDup_List_filter (Set_has (Set_of ids)) r Hr) as Hnd.
  destruct (List.filter (Set_has (Set_of ids)) r) as [|y running] eqn:Hrunning.
  - exists []. split; [done|]. split; [constructor|]. intros x. split.
    + by intros ?%elem_of_nil.
    + intros (Hx & Hall). inversion Hall; subst. by apply (Hrun x).
  - destruct (IH (y :: running) Hnd Hq') as (res & -> & Hres & Hmem).
    exists res. split; [done|]. split; [done|]. intros x. split.
    + intros Hx. apply Hmem in Hx as [Hx Hall]. apply Hrun in Hx as [Hx Hfs].
      split; [done|]. by constructor.
    + intros [Hx Hall]. inversion Hall; subst. apply Hmem. split; [|done].
      by apply Hrun.
Qed.

Lemma find_loop_answered q :
  q ≠ [] → Forall (answered ixs) q →
  ∃ res, Collection.find_loop ixs q None = Ok res ∧ NoDup res
         ∧ ∀ x, x ∈ res ↔ Forall (in_answer ixs x) q.
Proof.
  destruct q as [|[f s] q]; [done|]. intros _ Hq. simpl.
  inversion Hq as [|? ? (idx & ids & Hidx & Hfind) Hq']; subst.
  simpl in *. rewrite Hidx, Hfind. simpl.
  assert (∀ x, x ∈ Set_of ids ↔ in_answer ixs x (f, s)) as Hrun.
  { intros x. rewrite Set_of_elem. unfold in_answer. simpl.
    split; [intros Hx; by exists idx, ids|].
    intros (idx' & ids' & Hidx' & Hfind' & Hx'). congruence. }
  pose proof (Set_of_NoDup ids) as Hnd.
  destruct (Set_of ids) as [|y running] eqn:Hrunning.
  - exists []. split; [done|]. split; [constructor|]. intros x. split.
    + by intros ?%elem_of_nil.
    + intros Hall. inversion Hall; subst. by apply (Hrun x).
  - destruct (find_loop_running q (y :: running) Hnd Hq')
      as (res & -> & Hres & Hmem).
    exists res. split; [done|]. split; [done|]. intros x. split.
    + intros Hx. apply Hmem in Hx as [Hx Hall]. constructor; [|done].
      by apply Hrun.
    + intros Hall. inversion Hall; subst. apply Hmem. split; [|done].
      by apply Hrun.
Qed.
End FindLoop.

Section Find.
Context `{JsNumber}.

Lemma all_run w : Collection.all w = (Ok (all_documents w), w).
Proof.
  unfold Collection.all, all_documents, current_data.
  rewrite bind_run, self_run. by destruct (Collection.fileMode _).
Qed.

Lemma find_run q w :
  q ≠ [] →
  Collection.find q w
  = (match Collection.find_loop (current_indexes w) q None with
     | Ok ids => Ok (materialize w <$> ids)
     | Throw e => Throw e
     end, w).
Proof.
  intros Hq. unfold Collection.find. destruct q as [|fq q]; [done|].
  rewrite bind_run, self_run, bind_run. unfold materialize.
  destruct (Collection.fileMode (Collection.this w)) eqn:Hf.
  - rewrite (loadIndexesFromMeta_run w Hf), bind_run. unfold Collection.lift.
    destruct (Collection.find_loop _ _ _); [|done].
    by rewrite bind_run, (readData_run w Hf).
  - unfold current_indexes, current_data. rewrite Hf.
    cbv [mret Collection.M_ret]. rewrite bind_run. unfold Collection.lift.
    by destruct (Collection.find_loop _ _ _).
Qed.
End Find.




(** ** Comparing the stored schema *)

Lemma schema_get_elem (sch : Schema) k :
  k ∈ sch.*1 ↔ is_Some (schema_get sch k).
Proof.
  unfold schema_get. induction sch as [|[k' def] sch IH]; simpl.
  - split; [by intros ?%elem_of_nil|by intros [? ?]].
  - rewrite elem_of_cons. destruct (String.eqb_spec k' k) as [->|Hne]; simpl.
    + split; [by eexists|by left].
    + rewrite IH. split; [intros [?|?]; [congruence|done]|by right].
Qed.

Lemma definitions_match_agree curr prev :
  Collection.definitions_match curr prev = true ↔ definitions_agree curr prev.
Proof.
  unfold Collection.definitions_match, definitions_agree.
  rewrite !andb_true_iff, !bool_decide_eq_true, Bool.eqb_true_iff. tauto.
Qed.

Section SchemasMatch.
Variables current stored : Schema.

Lemma schemasMatch_loop_spec : ∀ cks sks,
  length cks = length sks →
  Forall (λ k, k ∈ current.*1) cks → Forall (λ k, k ∈ stored.*1) sks →
  Collection.schemasMatch_loop current stored cks sks = true
  ↔ cks = sks
    ∧ Forall (λ k, ∀ curr prev,
                schema_get current k = Some curr →
                schema_get stored k = Some prev →
                definitions_agree curr prev) cks.
Proof.
  induction cks as [|ck cks IH]; intros [|sk sks] Hlen Hc Hs; try done.
  simpl. inversion Hc as [|? ? Hck Hc']; inversion Hs as [|? ? Hsk Hs']; subst.
  apply schema_get_elem in Hck as [curr Hcurr].
  apply schema_get_elem in Hsk as [prev Hprev].
  destruct (String.eqb_spec ck sk) as [->|Hne]; simpl.
  - rewrite Hcurr, Hprev.
    destruct (Collection.definitions_match curr prev) eqn:Hm.
    + rewrite IH by (try done; simpl in Hlen; lia).
      apply definitions_match_agree in Hm. split.
      * intros [-> Hall]. split; [done|]. constructor; [|done].
        intros ? ? ? ?. by simplify_eq.
      * intros [[= ->] Hall]. by inversion Hall.
    + split; [done|]. intros [_ Hall]. inversion Hall as [|? ? Hk _]; subst.
      specialize (Hk _ _ Hcurr Hprev).
      apply definitions_match_agree in Hk. congruence.
  - split; [done|]. by intros [[= ? ?] _].
Qed.

Lemma sorted_keys_elem (sch : Schema) k :
  k ∈ Collection.sorted_keys sch ↔ k ∈ sch.*1.
Proof. unfold Collection.sorted_keys. by rewrite merge_sort_Permutation. Qed.

Lemma schemasMatch_spec :
  NoDup current.*1 → NoDup stored.*1 →
  Collection.schemasMatch current stored = true ↔ schemas_agree current stored.
Proof.
  intros Hndc Hnds. unfold Collection.schemasMatch, schemas_agree.
  assert (Forall (λ k, k ∈ current.*1) (Collection.sorted_keys current)) as Hc.
  { apply Forall_forall. intros k. by rewrite sorted_keys_elem. }
  assert (Forall (λ k, k ∈ stored.*1) (Collection.sorted_keys stored)) as Hs.
  { apply Forall_forall. intros k. by rewrite sorted_keys_elem. }
  destruct (Nat.eqb_spec (length (Collection.sorted_keys current))
              (length (Collection.sorted_keys stored))) as [Hlen|Hlen]; simpl.
  - rewrite (schemasMatch_loop_spec _ _ Hlen Hc Hs). split.
    + intros [Heq Hall]. split.
      * intros k. by rewrite <- !sorted_keys_elem, Heq.
      * intros k curr prev Hcurr Hprev.
        eapply Forall_forall in Hall; [by eapply Hall|].
        apply sorted_keys_elem, schema_get_elem. by eexists.
    + intros [Hkeys Hall]. split.
      * apply (Sorted_unique String.le); try apply Sorted_merge_sort; try apply _.
        unfold Collection.sorted_keys. rewrite !merge_sort_Permutation.
        by apply NoDup_Permutation.
      * apply Forall_forall. intros k _ curr prev. apply Hall.
  - split; [done|]. intros [Hkeys _]. exfalso. apply Hlen.
    unfold Collection.sorted_keys. rewrite !merge_sort_Permutation.
    apply Permutation_length. by apply NoDup_Permutation.
Qed.
End SchemasMatch.





(** ** What the disk gives back *)

Lemma json_value_undefined v :
  is_undefined (json_value v) = is_undefined v.
Proof. by destruct v. Qed.

Lemma json_value_idem v : json_value (json_value v) = json_value v.
Proof.
  induction v as [| | |s|n|b|props IH|items IH] using jsval_nested_ind;
    try done.
  - simpl. f_equal. induction IH as [|[k x] props Hx _ IHp]; [done|].
    simpl in *. destruct (is_undefined x) eqn:Hu; [done|]. simpl.
    by rewrite json_value_undefined, Hu, Hx, IHp.
  - simpl. f_equal. induction IH as [|x items Hx _ IHi]; [done|].
    simpl in *. rewrite IHi. f_equal.
    destruct (is_undefined x) eqn:Hu; [done|].
    by rewrite json_value_undefined, Hu, Hx.
Qed.

Lemma json_record_idem r : json_record (json_record r) = json_record r.
Proof.
  apply map_eq. intros k. unfold json_record. rewrite !lookup_omap.
  destruct (r !! k) as [v|]; simpl; [|done].
  destruct (is_undefined v) eqn:Hu; simpl; [done|].
  by rewrite json_value_undefined, Hu, json_value_idem.
Qed.

Lemma json_entry_idem e : json_entry (json_entry e) = json_entry e.
Proof. unfold json_entry. simpl. by rewrite json_value_idem. Qed.

Lemma json_typed ft v : typed ft v → json_value v = v.
Proof. unfold typed. by destruct ft, v. Qed.

(** ** The indexes of a schema *)

Lemma Map_set_fresh {V} key (v : V) (m : list (string * V)) :
  key ∉ m.*1 → Map_set key v m = m ++ [(key, v)].
Proof.
  induction m as [|[k v'] m IH]; [done|]. simpl. intros Hk.
  apply not_elem_of_cons in Hk as [Hne Hk].
  destruct (String.eqb_spec k key) as [->|_]; [done|]. by rewrite IH.
Qed.

Lemma Map_get_app_fresh {V} key (m1 m2 : list (string * V)) :
  key ∉ m1.*1 → Map_get key (m1 ++ m2) = Map_get key m2.
Proof.
  unfold Map_get. induction m1 as [|[k v] m1 IH]; [done|]. simpl. intros Hk.
  apply not_elem_of_cons in Hk as [Hne Hk].
  destruct (String.eqb_spec k key) as [->|_]; [done|]. by apply IH.
Qed.

Lemma schema_get_elem_Some (sch : Schema) field def :
  NoDup sch.*1 → (field, def) ∈ sch → schema_get sch field = Some def.
Proof.
  unfold schema_get. induction sch as [|[k d] sch IH]; simpl.
  - by intros _ ?%elem_of_nil.
  - intros [Hk Hnd]%NoDup_cons [[= -> ->]|Hin]%elem_of_cons.
    + by rewrite String.eqb_refl.
    + destruct (String.eqb_spec k field) as [->|_]; [|by apply IH].
      exfalso. apply Hk. apply list_elem_of_fmap. by exists (field, def).
Qed.

Section Shapes.
Variable sch : Schema.
Hypothesis Hnodup : NoDup sch.*1.

Lemma omap_keys {V} (g : string → FieldDefinition → V) (l : Schema) k :
  k ∈ (omap (λ '(field, def),
               if truthy (index def) then Some (field, g field def) else None)
         l).*1 →
  k ∈ l.*1.
Proof.
  induction l as [|[f d] l IH]; simpl; [done|].
  destruct (truthy (index d)); simpl; rewrite ?elem_of_cons; [|by right; auto].
  intros [->|?]; [by left|right; auto].
Qed.

Lemma foldl_indexes {V} (g : string → FieldDefinition → V) (l : Schema) :
  ∀ acc, NoDup (acc.*1 ++ l.*1) →
  foldl (λ ixs '(field, def),
           if truthy (index def) then Map_set field (g field def) ixs else ixs)
    acc l
  = acc ++ omap (λ '(field, def),
                   if truthy (index def) then Some (field, g field def)
                   else None) l.
Proof.
  induction l as [|[f d] l IH]; intros acc Hnd; simpl.
  { by rewrite app_nil_r. }
  apply NoDup_app in Hnd as (Hacc & Hdisj & [Hf Hl]%NoDup_cons).
  destruct (truthy (index d)).
  - rewrite IH.
    + rewrite Map_set_fresh; [by rewrite <- app_assoc|].
      intros Hin. apply (Hdisj _ Hin). by left.
    + rewrite Map_set_fresh by (intros Hin; apply (Hdisj _ Hin); by left).
      rewrite fmap_app. simpl. rewrite <- app_assoc. simpl.
      apply NoDup_app. repeat split; [done| |by constructor].
      intros k Hk. apply Hdisj in Hk. done.
  - apply IH. apply NoDup_app. repeat split; [done| |done].
    intros k Hk Hin. apply (Hdisj _ Hk). by right.
Qed.

Lemma buildIndexes_shaped : Collection.buildIndexes sch = shaped sch (λ _, []).
Proof.
  unfold Collection.buildIndexes, shaped.
  by rewrite (foldl_indexes Collection.new_index sch []).
Qed.

Lemma shaped_cons f d (l : Schema) E :
  shaped ((f, d) :: l) E
  = if truthy (index d) then (f, index_for f d (E f)) :: shaped l E
    else shaped l E.
Proof. unfold shaped. cbn [omap list_omap]. by destruct (truthy (index d)). Qed.

Lemma shaped_ext_on (l : Schema) E E' :
  (∀ f d, (f, d) ∈ l → truthy (index d) = true → E f = E' f) →
  shaped l E = shaped l E'.
Proof.
  induction l as [|[f d] l IH]; intros Hext; [done|].
  rewrite !shaped_cons, IH by (intros; eapply Hext; [by right|done]).
  destruct (truthy (index d)) eqn:Hd; [|done].
  by rewrite (Hext f d) by (by left || done).
Qed.

Lemma is_indexed_elem f d :
  (f, d) ∈ sch → truthy (index d) = true → is_indexed sch f = true.
Proof using Hnodup.
  intros Hin Hd. unfold is_indexed.
  by rewrite (schema_get_elem_Some sch f d Hnodup Hin).
Qed.

Lemma shaped_ext E E' :
  (∀ f, is_indexed sch f = true → E f = E' f) → shaped sch E = shaped sch E'.
Proof using Hnodup.
  intros Hext. apply shaped_ext_on. intros f d Hin Hd. apply Hext.
  by eapply is_indexed_elem.
Qed.
Lemma foldl_fun_ext {A B} (f g : A → B → A) (l : list B) a :
  (∀ a b, f a b = g a b) → foldl f a l = foldl g a l.
Proof.
  intros Hfg. revert a. induction l as [|b l IH]; intros a; simpl; [done|].
  by rewrite Hfg, IH.
Qed.

Lemma loaded_shaped w :
  Collection.schema (Collection.this w) = sch →
  Collection.fileMode (Collection.this w) = true →
  current_indexes w = shaped sch (disk_entries w).
Proof using Hnodup.
  intros Hsch Hf. unfold current_indexes, disk_entries. rewrite Hf.
  unfold Collection.loadIndexesFromMeta.
  rewrite bind_run, self_run, bind_run. simpl. rewrite Hsch.
  destruct (_ ≫= CollectionMeta.indexes) as [stored|]; simpl.
  - rewrite (foldl_fun_ext _
               (λ ixs '(field, def),
                  if truthy (index def)
                  then Map_set field
                         (index_for field def
                            (from_option (λ es, es) [] (stored !! field))) ixs
                  else ixs)).
    + by rewrite (foldl_indexes
                    (λ field def,
                       index_for field def
                         (from_option (λ es, es) [] (stored !! field))) sch []).
    + intros ixs [field def]. destruct (truthy (index def)); [|done].
      by destruct (stored !! field).
  - apply buildIndexes_shaped.
Qed.

Lemma own_shaped_create nm gen n fs :
  Collection.indexes
    (Collection.this (Collection.create nm sch false fs gen n))
  = shaped sch (λ _, []).
Proof using Hnodup. simpl. apply buildIndexes_shaped. Qed.


Lemma serialized_lookup E f :
  ∀ (l : Schema) (m0 : gmap string (list IndexEntry)),
  NoDup l.*1 →
  foldl (λ serialized '(field, idx), <[field := Index.serialize idx]> serialized)
    m0 (shaped l E) !! f
  = if is_indexed l f then Some (E f) else m0 !! f.
Proof.
  induction l as [|[k d] l IH]; intros m0 Hnd; [done|].
  apply NoDup_cons in Hnd as [Hk Hnd]. rewrite shaped_cons.
  assert (k ≠ f → is_indexed ((k, d) :: l) f = is_indexed l f) as Hne.
  { intros Hkf. unfold is_indexed, schema_get. simpl.
    by destruct (String.eqb_spec k f). }
  assert (is_indexed ((k, d) :: l) k = truthy (index d)) as Heq.
  { unfold is_indexed, schema_get. simpl. by rewrite String.eqb_refl. }
  assert (is_indexed l k = false) as Hfresh.
  { unfold is_indexed. destruct (schema_get l k) as [d'|] eqn:Hget; [|done].
    exfalso. apply Hk. apply schema_get_elem. by eexists. }
  destruct (truthy (index d)) eqn:Hd; simpl; rewrite IH by done.
  - destruct (decide (k = f)) as [->|Hkf].
    + by rewrite Heq, Hfresh, lookup_insert_eq.
    + by rewrite (Hne Hkf), lookup_insert_ne.
  - destruct (decide (k = f)) as [->|Hkf].
    + by rewrite Heq, Hfresh.
    + by rewrite (Hne Hkf).
Qed.

Lemma buildMeta_lookup E f :
  ∃ stored,
    CollectionMeta.indexes (Collection.buildMeta sch (shaped sch E))
    = Some stored
    ∧ stored !! f = if is_indexed sch f then Some (E f) else None.
Proof using Hnodup.
  eexists. split; [done|]. by rewrite (serialized_lookup E f sch ∅ Hnodup).
Qed.
End Shapes.

(** ** One successful call *)

Section Runs.
Context `{JsNumber}.


Lemma updated_data w d ixs n :
  current_data (updated w d ixs n)
  = if Collection.fileMode (Collection.this w) then json_record <$> d else d.
Proof.
  unfold updated, current_data.
  destruct (Collection.fileMode (Collection.this w)) eqn:Hf; simpl; rewrite Hf;
    [|done].
  unfold FileAdapter.readData. simpl. by rewrite lookup_insert_eq.
Qed.

Lemma written_disk_entries w d E n f :
  NoDup (Collection.schema (Collection.this w)).*1 →
  disk_entries (written w d (shaped (Collection.schema (Collection.this w)) E) n) f
  = if is_indexed (Collection.schema (Collection.this w)) f
    then json_entry <$> E f else [].
Proof.
  intros Hnd. unfold disk_entries, written, FileAdapter.readMeta. simpl.
  rewrite lookup_insert_eq. simpl.
  unfold json_indexes. rewrite lookup_fmap.
  rewrite (serialized_lookup E f _ ∅ Hnd).
  by destruct (is_indexed _ f).
Qed.

Lemma updated_indexes w d E n :
  NoDup (Collection.schema (Collection.this w)).*1 →
  current_indexes
    (updated w d (shaped (Collection.schema (Collection.this w)) E) n)
  = shaped (Collection.schema (Collection.this w))
      (λ f, if Collection.fileMode (Collection.this w)
            then json_entry <$> E f else E f).
Proof.
  intros Hnd. unfold updated.
  destruct (Collection.fileMode (Collection.this w)) eqn:Hf.
  - rewrite (loaded_shaped (Collection.schema (Collection.this w)) Hnd)
      by done.
    apply shaped_ext; [done|]. intros f Hi.
    by rewrite written_disk_entries, Hi.
  - unfold current_indexes. simpl. by rewrite Hf.
Qed.

Lemma writeData_run d w :
  Collection.writeData d w
  = (Ok (), {| Collection.this := Collection.this w;
               Collection.storage :=
                 FileAdapter.writeData (Collection.storage w)
                   (Collection.name (Collection.this w)) d;
               Collection.uuids := Collection.uuids w;
               Collection.issued := Collection.issued w |}).
Proof. done. Qed.

Lemma storage_writeMeta_run meta w :
  Collection.storage_writeMeta meta w
  = (Ok (), {| Collection.this := Collection.this w;
               Collection.storage :=
                 FileAdapter.writeMeta (Collection.storage w)
                   (Collection.name (Collection.this w)) meta;
               Collection.uuids := Collection.uuids w;
               Collection.issued := Collection.issued w |}).
Proof. done. Qed.

Lemma set_data_run d w :
  Collection.set_data d w
  = (Ok (), holding w d (Collection.indexes (Collection.this w))
              (Collection.issued w)).
Proof. done. Qed.

Lemma set_indexes_run ixs w :
  Collection.set_indexes ixs w
  = (Ok (), holding w (Collection.data (Collection.this w)) ixs
              (Collection.issued w)).
Proof. done. Qed.

Lemma current_indexes_frame w w' :
  Collection.this w' = Collection.this w →
  FileAdapter.metaFiles (Collection.storage w')
  = FileAdapter.metaFiles (Collection.storage w) →
  current_indexes w' = current_indexes w.
Proof.
  intros Ht Hm. unfold current_indexes, Collection.loadIndexesFromMeta.
  rewrite !bind_run, !self_run, !bind_run. simpl.
  unfold FileAdapter.readMeta. rewrite Ht, Hm.
  destruct (Collection.fileMode (Collection.this w)); [|done].
  by destruct (_ ≫= CollectionMeta.indexes).
Qed.

Lemma current_data_frame w w' :
  Collection.this w' = Collection.this w →
  FileAdapter.dataFiles (Collection.storage w')
  = FileAdapter.dataFiles (Collection.storage w) →
  current_data w' = current_data w.
Proof.
  intros Ht Hd. unfold current_data, FileAdapter.readData. by rewrite Ht, Hd.
Qed.

Lemma for_own_indexes_run body w :
  Collection.for_own_indexes body w
  = ((Collection.for_indexes body (Collection.indexes (Collection.this w))).1,
     holding w (Collection.data (Collection.this w))
       (Collection.for_indexes body (Collection.indexes (Collection.this w))).2
       (Collection.issued w)).
Proof.
  unfold Collection.for_own_indexes. rewrite bind_run, self_run.
  destruct (Collection.for_indexes _ _) as [r ixs].
  rewrite bind_run, set_indexes_run. by destruct r.
Qed.

Lemma for_loaded_indexes_run body ixs w :
  Collection.for_loaded_indexes body ixs w
  = (match (Collection.for_indexes body ixs).1 with
     | Ok _ => Ok (Collection.for_indexes body ixs).2
     | Throw e => Throw e
     end, w).
Proof.
  unfold Collection.for_loaded_indexes.
  destruct (Collection.for_indexes _ _) as [r ixs'].
  rewrite bind_run. unfold Collection.lift. by destruct r.
Qed.

(** [add] of a record that validates, when the indexing loop runs to its
    end. *)
Lemma add_run w record :
  let sch := Collection.schema (Collection.this w) in
  let i := Collection.uuids w (Collection.issued w) in
  let wd := Collection.applyDefaults sch record in
  let loop := Collection.for_indexes (Collection.index_record i wd)
                (current_indexes w) in
  valid_for_add sch record →
  loop.1 = Ok () →
  Collection.add record w
  = (Ok (Collection.toDocument i wd),
     updated w (<[i := wd]> (current_data w)) loop.2 (S (Collection.issued w))).
Proof.
  intros sch i wd loop Hv Hloop. unfold Collection.add.
  rewrite bind_run, self_run, bind_run. unfold Collection.lift at 1.
  fold sch. fold wd. unfold valid_for_add in Hv. fold wd in Hv. rewrite Hv.
  rewrite bind_run. cbn [Collection.generateId]. fold i.
  unfold updated.
  destruct (Collection.fileMode (Collection.this w)) eqn:Hf.
  - rewrite bind_run, bind_run, readData_run by done.
    rewrite (current_data_frame w) by done.
    rewrite bind_run, writeData_run, bind_run.
    rewrite loadIndexesFromMeta_run by done.
    rewrite (current_indexes_frame w) by done.
    rewrite bind_run, for_loaded_indexes_run. unfold loop in *. rewrite Hloop.
    by rewrite storage_writeMeta_run.
  - rewrite bind_run, bind_run, set_data_run, for_own_indexes_run.
    unfold loop, current_indexes, current_data in *. rewrite Hf in *.
    simpl. by rewrite Hloop.
Qed.
End Runs.

(** ** A batch and the same records one by one *)

Lemma world_eq (w w' : Collection.World) :
  Collection.this w' = Collection.this w →
  Collection.storage w' = Collection.storage w →
  Collection.uuids w' = Collection.uuids w →
  Collection.issued w' = Collection.issued w →
  w' = w.
Proof. destruct w, w'. simpl. by intros -> -> -> ->. Qed.


Lemma json_data_idem (d : gmap string (gmap string jsval)) :
  json_record <$> (json_record <$> d) = json_record <$> d.
Proof.
  rewrite <- map_fmap_compose. apply map_fmap_ext. intros k r _.
  apply json_record_idem.
Qed.

Lemma json_entries_idem (es : list IndexEntry) :
  json_entry <$> (json_entry <$> es) = json_entry <$> es.
Proof.
  rewrite <- list_fmap_compose. apply list_fmap_ext. intros ? e _.
  apply json_entry_idem.
Qed.

Lemma validateSchema_indexed (sch : Schema) f def :
  validateSchema sch = Ok () → (f, def) ∈ sch → truthy (index def) = true →
  type def ≠ TObject.
Proof.
  induction sch as [|[k d] sch IH]; simpl; [by intros _ ?%elem_of_nil|].
  intros Hv [[= <- <-]|Hin]%elem_of_cons Hd.
  - rewrite Hd in Hv. simpl in Hv. by case_bool_decide.
  - repeat (destruct (_ && _); [done|]). by apply IH.
Qed.

Lemma check_fields_typed record (fields : Schema) f def :
  check_fields record fields false = Ok () → (f, def) ∈ fields →
  type def ≠ TObject → typed (type def) (record_get record f).
Proof.
  induction fields as [|[k d] fields IH]; simpl; [by intros _ ?%elem_of_nil|].
  destruct (is_undefined (record_get record k)) eqn:Hu; [done|].
  destruct (check_type k (type d) (record_get record k)) eqn:Hc; [|done].
  simpl. intros Hrest [[= <- <-]|Hin]%elem_of_cons Hty; [|by apply IH].
  unfold typed, check_type in *.
  by destruct (type def), (record_get record f).
Qed.

Lemma valid_typed (sch : Schema) record f def :
  valid_for_add sch record → (f, def) ∈ sch → type def ≠ TObject →
  typed (type def) (record_get (Collection.applyDefaults sch record) f).
Proof.
  unfold valid_for_add, validateRecord. case_bool_decide; [|done].
  apply check_fields_typed.
Qed.

Section Batches.
Context `{JsNumber}.


Lemma validated_of_cons w record records :
  validated_of w (record :: records)
  = (Collection.uuids w (Collection.issued w),
     Collection.applyDefaults (Collection.schema (Collection.this w)) record)
    :: validated_of
         {| Collection.this := Collection.this w;
            Collection.storage := Collection.storage w;
            Collection.uuids := Collection.uuids w;
            Collection.issued := S (Collection.issued w) |} records.
Proof.
  unfold validated_of. simpl. rewrite Nat.add_0_r. do 2 f_equal.
  rewrite <- fmap_S_seq, <- list_fmap_compose.
  apply list_fmap_ext. intros ? k _. simpl. f_equal. lia.
Qed.


Lemma validate_all_ok records : ∀ w,
  Forall (valid_for_add (Collection.schema (Collection.this w))) records →
  Collection.validate_all records w
  = (Ok (validated_of w records),
     {| Collection.this := Collection.this w;
        Collection.storage := Collection.storage w;
        Collection.uuids := Collection.uuids w;
        Collection.issued := Collection.issued w + length records |}).
Proof.
  induction records as [|record records IH]; intros w Hall.
  { simpl. unfold validated_of. simpl. rewrite Nat.add_0_r. by destruct w. }
  inversion Hall as [|? ? Hv Hall']; subst.
  cbn [Collection.validate_all].
  rewrite bind_run, self_run, bind_run. unfold Collection.lift at 1.
  unfold valid_for_add in Hv. rewrite Hv.
  rewrite bind_run. cbn [Collection.generateId]. rewrite bind_run.
  rewrite IH by done. rewrite validated_of_cons. simpl.
  do 3 f_equal. lia.
Qed.


Lemma store_loaded_run validated : ∀ d ixs w,
  Collection.store_loaded validated d ixs w
  = (match index_all validated ixs with
     | Ok ixs' => Ok (store_all validated d, ixs', documents_of validated)
     | Throw e => Throw e
     end, w).
Proof.
  induction validated as [|[i raw] validated IH]; intros d ixs w; [done|].
  cbn [Collection.store_loaded index_all].
  rewrite bind_run, for_loaded_indexes_run.
  destruct (Collection.for_indexes _ ixs) as [[[]|e] ixs1]; simpl; [|done].
  rewrite bind_run, IH. by destruct (index_all validated ixs1).
Qed.

Lemma store_own_run validated : ∀ w ixs',
  index_all validated (Collection.indexes (Collection.this w)) = Ok ixs' →
  Collection.store_own validated w
  = (Ok (documents_of validated),
     holding w (store_all validated (Collection.data (Collection.this w)))
       ixs' (Collection.issued w)).
Proof.
  induction validated as [|[i raw] validated IH]; intros w ixs'.
  { simpl. intros [= <-]. by destruct w as [[] ? ? ?]. }
  cbn [Collection.store_own index_all].
  destruct (Collection.for_indexes _ _) as [[[]|e] ixs1] eqn:Hloop; simpl;
    [|done].
  intros Hrest.
  rewrite bind_run, self_run, bind_run, set_data_run, bind_run,
    for_own_indexes_run.
  simpl. rewrite Hloop. simpl. rewrite bind_run.
  by rewrite (IH _ ixs') by done.
Qed.

Lemma addMany_run w records ixs' :
  Forall (valid_for_add (Collection.schema (Collection.this w))) records →
  index_all (validated_of w records) (current_indexes w) = Ok ixs' →
  Collection.addMany records w
  = (Ok (documents_of (validated_of w records)),
     updated w (store_all (validated_of w records) (current_data w)) ixs'
       (Collection.issued w + length records)).
Proof.
  intros Hall Hix. unfold Collection.addMany.
  rewrite bind_run, validate_all_ok by done.
  rewrite bind_run, self_run. simpl. unfold updated.
  destruct (Collection.fileMode (Collection.this w)) eqn:Hf.
  - rewrite bind_run, readData_run by done.
    rewrite (current_data_frame w) by done.
    rewrite bind_run, loadIndexesFromMeta_run by done.
    rewrite (current_indexes_frame w) by done.
    rewrite bind_run, store_loaded_run, Hix.
    by rewrite bind_run, writeData_run, bind_run, storage_writeMeta_run.
  - unfold current_indexes, current_data in *. rewrite Hf in *.
    by rewrite (store_own_run _ _ ixs').
Qed.


End Batches.

(** ** The state one record after the other leaves *)

Lemma updated_schema `{JsNumber} w d ixs n :
  Collection.schema (Collection.this (updated w d ixs n))
  = Collection.schema (Collection.this w).
Proof. unfold updated. by destruct (Collection.fileMode _). Qed.



Lemma updated_uuids `{JsNumber} w d ixs n :
  Collection.uuids (updated w d ixs n) = Collection.uuids w.
Proof. unfold updated. by destruct (Collection.fileMode _). Qed.

Lemma updated_issued `{JsNumber} w d ixs n :
  Collection.issued (updated w d ixs n) = n.
Proof. unfold updated. by destruct (Collection.fileMode _). Qed.



Section OneByOne.
Context `{JsNumber}.
Variable sch : Schema.
Hypothesis Hnodup : NoDup sch.*1.
Hypothesis Hschema : validateSchema sch = Ok ().







End OneByOne.


Lemma fresh_users_disk_json : disk_json (fresh_users true).
Proof. split; [reflexivity|]. intros f. reflexivity. Qed.



(** ** A second instance over the same artifacts *)

Lemma schemasMatch_json (sch : Schema) :
  NoDup sch.*1 → Collection.schemasMatch sch (json_schema sch) = true.
Proof.
  intros Hnd.
  assert ((json_schema sch).*1 = sch.*1) as Hkeys.
  { unfold json_schema. rewrite <- list_fmap_compose.
    apply list_fmap_ext. by intros ? [k d] _. }
  apply schemasMatch_spec; [done|by rewrite Hkeys|].
  split; [by rewrite Hkeys|].
  intros k curr prev Hc Hp.
  assert (schema_get (json_schema sch) k = json_definition <$> schema_get sch k)
    as Hget.
  { unfold schema_get, json_schema. clear.
    induction sch as [|[k' d] l IH]; [done|]. simpl.
    by destruct (String.eqb k' k). }
  rewrite Hget, Hc in Hp. injection Hp as <-. done.
Qed.

Section SecondInstance.
Context `{JsNumber}.
Variable c : Collection.t.
Hypothesis Hfile : Collection.fileMode c = true.
Hypothesis Hnodup : NoDup (Collection.schema c).*1.

Lemma keeps_bind {A B} (m : Collection.M A) (f : A → Collection.M B) :
  keeps c m → (∀ a, keeps c (f a)) → keeps c (m ≫= f).
Proof.
  intros Hm Hf w Hw. rewrite bind_run. specialize (Hm w Hw).
  destruct (m w) as [[a|e] w']; [by apply Hf|done].
Qed.

Lemma keeps_self {B} (f : Collection.t → Collection.M B) :
  keeps c (f c) → keeps c (Collection.self ≫= f).
Proof.
  intros Hf w Hw. rewrite bind_run, self_run.
  destruct Hw as [Ht Hm]. rewrite Ht. by apply Hf.
Qed.

Lemma keeps_frame {A} (m : Collection.M A) :
  (∀ w, Collection.this (m w).2 = Collection.this w
        ∧ FileAdapter.metaFiles (Collection.storage (m w).2)
          = FileAdapter.metaFiles (Collection.storage w)) →
  keeps c m.
Proof.
  intros Hfr w [Ht (meta & Hm & Hs)]. destruct (Hfr w) as [H1 H2].
  split; [congruence|]. exists meta. split; [|done].
  unfold FileAdapter.readMeta in *. by rewrite H2.
Qed.

Lemma keeps_ret {A} (a : A) : keeps c (mret a).
Proof. by apply keeps_frame. Qed.

Lemma keeps_lift {A} (r : result A) : keeps c (Collection.lift r).
Proof. by apply keeps_frame. Qed.

Lemma keeps_throw {A} e : keeps c (Collection.throw (A := A) e).
Proof. by apply keeps_frame. Qed.

Lemma keeps_generateId : keeps c Collection.generateId.
Proof. by apply keeps_frame. Qed.

Lemma keeps_readData : keeps c Collection.readData.
Proof. by apply keeps_frame. Qed.

Lemma keeps_writeData d : keeps c (Collection.writeData d).
Proof. by apply keeps_frame. Qed.

Lemma keeps_storage_writeData d : keeps c (Collection.storage_writeData d).
Proof. by apply keeps_frame. Qed.

Lemma keeps_loadIndexesFromMeta : keeps c Collection.loadIndexesFromMeta.
Proof.
  apply keeps_frame. intros w.
  by destruct (loadIndexesFromMeta_total w) as [ixs ->].
Qed.

Lemma keeps_for_loaded_indexes body ixs :
  keeps c (Collection.for_loaded_indexes body ixs).
Proof.
  apply keeps_frame. intros w. unfold Collection.for_loaded_indexes.
  by destruct (Collection.for_indexes body ixs) as [[[]|e] ixs'].
Qed.

Lemma keeps_writeMeta ixs :
  keeps c (Collection.storage_writeMeta
             (Collection.buildMeta (Collection.schema c) ixs)).
Proof using Hnodup.
  intros w [Ht _]. split; [by rewrite <- Ht|].
  eexists. split.
  - simpl. unfold FileAdapter.readMeta. simpl. rewrite Ht.
    apply lookup_insert_eq.
  - simpl. by apply schemasMatch_json.
Qed.

Lemma keeps_wipe : keeps c Collection.wipe.
Proof using Hnodup.
  unfold Collection.wipe. apply keeps_self.
  apply keeps_bind; [apply keeps_storage_writeData|intros _].
  apply keeps_writeMeta.
Qed.

Lemma keeps_validate_all records : keeps c (Collection.validate_all records).
Proof.
  induction records as [|record records IH]; [apply keeps_ret|].
  cbn [Collection.validate_all]. apply keeps_self.
  apply keeps_bind; [apply keeps_lift|intros _].
  apply keeps_bind; [apply keeps_generateId|intros i].
  apply keeps_bind; [apply IH|intros validated]. apply keeps_ret.
Qed.

Lemma keeps_store_loaded validated :
  ∀ d ixs, keeps c (Collection.store_loaded validated d ixs).
Proof.
  intros d ixs. apply keeps_frame. intros w. rewrite store_loaded_run.
  by destruct (index_all validated ixs).
Qed.

Lemma keeps_add record : keeps c (Collection.add record).
Proof using Hfile Hnodup.
  unfold Collection.add. apply keeps_self. rewrite Hfile. cbv zeta.
  apply keeps_bind; [apply keeps_lift|intros _].
  apply keeps_bind; [apply keeps_generateId|intros i].
  apply keeps_bind; [|intros _; apply keeps_ret].
  apply keeps_bind; [apply keeps_readData|intros d].
  apply keeps_bind; [apply keeps_writeData|intros _].
  apply keeps_bind; [apply keeps_loadIndexesFromMeta|intros ixs].
  apply keeps_bind; [apply keeps_for_loaded_indexes|intros ixs'].
  apply keeps_writeMeta.
Qed.

Lemma keeps_addMany records : keeps c (Collection.addMany records).
Proof using Hfile Hnodup.
  unfold Collection.addMany.
  apply keeps_bind; [apply keeps_validate_all|intros validated].
  apply keeps_self. rewrite Hfile.
  apply keeps_bind; [apply keeps_readData|intros d].
  apply keeps_bind; [apply keeps_loadIndexesFromMeta|intros ixs].
  apply keeps_bind; [apply keeps_store_loaded|intros [[d' ixs'] docs]].
  apply keeps_bind; [apply keeps_writeData|intros _].
  apply keeps_bind; [apply keeps_writeMeta|intros _]. apply keeps_ret.
Qed.

Lemma keeps_update i partial : keeps c (Collection.update i partial).
Proof using Hfile Hnodup.
  unfold Collection.update. apply keeps_self. rewrite Hfile.
  apply keeps_bind; [apply keeps_lift|intros _].
  apply keeps_bind; [apply keeps_readData|intros d].
  destruct (d !! i) as [existing|]; [|apply keeps_throw].
  apply keeps_bind; [apply keeps_loadIndexesFromMeta|intros ixs].
  apply keeps_bind; [apply keeps_for_loaded_indexes|intros ixs'].
  cbv zeta.
  apply keeps_bind; [apply keeps_writeData|intros _].
  apply keeps_bind; [apply keeps_writeMeta|intros _]. apply keeps_ret.
Qed.

Lemma keeps_remove i : keeps c (Collection.remove i).
Proof using Hfile Hnodup.
  unfold Collection.remove. apply keeps_self. rewrite Hfile.
  apply keeps_bind; [apply keeps_readData|intros d].
  destruct (d !! i) as [existing|]; [|apply keeps_throw].
  apply keeps_bind; [apply keeps_loadIndexesFromMeta|intros ixs].
  apply keeps_bind; [apply keeps_for_loaded_indexes|intros ixs'].
  apply keeps_bind; [apply keeps_writeData|intros _].
  apply keeps_writeMeta.
Qed.

Lemma keeps_clear : keeps c Collection.clear.
Proof using Hfile Hnodup.
  unfold Collection.clear. apply keeps_self. rewrite Hfile. apply keeps_wipe.
Qed.

Lemma keeps_mutate m : keeps c (mutate m).
Proof using Hfile Hnodup.
  destruct m; simpl.
  - apply keeps_bind; [apply keeps_add|intros _; apply keeps_ret].
  - apply keeps_bind; [apply keeps_addMany|intros _; apply keeps_ret].
  - apply keeps_bind; [apply keeps_update|intros _; apply keeps_ret].
  - apply keeps_remove.
  - apply keeps_clear.
Qed.

Lemma mutated_bound ms : ∀ w, bound c w → bound c (mutated ms w).
Proof using Hfile Hnodup.
  induction ms as [|m ms IH]; intros w Hw; [done|].
  simpl. apply IH. by apply keeps_mutate.
Qed.
End SecondInstance.

Lemma create_file_bound nm sch fs gen n :
  NoDup sch.*1 →
  bound {| Collection.name := nm; Collection.schema := sch;
           Collection.fileMode := true; Collection.data := ∅;
           Collection.indexes := [] |}
    (Collection.create nm sch true fs gen n).
Proof.
  intros Hnd. unfold Collection.create, Collection.initFileMode.
  rewrite bind_run, self_run, bind_run. simpl.
  destruct (FileAdapter.readMeta fs nm) as [meta|] eqn:Hmeta.
  - destruct (Collection.schemasMatch sch (CollectionMeta.schema meta)) eqn:Hm.
    + simpl. split; [done|]. by exists meta.
    + simpl. split; [done|]. eexists. split.
      * unfold FileAdapter.readMeta. simpl. apply lookup_insert_eq.
      * simpl. by apply schemasMatch_json.
  - split; [done|]. eexists. split.
    + unfold FileAdapter.readMeta. simpl. apply lookup_insert_eq.
    + simpl. by apply schemasMatch_json.
Qed.




(** The second instance of that run finds the record updated by the first. *)
Example second_instance_finds :
  let A := mutated (H := decimal_Number)
             [DoAdd (user "Josef" 30 "male");
              DoAddMany [user "Josefina" 25 "female"; user "Karel" 41 "male"];
              DoUpdate "id0" {["age" := VNum 31]};
              DoRemove "id2"]
             (fresh_users true) in
  let B := Collection.create "users" users_schema true (Collection.storage A)
             sample_uuid 0 in
  (Collection.find (H := decimal_Number) [("age", ">30")] B).1
  = Ok [Some (Collection.toDocument "id0" (user "Josef" 31 "male"))]
  ∧ (Collection.get "id2" B).1 = Ok None.
Proof. split; reflexivity. Qed.

(** ** Exact queries after an update *)

(** C1 at [add({name: "Josef", ...})] followed by
    [update(id, {name: undefined})]: the update passes the partial
    validation and leaves the index of [name] alone, while the stored record
    takes the undefined property over; [find({name: "josef"})] still returns
    the record, whose [name] is no longer that value.  After [remove(id)] the
    entry is still in the index, and the same query answers with the
    identifier of the record that is gone. *)
Theorem C1_update_to_undefined (file : bool) :
  let w1 := after (Collection.add (H := decimal_Number) (user "Josef" 30 "male"))
              (fresh_users file) in
  let w2 := after (Collection.update (H := decimal_Number) "id0"
                     {["name" := VUndefined]}) w1 in
  let w3 := after (Collection.remove (H := decimal_Number) "id0") w2 in
  (Collection.update (H := decimal_Number) "id0" {["name" := VUndefined]} w1).1
  = Ok (Collection.toDocument "id0"
          {["name" := VUndefined; "age" := VNum 30; "sex" := VStr "male"]})
  ∧ (λ record, record_get record "name") <$> current_data w2 !! "id0"
    = Some VUndefined
  ∧ (Collection.find (H := decimal_Number) [("name", "josef")] w2).1
    = Ok [materialize w2 "id0"]
  ∧ is_Some (materialize w2 "id0")
  ∧ (Collection.remove (H := decimal_Number) "id0" w2).1 = Ok ()
  ∧ current_data w3 = ∅
  ∧ Index.entries <$> Map_get "name" (current_indexes w3)
    = Some [{| value := VStr "josef"; id := "id0" |}]
  ∧ (Collection.find (H := decimal_Number) [("name", "josef")] w3).1
    = Ok [materialize w3 "id0"].
Proof. destruct file; repeat split; try reflexivity; by eexists. Qed.

(** * More of the index *)

(** ** The lower bound *)

Section IndexCalls.
Context `{JsNumber}.
Variable ft : FieldType.

Lemma filter_all_length {A} (p : A → bool) (l : list A) :
  Forall (λ x, p x = true) l → length (List.filter p l) = length l.
Proof. intros Hall. by rewrite (filter_all p l Hall). Qed.

(** X1: on ascending entries of the field's type, [lowerBound] returns the
    position of the first entry whose value is not less than the target:
    exactly the entries before that position are less than the target, and
    the position is the number of such entries. *)
Theorem X1_lowerBound_first_not_less idx target :
  searchable ft idx → typed ft target →
  ∃ n, Index.lowerBound idx target = Ok n
       ∧ n ≤ Index.size idx
       ∧ (∀ k e, Index.entries idx !! k = Some e →
                 (k < n ↔ js_lt (value e) target = true))
       ∧ n = length (List.filter (λ e, js_lt (value e) target)
                       (Index.entries idx)).
Proof.
  intros (Hs & Ht & Hsm) Htg.
  destruct (lowerBound_spec ft idx target Hs Ht Htg Hsm)
    as (n & Hn & Hle & Hb & Hnb).
  exists n. split; [done|]. split; [done|]. split.
  - intros k e Hk. split.
    + intros Hlt. eapply Forall_forall in Hb; [exact Hb|].
      apply list_elem_of_lookup. exists k. by rewrite lookup_take_lt.
    + intros Hbelow. destruct (decide (k < n)) as [|Hge]; [done|].
      assert (e ∈ drop n (Index.entries idx)) as Hin.
      { apply list_elem_of_lookup. exists (k - n). rewrite lookup_drop.
        by replace (n + (k - n)) with k by lia. }
      eapply Forall_forall in Hnb; [|exact Hin].
      unfold not_below in Hnb. congruence.
  - rewrite <- (take_drop n (Index.entries idx)) at 1.
    rewrite List.filter_app, length_app.
    rewrite (filter_all_length _ (take n _)) by exact Hb.
    rewrite (filter_none _ (drop n (Index.entries idx))) by exact Hnb.
    rewrite length_take. simpl. lia.
Qed.

(** ** One insertion, one removal *)

Lemma holds_pair_eq i nv (e : IndexEntry) :
  typed ft nv → typed ft (value e) →
  has_value nv e && String.eqb (id e) i = true
  ↔ e = {| value := nv; id := i |}.
Proof.
  intros Hnv He. rewrite andb_true_iff, String.eqb_eq. unfold has_value.
  rewrite (strict_eq_typed ft) by done. destruct e as [v j]. simpl.
  split; [by intros [-> ->]|by intros [= -> ->]].
Qed.

Lemma remove_first_missing i nv l :
  entries_typed ft l → typed ft nv →
  {| value := nv; id := i |} ∉ l → remove_first i nv l = l.
Proof.
  intros Ht Hnv. induction Ht as [|e l He _ IH]; [done|].
  intros [Hne Hl]%not_elem_of_cons. simpl.
  destruct (has_value nv e && String.eqb (id e) i) eqn:Hpair.
  - apply holds_pair_eq in Hpair; [|done..]. by subst.
  - by rewrite IH.
Qed.

Lemma remove_first_present i nv l :
  entries_typed ft l → typed ft nv →
  {| value := nv; id := i |} ∈ l →
  l ≡ₚ {| value := nv; id := i |} :: remove_first i nv l.
Proof.
  intros Ht Hnv. induction Ht as [|e l He _ IH]; [by intros ?%elem_of_nil|].
  intros Hin. simpl.
  destruct (has_value nv e && String.eqb (id e) i) eqn:Hpair.
  - apply holds_pair_eq in Hpair; [|done..]. by subst.
  - apply elem_of_cons in Hin as [<-|Hin].
    + assert (has_value nv {| value := nv; id := i |}
              && String.eqb (id {| value := nv; id := i |}) i = true) as Hyes
        by (by apply holds_pair_eq).
      congruence.
    + rewrite (IH Hin) at 1. apply Permutation_swap.
Qed.

(** X2: [add] on ascending entries puts exactly one entry in, the pair of
    the normalized value and the identifier, and leaves the entries
    ascending; field, type and case-folding flag stay. *)
Theorem X2_add_inserts_one idx i v :
  searchable ft idx → typed ft v →
  ∃ idx', Index.add idx i v = Ok idx'
          ∧ sorted (Index.entries idx')
          ∧ entries_typed ft (Index.entries idx')
          ∧ Index.entries idx'
            ≡ₚ {| value := Index.normalize idx v; id := i |}
               :: Index.entries idx
          ∧ Index.size idx' = S (Index.size idx)
          ∧ idx' = Index.with_entries idx (Index.entries idx').
Proof.
  intros (Hs & Ht & Hsm) Hv.
  destruct (add_spec ft idx i v Hs Ht Hv Hsm) as (l & r & Hlr & Hl & Hr & Hadd).
  pose proof (normalize_typed ft idx v Hv) as Hnv.
  eexists. split; [exact Hadd|]. simpl. split; [|split; [|split; [|split]]].
  - apply (sorted_insert ft); rewrite <- ?Hlr; done.
  - rewrite Hlr in Ht. apply Forall_app in Ht as [Htl Htr].
    apply Forall_app. split; [done|]. by constructor.
  - rewrite Hlr. by rewrite Permutation_middle.
  - unfold Index.size. simpl. rewrite Hlr, !length_app. simpl. lia.
  - done.
Qed.

(** X3: [remove] on ascending entries takes out one entry for the pair of
    the normalized value and the identifier when there is one, the first of
    them, and nothing else; without such an entry the index stays as it
    is. *)
Theorem X3_remove_takes_one idx i v :
  searchable ft idx → typed ft v →
  let pair := {| value := Index.normalize idx v; id := i |} in
  ∃ idx', Index.remove idx i v = Ok idx'
          ∧ sorted (Index.entries idx')
          ∧ (pair ∈ Index.entries idx →
             Index.entries idx ≡ₚ pair :: Index.entries idx'
             ∧ S (Index.size idx') = Index.size idx)
          ∧ (pair ∉ Index.entries idx → idx' = idx).
Proof.
  intros (Hs & Ht & Hsm) Hv pair.
  pose proof (normalize_typed ft idx v Hv) as Hnv.
  eexists. split; [by apply (remove_spec ft)|]. simpl.
  split; [by apply remove_first_sorted|]. split.
  - intros Hin.
    pose proof (remove_first_present i _ _ Ht Hnv Hin) as Hperm.
    split; [done|]. unfold Index.size. simpl.
    apply Permutation_length in Hperm. simpl in Hperm. lia.
  - intros Hout. rewrite (remove_first_missing i _ _ Ht Hnv Hout).
    by destruct idx.
Qed.

(** X4: removing the pair just added gives the index back. *)
Theorem X4_add_then_remove idx i v idx1 :
  searchable ft idx → typed ft v →
  (Z.of_nat (S (Index.size idx)) < 2 ^ 31)%Z →
  Index.add idx i v = Ok idx1 →
  Index.remove idx1 i v = Ok idx.
Proof.
  intros (Hs & Ht & Hsm) Hv Hroom Hadd.
  destruct (add_spec ft idx i v Hs Ht Hv Hsm) as (l & r & Hlr & Hl & Hr & Hadd').
  rewrite Hadd in Hadd'. injection Hadd' as ->.
  pose proof (normalize_typed ft idx v Hv) as Hnv.
  assert (entries_typed ft l ∧ entries_typed ft r) as [Htl Htr].
  { rewrite Hlr in Ht. by apply Forall_app in Ht. }
  rewrite (remove_spec ft); simpl.
  - rewrite (remove_first_below ft i _ l _ Htl Hnv Hl). simpl.
    unfold has_value. simpl. rewrite (strict_eq_refl ft) by done.
    rewrite String.eqb_refl. simpl. rewrite <- Hlr. by destruct idx.
  - apply (sorted_insert ft); rewrite <- ?Hlr; done.
  - apply Forall_app. split; [done|]. by constructor.
  - done.
  - unfold small, Index.size in *. rewrite length_app. simpl.
    rewrite Hlr, length_app in Hroom. lia.
Qed.
End IndexCalls.

(** ** Queries on one index *)

Lemma ascii_compare_refl (a : ascii) : Stdlib.Strings.Ascii.compare a a = Eq.
Proof. unfold Stdlib.Strings.Ascii.compare. apply N.compare_refl. Qed.

Lemma prefix_cons a p b s :
  String.prefix (String a p) (String b s) = true ↔ a = b ∧ String.prefix p s = true.
Proof.
  simpl. destruct (ascii_dec a b) as [->|Hne]; [tauto|].
  split; [done|]. by intros [? _].
Qed.

(** A text is not less than its prefixes. *)
Lemma prefix_not_ltb p : ∀ s, String.prefix p s = true → String.ltb s p = false.
Proof.
  induction p as [|a p IH]; intros s; [by destruct s|].
  destruct s as [|b s]; [done|]. intros [-> Hp]%prefix_cons.
  specialize (IH s Hp). unfold String.ltb in *. simpl.
  by rewrite ascii_compare_refl.
Qed.

(** The texts with a given prefix are together in the order: a text that is
    not less than the prefix and does not start with it is above all of
    them. *)
Lemma prefix_gap p : ∀ s t,
  String.ltb s p = false → String.prefix p s = false →
  String.prefix p t = true → String.ltb t s = true.
Proof.
  induction p as [|a p IH]; intros s t Hsp Hps Hpt;
    [by rewrite prefix_empty in Hps|].
  destruct t as [|b t]; [done|]. apply prefix_cons in Hpt as [<- Hpt].
  destruct s as [|d s]; [done|].
  unfold String.ltb in *. simpl in Hsp |- *.
  rewrite (Stdlib.Strings.Ascii.compare_antisym a d).
  destruct (Stdlib.Strings.Ascii.compare d a) eqn:Hda; simpl in *; [|done..].
  apply Stdlib.Strings.Ascii.compare_eq_iff in Hda as ->.
  apply IH; [done| |done]. by destruct (ascii_dec a a).
Qed.

Lemma prefix_one a x r :
  String.prefix (String a "") (String x r) = if ascii_dec a x then true else false.
Proof.
  cbn [String.prefix]. destruct (ascii_dec a x); [apply prefix_empty|done].
Qed.

Lemma rev_app_snoc s c : ∀ acc,
  String.rev_app (s +:+ String c "") acc = String c (String.rev_app s acc).
Proof.
  induction s as [|d s IH]; intros acc; [done|].
  change (String d s +:+ String c "") with (String d (s +:+ String c "")).
  cbn [String.rev_app]. by rewrite IH.
Qed.

Lemma rev_app_head s :
  s ≠ "" → ∀ acc acc', ∃ x r r',
    String.rev_app s acc = String x r ∧ String.rev_app s acc' = String x r'.
Proof.
  induction s as [|d s IH]; [by intros Hs; contradict Hs|].
  intros _ acc acc'. cbn [String.rev_app].
  destruct s as [|d' s]; [|by apply IH].
  eexists _, _, _. split; reflexivity.
Qed.

Lemma endsWith_app_percent s : endsWith (s +:+ "%") "%" = true.
Proof.
  unfold endsWith, String.rev. rewrite rev_app_snoc. cbn [String.rev_app].
  rewrite prefix_one. by destruct (ascii_dec _ _).
Qed.

Lemma endsWith_cons c s :
  s ≠ "" → endsWith (String c s) "%" = endsWith s "%".
Proof.
  intros Hs. unfold endsWith, String.rev. cbn [String.rev_app].
  destruct (rev_app_head s Hs (String c "") "") as (x & r & r' & -> & ->).
  by rewrite !prefix_one.
Qed.

Lemma slice_to_last_app s : slice_to_last (s +:+ "%") = s.
Proof.
  induction s as [|c s IH]; [done|].
  change (String c s +:+ "%") with (String c (s +:+ "%")).
  destruct s as [|d s]; [done|].
  change (String d s +:+ "%") with (String d (s +:+ "%")) in *.
  simpl in *. by rewrite IH.
Qed.

Lemma length_app_percent s : 1 ≤ String.length (s +:+ "%").
Proof.
  destruct s as [|c s]; [done|].
  change (String c s +:+ "%") with (String c (s +:+ "%")). simpl. lia.
Qed.

Section IndexQueries.
Context `{JsNumber}.

Lemma string_entry (e : IndexEntry) :
  typed TString (value e) → ∃ s, value e = VStr s.
Proof. unfold typed. destruct (value e); try done. by eexists. Qed.

Lemma below_no_prefix p l :
  entries_typed TString l → Forall (below (VStr p)) l →
  List.filter (text_starts p) l = [].
Proof.
  intros Ht Hb. apply filter_none. apply Forall_forall. intros e He.
  eapply Forall_forall in Ht; [|exact He].
  eapply Forall_forall in Hb; [|exact He].
  destruct (string_entry e Ht) as [s Hs].
  unfold text_starts, startsWith, below, js_lt in *. rewrite Hs in *. simpl in *.
  destruct (String.prefix p s) eqn:Hp; [|done].
  apply prefix_not_ltb in Hp. congruence.
Qed.

Lemma prefix_run_filter p r :
  sorted r → entries_typed TString r → Forall (not_below (VStr p)) r →
  Index.prefix_run p r = id <$> List.filter (text_starts p) r.
Proof.
  intros Hs Ht Hnb. induction r as [|e r IH]; [done|].
  apply StronglySorted_cons in Hs as [Hall Hs].
  apply Forall_cons in Ht as [Hte Ht]. apply Forall_cons in Hnb as [Hnbe Hnb].
  simpl. fold (text_starts p e).
  destruct (text_starts p e) eqn:He; simpl; [by rewrite IH|].
  rewrite filter_none; [done|].
  apply Forall_forall. intros x Hx.
  eapply Forall_forall in Hall; [|exact Hx].
  eapply Forall_forall in Ht; [|exact Hx].
  destruct (string_entry e Hte) as [s Hse].
  destruct (string_entry x Ht) as [t Hst].
  unfold text_starts, startsWith, not_below, entry_le, js_le, js_lt in *.
  rewrite Hse, Hst in *. simpl in *.
  destruct (String.prefix p t) eqn:Hp; [|done].
  rewrite (prefix_gap p s t Hnbe He Hp) in Hall. done.
Qed.

Lemma prefixQuery_spec idx p :
  searchable TString idx →
  Index.prefixQuery idx p
  = Ok (id <$> List.filter (text_starts (Index.fold_query idx p))
                 (Index.entries idx)).
Proof.
  intros (Hs & Ht & Hsm). unfold Index.prefixQuery.
  destruct (lowerBound_spec TString idx (VStr (Index.fold_query idx p))
              Hs Ht eq_refl Hsm) as (n & -> & _ & Hb & Hnb).
  simpl. f_equal.
  rewrite <- (take_drop n (Index.entries idx)) at 2.
  rewrite List.filter_app, (below_no_prefix _ _ (Forall_take _ n _ Ht) Hb).
  simpl. apply prefix_run_filter; [|by apply Forall_drop|done].
  unfold sorted in *. rewrite <- (take_drop n (Index.entries idx)) in Hs.
  by apply StronglySorted_app_1_r in Hs.
Qed.

(** X5: a query without wildcard on an index with ascending entries
    answers with the identifiers of the entries that hold the queried value,
    in index order: the text itself (case-folded when the index folds) on a
    string field, the number [Number] reads on a number field, the truth
    value on a boolean field. *)
Theorem X5_find_exact idx :
  searchable (Index.fieldType idx) idx →
  let holding v := Ok (id <$> List.filter (has_value v) (Index.entries idx)) in
  (Index.fieldType idx = TString →
   ∀ q, startsWith q "%" = false → endsWith q "%" = false →
        Index.find idx q = holding (VStr (Index.fold_query idx q)))
  ∧ (Index.fieldType idx = TNumber →
     ∀ q n, rangeMatch q = None → Number q = Some n →
            Index.find idx q = holding (VNum n))
  ∧ (Index.fieldType idx = TBoolean →
     Index.find idx "true" = holding (VBool true)
     ∧ Index.find idx "false" = holding (VBool false)).
Proof.
  intros (Hs & Ht & Hsm) holding. unfold holding. split; [|split].
  - intros Hft q Hstart Hend. unfold Index.find. rewrite Hft, Hstart, Hend.
    simpl. rewrite Hft in Ht. by apply (exactQuery_spec TString).
  - intros Hft q n Hrange Hnum. unfold Index.find.
    rewrite Hft, Hrange, Hnum. rewrite Hft in Ht.
    by apply (exactQuery_spec TNumber).
  - intros Hft. unfold Index.find. rewrite Hft. simpl. rewrite Hft in Ht.
    split; by apply (exactQuery_spec TBoolean).
Qed.

(** X6: on a string index with ascending entries, a text followed by [%]
    (the text empty or not starting with [%]) answers with the identifiers of
    exactly the entries whose value starts with the text, case-folded when
    the index folds, in index order. *)
Theorem X6_find_prefix idx p :
  Index.fieldType idx = TString → searchable TString idx →
  p = "" ∨ startsWith p "%" = false →
  Index.find idx (p +:+ "%")
  = Ok (id <$> List.filter (text_starts (Index.fold_query idx p))
                 (Index.entries idx)).
Proof.
  intros Hft Hidx Hp. unfold Index.find. rewrite Hft. cbv zeta.
  rewrite endsWith_app_percent, slice_to_last_app, andb_true_r.
  assert ((startsWith (p +:+ "%") "%" && (1 <? String.length (p +:+ "%")))
          = false) as ->.
  { destruct Hp as [->|Hp]; [done|]. destruct p as [|c p]; [done|].
    change (String c p +:+ "%") with (String c (p +:+ "%")).
    unfold startsWith in *. rewrite prefix_one in *.
    by destruct (ascii_dec _ c). }
  by apply prefixQuery_spec.
Qed.

(** X7: on a string index, [%] followed by a text that does not end with
    [%] answers with the identifiers of the entries whose value ends with the
    text, and a text between two [%] with those of the entries whose value
    contains it (every entry for [%%]), in index order and case-folded when
    the index folds. *)
Theorem X7_find_suffix_contains idx s :
  Index.fieldType idx = TString →
  (s ≠ "" → endsWith s "%" = false →
   Index.find idx ("%" +:+ s)
   = Ok (id <$> List.filter (text_ends (Index.fold_query idx s))
                  (Index.entries idx)))
  ∧ Index.find idx ("%" +:+ s +:+ "%")
    = Ok (id <$> List.filter (text_includes (Index.fold_query idx s))
                   (Index.entries idx))
  ∧ Index.find idx "%%" = Ok (id <$> Index.entries idx).
Proof.
  intros Hft. split; [|split].
  - intros Hs Hend. unfold Index.find. rewrite Hft. cbv zeta.
    change ("%" +:+ s) with (String "%" s).
    rewrite (endsWith_cons "%" s Hs), Hend. rewrite andb_false_r.
    cbn [andb]. unfold startsWith. rewrite prefix_one.
    by destruct (ascii_dec _ _).
  - unfold Index.find. rewrite Hft. cbv zeta.
    change ("%" +:+ s +:+ "%") with (String "%" (s +:+ "%")).
    assert (endsWith (String "%" (s +:+ "%")) "%" = true) as ->
      by apply (endsWith_app_percent (String "%" s)).
    assert (startsWith (String "%" (s +:+ "%")) "%" = true) as ->.
    { unfold startsWith. rewrite prefix_one. by destruct (ascii_dec _ _). }
    assert ((1 <? String.length (String "%" (s +:+ "%"))) = true) as ->.
    { apply Nat.ltb_lt. pose proof (length_app_percent s). simpl. lia. }
    cbn [andb]. unfold slice_inner. cbn [slice_from1].
    by rewrite slice_to_last_app.
  - unfold Index.find. rewrite Hft. cbv zeta.
    change (startsWith "%%" "%" && endsWith "%%" "%"
            && (1 <? String.length "%%")) with true.
    cbv iota. change (slice_inner "%%") with "".
    unfold Index.containsQuery. do 2 f_equal.
    assert (Index.fold_query idx "" = "") as ->
      by (unfold Index.fold_query; by destruct (Index.ignoreCase idx)).
    apply filter_all. apply Forall_forall. intros e _.
    by destruct (js_String (value e)).
Qed.
End IndexQueries.

(** ** The calls on two small indexes *)

Lemma sample_ages_searchable :
  searchable (H := decimal_Number) TNumber sample_ages.
Proof.
  split; [|split]; [repeat constructor..|]. unfold small. simpl. lia.
Qed.

Lemma sample_names_searchable :
  searchable (H := decimal_Number) TString sample_names.
Proof.
  split; [|split]; [repeat constructor..|]. unfold small. simpl. lia.
Qed.

Lemma X1_witness :
  ∃ n, Index.lowerBound (H := decimal_Number) sample_ages (VNum 30) = Ok n
       ∧ n ≤ Index.size sample_ages
       ∧ (∀ k e, Index.entries sample_ages !! k = Some e →
                 (k < n ↔ js_lt (H := decimal_Number) (value e) (VNum 30) = true))
       ∧ n = length (List.filter
                       (λ e, js_lt (H := decimal_Number) (value e) (VNum 30))
                       (Index.entries sample_ages)).
Proof.
  apply (X1_lowerBound_first_not_less (H := decimal_Number) TNumber).
  - exact sample_ages_searchable.
  - reflexivity.
Defined.

Lemma X2_witness :
  ∃ idx', Index.add (H := decimal_Number) sample_ages "id4" (VNum 27) = Ok idx'
          ∧ sorted (H := decimal_Number) (Index.entries idx')
          ∧ entries_typed TNumber (Index.entries idx')
          ∧ Index.entries idx'
            ≡ₚ {| value := Index.normalize sample_ages (VNum 27); id := "id4" |}
               :: Index.entries sample_ages
          ∧ Index.size idx' = S (Index.size sample_ages)
          ∧ idx' = Index.with_entries sample_ages (Index.entries idx').
Proof.
  apply (X2_add_inserts_one (H := decimal_Number) TNumber).
  - exact sample_ages_searchable.
  - reflexivity.
Defined.

Lemma X3_witness :
  ∃ idx', Index.remove (H := decimal_Number) sample_names "id1" (VStr "Josef")
          = Ok idx'
          ∧ sorted (H := decimal_Number) (Index.entries idx')
          ∧ ({| value := Index.normalize sample_names (VStr "Josef");
                id := "id1" |} ∈ Index.entries sample_names →
             Index.entries sample_names
             ≡ₚ {| value := Index.normalize sample_names (VStr "Josef");
                   id := "id1" |} :: Index.entries idx'
             ∧ S (Index.size idx') = Index.size sample_names)
          ∧ ({| value := Index.normalize sample_names (VStr "Josef");
                id := "id1" |} ∉ Index.entries sample_names →
             idx' = sample_names).
Proof.
  apply (X3_remove_takes_one (H := decimal_Number) TString).
  - exact sample_names_searchable.
  - reflexivity.
Defined.

Lemma X4_witness :
  Index.remove (H := decimal_Number)
    (Index.with_entries sample_ages
       [{| value := VNum 25; id := "id2" |};
        {| value := VNum 27; id := "id4" |};
        {| value := VNum 30; id := "id3" |};
        {| value := VNum 30; id := "id1" |}])
    "id4" (VNum 27)
  = Ok sample_ages.
Proof.
  apply (X4_add_then_remove (H := decimal_Number) TNumber sample_ages).
  - exact sample_ages_searchable.
  - reflexivity.
  - unfold Index.size. simpl. lia.
  - reflexivity.
Defined.

Lemma X5_witness :
  (Index.fieldType sample_names = TString →
   ∀ q, startsWith q "%" = false → endsWith q "%" = false →
        Index.find (H := decimal_Number) sample_names q
        = Ok (id <$> List.filter
                       (has_value (VStr (Index.fold_query sample_names q)))
                       (Index.entries sample_names)))
  ∧ (Index.fieldType sample_names = TNumber →
     ∀ q n, rangeMatch q = None → Number (JsNumber := decimal_Number) q = Some n →
            Index.find (H := decimal_Number) sample_names q
            = Ok (id <$> List.filter (has_value (VNum n))
                           (Index.entries sample_names)))
  ∧ (Index.fieldType sample_names = TBoolean →
     Index.find (H := decimal_Number) sample_names "true"
     = Ok (id <$> List.filter (has_value (VBool true))
                    (Index.entries sample_names))
     ∧ Index.find (H := decimal_Number) sample_names "false"
       = Ok (id <$> List.filter (has_value (VBool false))
                      (Index.entries sample_names))).
Proof.
  apply (X5_find_exact (H := decimal_Number) sample_names).
  exact sample_names_searchable.
Defined.

Lemma X6_witness :
  Index.find (H := decimal_Number) sample_names ("Jos" +:+ "%")
  = Ok (id <$> List.filter (text_starts (Index.fold_query sample_names "Jos"))
                 (Index.entries sample_names)).
Proof.
  apply (X6_find_prefix (H := decimal_Number) sample_names "Jos").
  - reflexivity.
  - exact sample_names_searchable.
  - by right.
Defined.

Lemma X7_witness :
  ("INA" ≠ "" → endsWith "INA" "%" = false →
   Index.find (H := decimal_Number) sample_names ("%" +:+ "INA")
   = Ok (id <$> List.filter (text_ends (Index.fold_query sample_names "INA"))
                  (Index.entries sample_names)))
  ∧ Index.find (H := decimal_Number) sample_names ("%" +:+ "INA" +:+ "%")
    = Ok (id <$> List.filter
                   (text_includes (Index.fold_query sample_names "INA"))
                   (Index.entries sample_names))
  ∧ Index.find (H := decimal_Number) sample_names "%%"
    = Ok (id <$> Index.entries sample_names).
Proof.
  apply (X7_find_suffix_contains (H := decimal_Number) sample_names "INA").
  reflexivity.
Defined.

(** * Validation *)

Lemma definition_ok_dec def :
  definition_ok def
  ↔ (truthy (index def) && bool_decide (type def = TObject) = false)
    ∧ (bool_decide (is_Some (indexSetting def)) && negb (truthy (index def))
       = false)
    ∧ (bool_decide (is_Some (indexSetting def))
       && negb (bool_decide (type def = TString)) = false).
Proof.
  unfold definition_ok.
  destruct (truthy (index def)); repeat case_bool_decide; simpl;
    intuition congruence.
Qed.

(** X8: [validateSchema] accepts a schema exactly when no field indexes an
    object and every index setting sits on an indexed string field; otherwise
    it throws for the first field, in schema order, that breaks this. *)
Theorem X8_validateSchema (sch : Schema) :
  (validateSchema sch = Ok () ↔ Forall (λ fd, definition_ok fd.2) sch)
  ∧ ∀ e, validateSchema sch = Throw e →
         ∃ l f def r, sch = l ++ (f, def) :: r
                      ∧ Forall (λ fd, definition_ok fd.2) l
                      ∧ ¬ definition_ok def
                      ∧ e = SchemaError f.
Proof.
  induction sch as [|[f def] sch [IHok IHerr]].
  { split; [by split|done]. }
  pose proof (definition_ok_dec def) as Hdec.
  cbn [validateSchema].
  destruct (truthy (index def) && bool_decide (type def = TObject)) eqn:H1;
    [|destruct (bool_decide (is_Some (indexSetting def))
                && negb (truthy (index def))) eqn:H2;
      [|destruct (bool_decide (is_Some (indexSetting def))
                  && negb (bool_decide (type def = TString))) eqn:H3]].
  1-3: split; [split; [done|]; intros [Hok _]%Forall_cons;
               apply Hdec in Hok; simpl in Hok; intuition congruence|];
       intros e [= <-]; exists [], f, def, sch;
       (split; [done|]); (split; [constructor|]);
       (split; [|done]); rewrite Hdec; intuition congruence.
  assert (definition_ok def) as Hok by (by apply Hdec).
  split.
  - rewrite IHok, Forall_cons. simpl. tauto.
  - intros e He. destruct (IHerr e He) as (l & f' & def' & r & -> & Hl & Hbad & ->).
    exists ((f, def) :: l), f', def', r.
    split; [done|]. split; [by constructor|]. done.
Qed.

Lemma nested_free props :
  existsb (λ kv : string * jsval, is_nested kv.2) props = false
  ↔ Forall (λ kv, is_nested kv.2 = false) props.
Proof.
  induction props as [|kv props IH]; simpl; [by split|].
  rewrite orb_false_iff, Forall_cons, IH. done.
Qed.

Lemma check_type_ok field ft v :
  check_type field ft v = Ok () ↔ value_ok ft v.
Proof.
  unfold check_type, value_ok.
  destruct ft, v as [| | |s|n|b|props|items]; try done.
  rewrite <- nested_free.
  by destruct (existsb _ props).
Qed.

Lemma check_fields_ok record (fields : Schema) isPartial :
  check_fields record fields isPartial = Ok ()
  ↔ ∀ f def, (f, def) ∈ fields →
             if is_undefined (record_get record f) then isPartial = true
             else value_ok (type def) (record_get record f).
Proof.
  induction fields as [|[k d] fields IH]; simpl.
  { split; [by intros _ ? ? ?%elem_of_nil|done]. }
  split.
  - intros Hrun f def [[= -> ->]|Hin]%elem_of_cons.
    + destruct (is_undefined (record_get record k)).
      * by destruct isPartial.
      * apply (check_type_ok k).
        by destruct (check_type k (type d) (record_get record k)) as [[]|].
    + apply IH; [|done].
      destruct (is_undefined (record_get record k)).
      * by destruct isPartial.
      * by destruct (check_type k (type d) (record_get record k)) as [[]|].
  - intros Hall.
    assert (check_fields record fields isPartial = Ok ()) as Hrest.
    { apply IH. intros f def Hin. apply Hall. by right. }
    specialize (Hall k d ltac:(by left)).
    destruct (is_undefined (record_get record k)).
    + by subst isPartial.
    + apply (check_type_ok k) in Hall. by rewrite Hall.
Qed.

(** X9: [validateRecord] accepts a record exactly when it has no property
    outside the schema and every field of the schema holds a value of its
    type; a field that is undefined is let through for an update (partial
    record) and refused for an insertion.  In particular what passes for an
    insertion passes for an update. *)
Theorem X9_validateRecord record (sch : Schema) isPartial :
  (validateRecord record sch isPartial = Ok ()
   ↔ (∀ k, is_Some (record !! k) → k ∈ sch.*1)
     ∧ ∀ f def, (f, def) ∈ sch →
                if is_undefined (record_get record f) then isPartial = true
                else value_ok (type def) (record_get record f))
  ∧ (validateRecord record sch false = Ok () →
     validateRecord record sch true = Ok ()).
Proof.
  assert (∀ p, validateRecord record sch p = Ok ()
               ↔ (∀ k, is_Some (record !! k) → k ∈ sch.*1)
                 ∧ ∀ f def, (f, def) ∈ sch →
                            if is_undefined (record_get record f) then p = true
                            else value_ok (type def) (record_get record f))
    as Hchar.
  { intros p. unfold validateRecord. case_bool_decide as Hdom.
    - rewrite check_fields_ok. split; [|tauto]. intros Hall. split; [|done].
      intros k Hk. apply elem_of_dom in Hk. apply Hdom in Hk.
      by apply elem_of_list_to_set in Hk.
    - split; [done|]. intros [Hkeys _]. exfalso. apply Hdom.
      intros k Hk. apply elem_of_dom in Hk. apply elem_of_list_to_set.
      by apply Hkeys. }
  split; [apply Hchar|].
  rewrite !Hchar. intros [Hkeys Hall]. split; [done|].
  intros f def Hin. specialize (Hall f def Hin).
  by destruct (is_undefined (record_get record f)).
Qed.

(** * Defaults *)

Lemma schema_get_cons (sch : Schema) k d f :
  schema_get ((k, d) :: sch) f
  = if String.eqb k f then Some d else schema_get sch f.
Proof. unfold schema_get. simpl. by destruct (String.eqb k f). Qed.

Lemma record_get_insert (r : gmap string jsval) k v f :
  record_get (<[k := v]> r) f = if String.eqb k f then v else record_get r f.
Proof.
  unfold record_get. destruct (String.eqb_spec k f) as [->|Hne].
  - by rewrite lookup_insert_eq.
  - by rewrite lookup_insert_ne.
Qed.

Lemma applyDefaults_cons k d (sch : Schema) record :
  Collection.applyDefaults ((k, d) :: sch) record
  = Collection.applyDefaults sch
      (if is_undefined (record_get record k) && negb (is_undefined (default d))
       then <[k := default_value d]> record else record).
Proof. done. Qed.

(** X10: [applyDefaults] gives a field of the schema its default exactly
    when the record leaves the field undefined and the schema has a default
    for it (a copy of it for an object field); every other property of the
    record is kept, and a record that defines every field comes back as it
    is. *)
Theorem X10_applyDefaults (sch : Schema) record :
  NoDup sch.*1 →
  (∀ f, record_get (Collection.applyDefaults sch record) f
        = match schema_get sch f with
          | Some def =>
              if is_undefined (record_get record f)
                 && negb (is_undefined (default def))
              then default_value def else record_get record f
          | None => record_get record f
          end)
  ∧ ((∀ f def, (f, def) ∈ sch → is_undefined (record_get record f) = false) →
     Collection.applyDefaults sch record = record).
Proof.
  intros Hnd. split.
  - revert record. induction sch as [|[k d] sch IH]; intros record f; [done|].
    apply NoDup_cons in Hnd as [Hk Hnd].
    rewrite applyDefaults_cons, (IH Hnd), schema_get_cons.
    destruct (String.eqb_spec k f) as [Heq|Hne].
    + subst f. assert (schema_get sch k = None) as ->.
      { destruct (schema_get sch k) eqn:Hget; [|done]. exfalso. apply Hk.
        apply schema_get_elem. simpl. by rewrite Hget. }
      destruct (is_undefined (record_get record k) && _); [|done].
      by rewrite record_get_insert, String.eqb_refl.
    + assert (record_get
                (if is_undefined (record_get record k)
                    && negb (is_undefined (default d))
                 then <[k := default_value d]> record else record) f
              = record_get record f) as ->; [|done].
      destruct (_ && _); [|done].
      rewrite record_get_insert. by destruct (String.eqb_spec k f).
  - clear Hnd. revert record.
    induction sch as [|[k d] sch IH]; intros record Hall; [done|].
    pose proof (Hall k d ltac:(by left)) as Hk.
    rewrite applyDefaults_cons, Hk. cbn [andb].
    apply IH. intros f def Hin. apply (Hall f def). by right.
Qed.

Lemma X10_witness :
  (∀ f, record_get (Collection.applyDefaults accounts_schema
                      {["name" := VStr "Josef"]}) f
        = match schema_get accounts_schema f with
          | Some def =>
              if is_undefined (record_get {["name" := VStr "Josef"]} f)
                 && negb (is_undefined (default def))
              then default_value def
              else record_get {["name" := VStr "Josef"]} f
          | None => record_get {["name" := VStr "Josef"]} f
          end)
  ∧ ((∀ f def, (f, def) ∈ accounts_schema →
               is_undefined (record_get {["name" := VStr "Josef"]} f) = false) →
     Collection.applyDefaults accounts_schema {["name" := VStr "Josef"]}
     = {["name" := VStr "Josef"]}).
Proof.
  apply (X10_applyDefaults accounts_schema {["name" := VStr "Josef"]}).
  by apply (bool_decide_unpack _).
Defined.

(** * The calls of a collection *)

Section Calls.
Context `{JsNumber}.

Lemma get_run i w :
  Collection.get i w
  = (Ok (Collection.toDocument i <$> current_data w !! i), w).
Proof.
  unfold Collection.get, current_data. rewrite bind_run, self_run.
  by destruct (Collection.fileMode (Collection.this w)).
Qed.

Lemma count_run w : Collection.count w = (Ok (size (current_data w)), w).
Proof.
  unfold Collection.count, current_data. rewrite bind_run, self_run.
  by destruct (Collection.fileMode (Collection.this w)).
Qed.

Lemma add_Ok_inv w record doc w' :
  Collection.add record w = (Ok doc, w') →
  valid_for_add (Collection.schema (Collection.this w)) record
  ∧ (Collection.for_indexes
       (Collection.index_record (Collection.uuids w (Collection.issued w))
          (Collection.applyDefaults (Collection.schema (Collection.this w))
             record))
       (current_indexes w)).1 = Ok ().
Proof.
  unfold Collection.add, valid_for_add.
  rewrite bind_run, self_run, bind_run. unfold Collection.lift at 1.
  destruct (validateRecord _ _ false) as [[]|e]; [|done].
  intros Hrun. split; [done|]. revert Hrun.
  rewrite bind_run. cbn [Collection.generateId].
  destruct (Collection.fileMode (Collection.this w)) eqn:Hf.
  - rewrite bind_run, bind_run, readData_run by done.
    rewrite bind_run, writeData_run, bind_run.
    rewrite loadIndexesFromMeta_run by done.
    rewrite (current_indexes_frame w) by done.
    rewrite bind_run, for_loaded_indexes_run.
    by destruct (Collection.for_indexes _ _).1 as [[]|].
  - rewrite bind_run, bind_run, set_data_run, for_own_indexes_run.
    unfold current_indexes. rewrite Hf. simpl.
    by destruct (Collection.for_indexes _ _).1 as [[]|].
Qed.

(** [update] of a stored record with a partial record that validates, when
    the indexing loop runs to its end. *)
Lemma update_run w i partial existing :
  let loop := Collection.for_indexes (Collection.reindex i existing partial)
                (current_indexes w) in
  validateRecord partial (Collection.schema (Collection.this w)) true = Ok () →
  current_data w !! i = Some existing →
  loop.1 = Ok () →
  Collection.update i partial w
  = (Ok (Collection.toDocument i (partial ∪ existing)),
     updated w (<[i := partial ∪ existing]> (current_data w)) loop.2
       (Collection.issued w)).
Proof.
  intros loop Hv Hi Hloop. unfold Collection.update.
  rewrite bind_run, self_run, bind_run. unfold Collection.lift at 1.
  rewrite Hv. unfold updated.
  destruct (Collection.fileMode (Collection.this w)) eqn:Hf.
  - rewrite bind_run, readData_run, Hi by done.
    rewrite bind_run, loadIndexesFromMeta_run by done.
    rewrite bind_run, for_loaded_indexes_run. unfold loop in *. rewrite Hloop.
    cbv zeta. rewrite bind_run, writeData_run, bind_run, storage_writeMeta_run.
    by destruct w.
  - unfold loop, current_indexes, current_data in *. rewrite Hf in *.
    rewrite Hi. rewrite bind_run, for_own_indexes_run, Hloop.
    cbv zeta. by rewrite bind_run, set_data_run.
Qed.

Lemma update_Ok_inv w i partial doc w' :
  Collection.update i partial w = (Ok doc, w') →
  validateRecord partial (Collection.schema (Collection.this w)) true = Ok ()
  ∧ ∃ existing,
      current_data w !! i = Some existing
      ∧ (Collection.for_indexes (Collection.reindex i existing partial)
           (current_indexes w)).1 = Ok ().
Proof.
  unfold Collection.update.
  rewrite bind_run, self_run, bind_run. unfold Collection.lift at 1.
  destruct (validateRecord _ _ true) as [[]|e]; [|done].
  intros Hrun. split; [done|]. revert Hrun.
  destruct (Collection.fileMode (Collection.this w)) eqn:Hf.
  - rewrite bind_run, readData_run by done.
    destruct (current_data w !! i) as [existing|]; [|done].
    rewrite bind_run, loadIndexesFromMeta_run by done.
    rewrite bind_run, for_loaded_indexes_run.
    destruct (Collection.for_indexes _ _).1 as [[]|] eqn:Hloop; [|done].
    intros _. by exists existing.
  - unfold current_indexes, current_data. rewrite Hf.
    destruct (Collection.data (Collection.this w) !! i) as [existing|];
      [|done].
    rewrite bind_run, for_own_indexes_run.
    destruct (Collection.for_indexes _ _).1 as [[]|] eqn:Hloop; [|done].
    intros _. by exists existing.
Qed.

(** [remove] of a stored record, when the loop over the indexes runs to its
    end. *)
Lemma remove_run w i existing :
  let loop := Collection.for_indexes (Collection.unindex i existing)
                (current_indexes w) in
  current_data w !! i = Some existing →
  loop.1 = Ok () →
  Collection.remove i w
  = (Ok (), updated w (delete i (current_data w)) loop.2 (Collection.issued w)).
Proof.
  intros loop Hi Hloop. unfold Collection.remove.
  rewrite bind_run, self_run. unfold updated.
  destruct (Collection.fileMode (Collection.this w)) eqn:Hf.
  - rewrite bind_run, readData_run, Hi by done.
    rewrite bind_run, loadIndexesFromMeta_run by done.
    rewrite bind_run, for_loaded_indexes_run. unfold loop in *. rewrite Hloop.
    rewrite bind_run, writeData_run, storage_writeMeta_run. by destruct w.
  - unfold loop, current_indexes, current_data in *. rewrite Hf in *.
    rewrite Hi. rewrite bind_run, for_own_indexes_run, Hloop.
    by rewrite set_data_run.
Qed.

Lemma remove_Ok_inv w i w' :
  Collection.remove i w = (Ok (), w') →
  ∃ existing,
    current_data w !! i = Some existing
    ∧ (Collection.for_indexes (Collection.unindex i existing)
         (current_indexes w)).1 = Ok ().
Proof.
  unfold Collection.remove. rewrite bind_run, self_run.
  destruct (Collection.fileMode (Collection.this w)) eqn:Hf.
  - rewrite bind_run, readData_run by done.
    destruct (current_data w !! i) as [existing|]; [|done].
    rewrite bind_run, loadIndexesFromMeta_run by done.
    rewrite bind_run, for_loaded_indexes_run.
    destruct (Collection.for_indexes _ _).1 as [[]|] eqn:Hloop; [|done].
    intros _. by exists existing.
  - unfold current_indexes, current_data. rewrite Hf.
    destruct (Collection.data (Collection.this w) !! i) as [existing|];
      [|done].
    rewrite bind_run, for_own_indexes_run.
    destruct (Collection.for_indexes _ _).1 as [[]|] eqn:Hloop; [|done].
    intros _. by exists existing.
Qed.

(** The records after a successful write-through or in-memory store. *)
Lemma updated_lookup w d ixs n j :
  current_data (updated w d ixs n) !! j = stored_form w <$> d !! j.
Proof.
  rewrite updated_data. unfold stored_form.
  destruct (Collection.fileMode (Collection.this w)).
  - by rewrite lookup_fmap.
  - by destruct (d !! j).
Qed.

Lemma stored_form_stable w j record :
  (Collection.fileMode (Collection.this w) = true → disk_json w) →
  current_data w !! j = Some record → stored_form w record = record.
Proof.
  intros Hdisk Hj. unfold stored_form.
  destruct (Collection.fileMode (Collection.this w)); [|done].
  destruct (Hdisk eq_refl) as [Hd _].
  rewrite <- Hd, lookup_fmap in Hj.
  destruct (current_data w !! j) as [r|]; [|done].
  injection Hj as <-. apply json_record_idem.
Qed.

Lemma get_others w d ixs n i :
  (Collection.fileMode (Collection.this w) = true → disk_json w) →
  (∀ j, j ≠ i → d !! j = current_data w !! j) →
  ∀ j, j ≠ i →
       (Collection.get j (updated w d ixs n)).1 = (Collection.get j w).1.
Proof.
  intros Hdisk Hd j Hj. rewrite !get_run. cbn [fst]. f_equal.
  rewrite updated_lookup, (Hd j Hj).
  destruct (current_data w !! j) as [r|] eqn:Hr; [|done].
  simpl. by rewrite (stored_form_stable w j r Hdisk Hr).
Qed.

(** X11: a successful [add] returns the record with its defaults under a
    fresh identifier; [get] of that identifier then returns the stored
    record (as the disk gives it back in file mode), every other identifier
    answers as before, and [count] has grown by one when the identifier was
    not in use. *)
Theorem X11_add_then_get w record doc w' :
  (Collection.fileMode (Collection.this w) = true → disk_json w) →
  Collection.add record w = (Ok doc, w') →
  let i := Collection.uuids w (Collection.issued w) in
  let withDefaults :=
    Collection.applyDefaults (Collection.schema (Collection.this w)) record in
  doc = Collection.toDocument i withDefaults
  ∧ validateRecord withDefaults (Collection.schema (Collection.this w)) false
    = Ok ()
  ∧ (Collection.get i w').1
    = Ok (Some (Collection.toDocument i (stored_form w withDefaults)))
  ∧ (∀ j, j ≠ i → (Collection.get j w').1 = (Collection.get j w).1)
  ∧ (current_data w !! i = None →
     ∃ n, (Collection.count w).1 = Ok n
          ∧ (Collection.count w').1 = Ok (S n)).
Proof.
  intros Hdisk Hadd i withDefaults.
  destruct (add_Ok_inv w record doc w' Hadd) as [Hv Hloop].
  rewrite (add_run w record Hv Hloop) in Hadd. injection Hadd as <- <-.
  fold i withDefaults. split; [done|]. split; [done|]. split; [|split].
  - rewrite get_run. cbn [fst]. by rewrite updated_lookup, lookup_insert_eq.
  - apply get_others; [done|]. intros j Hj. by rewrite lookup_insert_ne.
  - intros Hfresh. eexists. rewrite !count_run. cbn [fst].
    split; [done|]. f_equal. rewrite updated_data.
    destruct (Collection.fileMode (Collection.this w));
      rewrite ?map_size_fmap; by apply map_size_insert_None.
Qed.

(** X12: [get], [all], [count] and [find] change neither the collection nor
    the disk; [all] lists exactly the documents [get] returns, once each, and
    [count] is their number; the empty query finds them all. *)
Theorem X12_reads w :
  (∀ i, (Collection.get i w).2 = w)
  ∧ (Collection.all w).2 = w
  ∧ (Collection.count w).2 = w
  ∧ (∀ q, (Collection.find q w).2 = w)
  ∧ ∃ docs, (Collection.all w).1 = Ok docs
            ∧ (Collection.count w).1 = Ok (length docs)
            ∧ (Collection.find [] w).1 = Ok (Some <$> docs)
            ∧ ∀ doc, doc ∈ docs
                     ↔ ∃ i, (Collection.get i w).1 = Ok (Some doc).
Proof.
  split; [by intros i; rewrite get_run|].
  split; [by rewrite all_run|].
  split; [by rewrite count_run|].
  split.
  { intros [|fq q].
    - unfold Collection.find. by rewrite bind_run, all_run.
    - rewrite find_run by done. done. }
  exists (all_documents w). rewrite all_run, count_run. cbn [fst].
  split; [done|]. split.
  { f_equal. unfold all_documents. by rewrite length_fmap, length_map_to_list. }
  split.
  { unfold Collection.find. by rewrite bind_run, all_run. }
  intros doc. unfold all_documents. rewrite list_elem_of_fmap. split.
  - intros ([i r] & -> & Hir). apply elem_of_map_to_list in Hir.
    exists i. rewrite get_run. cbn [fst]. by rewrite Hir.
  - intros [i Hi]. rewrite get_run in Hi. cbn [fst] in Hi.
    destruct (current_data w !! i) as [r|] eqn:Hr; [|done].
    injection Hi as <-. exists (i, r). split; [done|].
    by apply elem_of_map_to_list.
Qed.

(** X13: a successful [update] has found the record, merges the partial
    record over it (the properties of the partial record win, the others
    stay), returns and stores the merged record under the same identifier,
    and leaves every other record and the count as they were. *)
Theorem X13_update_merges w i partial doc w' :
  (Collection.fileMode (Collection.this w) = true → disk_json w) →
  Collection.update i partial w = (Ok doc, w') →
  ∃ existing,
    current_data w !! i = Some existing
    ∧ validateRecord partial (Collection.schema (Collection.this w)) true
      = Ok ()
    ∧ doc = Collection.toDocument i (partial ∪ existing)
    ∧ (∀ f v, partial !! f = Some v → (partial ∪ existing) !! f = Some v)
    ∧ (∀ f, partial !! f = None → (partial ∪ existing) !! f = existing !! f)
    ∧ (Collection.get i w').1
      = Ok (Some (Collection.toDocument i (stored_form w (partial ∪ existing))))
    ∧ (∀ j, j ≠ i → (Collection.get j w').1 = (Collection.get j w).1)
    ∧ (Collection.count w').1 = (Collection.count w).1.
Proof.
  intros Hdisk Hup.
  destruct (update_Ok_inv w i partial doc w' Hup)
    as (Hv & existing & Hi & Hloop).
  rewrite (update_run w i partial existing Hv Hi Hloop) in Hup.
  injection Hup as <- <-.
  exists existing. split; [done|]. split; [done|]. split; [done|].
  split; [by intros f v Hf; apply lookup_union_Some_l|].
  split; [by intros f Hf; apply lookup_union_r|].
  split; [|split].
  - rewrite get_run. cbn [fst]. by rewrite updated_lookup, lookup_insert_eq.
  - apply get_others; [done|]. intros j Hj. by rewrite lookup_insert_ne.
  - rewrite !count_run. cbn [fst]. f_equal. rewrite updated_data.
    assert (size (<[i := partial ∪ existing]> (current_data w))
            = size (current_data w)) as Hsize.
    { rewrite <- (insert_delete_eq (current_data w) i (partial ∪ existing)).
      rewrite map_size_insert_None by apply lookup_delete_eq.
      rewrite <- (insert_delete_id (current_data w) i existing Hi) at 2.
      by rewrite map_size_insert_None by apply lookup_delete_eq. }
    destruct (Collection.fileMode (Collection.this w));
      by rewrite ?map_size_fmap.
Qed.

(** X14: a successful [remove] has found the record; afterwards [get] of
    the identifier returns nothing, every other record is as it was, and the
    count has dropped by one. *)
Theorem X14_remove_drops w i w' :
  (Collection.fileMode (Collection.this w) = true → disk_json w) →
  Collection.remove i w = (Ok (), w') →
  is_Some (current_data w !! i)
  ∧ (Collection.get i w').1 = Ok None
  ∧ (∀ j, j ≠ i → (Collection.get j w').1 = (Collection.get j w).1)
  ∧ ∃ n, (Collection.count w').1 = Ok n
         ∧ (Collection.count w).1 = Ok (S n).
Proof.
  intros Hdisk Hrm.
  destruct (remove_Ok_inv w i w' Hrm) as (existing & Hi & Hloop).
  rewrite (remove_run w i existing Hi Hloop) in Hrm. injection Hrm as <-.
  split; [by eexists|]. split; [|split].
  - rewrite get_run. cbn [fst]. by rewrite updated_lookup, lookup_delete_eq.
  - apply get_others; [done|]. intros j Hj. by rewrite lookup_delete_ne.
  - eexists. rewrite !count_run. cbn [fst]. split; [done|]. f_equal.
    rewrite updated_data.
    rewrite <- (insert_delete_id (current_data w) i existing Hi) at 1.
    rewrite map_size_insert_None by apply lookup_delete_eq.
    destruct (Collection.fileMode (Collection.this w));
      by rewrite ?map_size_fmap.
Qed.
End Calls.

(** ** Emptying a collection *)

Lemma cleared_shaped (l : Schema) E : cleared (shaped l E) = shaped l (λ _, []).
Proof.
  induction l as [|[f d] l IH]; [done|]. rewrite !shaped_cons.
  destruct (truthy (index d)); [|done]. unfold cleared in *.
  rewrite fmap_cons. by rewrite IH.
Qed.

Lemma clear_run `{JsNumber} w :
  Collection.clear w
  = (Ok (),
     if Collection.fileMode (Collection.this w)
     then {| Collection.this := Collection.this w;
             Collection.storage :=
               wiped (Collection.storage w)
                 (Collection.name (Collection.this w))
                 (Collection.schema (Collection.this w));
             Collection.uuids := Collection.uuids w;
             Collection.issued := Collection.issued w |}
     else holding w ∅ (cleared (Collection.indexes (Collection.this w)))
            (Collection.issued w)).
Proof.
  unfold Collection.clear. rewrite bind_run, self_run.
  destruct (Collection.fileMode (Collection.this w)) eqn:Hf; [done|].
  by rewrite bind_run, set_data_run, set_indexes_run.
Qed.

(** X15: [clear] always succeeds and leaves no record ([get] finds
    nothing, [all] is empty, [count] is zero) and no index entry, while the
    collection keeps its name, its schema and an index for each of its indexed
    fields; in file mode it leaves the two artifacts exactly as the
    construction over a drifted schema does. *)
Theorem X15_clear `{JsNumber} w :
  let w' := after Collection.clear w in
  (Collection.clear w).1 = Ok ()
  ∧ (∀ i, (Collection.get i w').1 = Ok None)
  ∧ (Collection.all w').1 = Ok []
  ∧ (Collection.count w').1 = Ok 0
  ∧ Collection.name (Collection.this w') = Collection.name (Collection.this w)
  ∧ Collection.schema (Collection.this w')
    = Collection.schema (Collection.this w)
  ∧ Collection.fileMode (Collection.this w')
    = Collection.fileMode (Collection.this w)
  ∧ (NoDup (Collection.schema (Collection.this w)).*1 →
     current_indexes w' = cleared (current_indexes w))
  ∧ Forall (λ fi, Index.entries fi.2 = []) (cleared (current_indexes w))
  ∧ (Collection.fileMode (Collection.this w) = true →
     Collection.this w' = Collection.this w
     ∧ Collection.storage w'
       = wiped (Collection.storage w) (Collection.name (Collection.this w))
           (Collection.schema (Collection.this w))).
Proof.
  intros w'. unfold w', after. rewrite clear_run. cbn [fst snd].
  assert (current_data
            (if Collection.fileMode (Collection.this w)
             then {| Collection.this := Collection.this w;
                     Collection.storage :=
                       wiped (Collection.storage w)
                         (Collection.name (Collection.this w))
                         (Collection.schema (Collection.this w));
                     Collection.uuids := Collection.uuids w;
                     Collection.issued := Collection.issued w |}
             else holding w ∅ (cleared (Collection.indexes (Collection.this w)))
                    (Collection.issued w)) = ∅) as Hdata.
  { unfold current_data.
    destruct (Collection.fileMode (Collection.this w)) eqn:Hf; simpl;
      rewrite Hf; [|done].
    unfold FileAdapter.readData. simpl.
    by rewrite lookup_insert_eq, fmap_empty. }
  split; [done|].
  split; [by intros i; rewrite get_run, Hdata|].
  split; [by rewrite all_run; unfold all_documents; rewrite Hdata|].
  split; [by rewrite count_run, Hdata|].
  split; [by destruct (Collection.fileMode _)|].
  split; [by destruct (Collection.fileMode _)|].
  split; [by destruct (Collection.fileMode (Collection.this w)) eqn:Hf|].
  split; [|split].
  - intros Hnd. destruct (Collection.fileMode (Collection.this w)) eqn:Hf.
    + rewrite (loaded_shaped _ Hnd w eq_refl Hf), cleared_shaped.
      rewrite (loaded_shaped _ Hnd) by done.
      apply shaped_ext; [done|]. intros f _. unfold disk_entries.
      unfold FileAdapter.readMeta. simpl. by rewrite lookup_insert_eq.
    + unfold current_indexes. simpl. by rewrite Hf.
  - unfold cleared. apply Forall_fmap, Forall_forall. by intros [f idx] _.
  - by intros ->.
Qed.

(** * What a call leaves alone *)

Section Preserving.
Context `{JsNumber}.
Variable I : Collection.World → Prop.

Lemma preserves_bind {A B} (m : Collection.M A) (f : A → Collection.M B) :
  preserves I m → (∀ a, preserves I (f a)) → preserves I (m ≫= f).
Proof.
  intros Hm Hf w Hw. rewrite bind_run. specialize (Hm w Hw).
  destruct (m w) as [[a|e] w']; [by apply Hf|done].
Qed.

Lemma preserves_pure {A} (m : Collection.M A) :
  (∀ w, (m w).2 = w) → preserves I m.
Proof. intros Hm w Hw. by rewrite Hm. Qed.

Lemma preserves_self {B} (P : Collection.t → Prop)
    (f : Collection.t → Collection.M B) :
  (∀ w, I w → P (Collection.this w)) →
  (∀ c, P c → preserves I (f c)) → preserves I (Collection.self ≫= f).
Proof.
  intros HP Hf w Hw. rewrite bind_run, self_run. by apply (Hf _ (HP w Hw)).
Qed.

Lemma preserves_ret {A} (a : A) : preserves I (mret a).
Proof. by apply preserves_pure. Qed.

Lemma preserves_lift {A} (r : result A) : preserves I (Collection.lift r).
Proof. by apply preserves_pure. Qed.

Lemma preserves_throw {A} e : preserves I (Collection.throw (A := A) e).
Proof. by apply preserves_pure. Qed.

Lemma preserves_readData : preserves I Collection.readData.
Proof. by apply preserves_pure. Qed.

Lemma preserves_loadIndexesFromMeta :
  preserves I Collection.loadIndexesFromMeta.
Proof.
  apply preserves_pure. intros w.
  by destruct (loadIndexesFromMeta_total w) as [ixs ->].
Qed.

Lemma preserves_for_loaded_indexes body ixs :
  preserves I (Collection.for_loaded_indexes body ixs).
Proof.
  apply preserves_pure. intros w. by rewrite for_loaded_indexes_run.
Qed.

Lemma preserves_store_loaded validated d ixs :
  preserves I (Collection.store_loaded validated d ixs).
Proof. apply preserves_pure. intros w. by rewrite store_loaded_run. Qed.
End Preserving.

Lemma for_indexes_keys body ixs :
  (Collection.for_indexes body ixs).2.*1 = ixs.*1.
Proof.
  induction ixs as [|[f idx] ixs IH]; [done|]. simpl.
  destruct (body f idx) as [idx'|e]; [|done].
  destruct (Collection.for_indexes body ixs) as [r rest]. simpl in *.
  f_equal. exact IH.
Qed.

Lemma cleared_keys ixs : (cleared ixs).*1 = ixs.*1.
Proof.
  unfold cleared. rewrite <- list_fmap_compose. apply list_fmap_ext.
  by intros ? [f idx] _.
Qed.

(** ** Memory mode: the storage is not used *)

Section MemoryMode.
Context `{JsNumber}.
Variable sch : Schema.
Variable fs : FileAdapter.t.
Variable K : list string.

Abbreviation Im := (in_memory sch fs K).
Abbreviation Pm := (memory_object sch K).

Lemma in_memory_this w : Im w → Pm (Collection.this w).
Proof. intros (Hf & Hs & _ & Hk). by repeat split. Qed.

Lemma in_memory_generateId : preserves Im Collection.generateId.
Proof. by intros w (Hf & Hs & Hst & Hk). Qed.

Lemma in_memory_set_data d : preserves Im (Collection.set_data d).
Proof. by intros w (Hf & Hs & Hst & Hk). Qed.

Lemma in_memory_set_indexes ixs :
  ixs.*1 = K → preserves Im (Collection.set_indexes ixs).
Proof. by intros Hixs w (Hf & Hs & Hst & Hk). Qed.

Lemma in_memory_for_own_indexes body :
  preserves Im (Collection.for_own_indexes body).
Proof.
  intros w (Hf & Hs & Hst & Hk). rewrite for_own_indexes_run.
  repeat split; try done. simpl. by rewrite for_indexes_keys.
Qed.

Lemma in_memory_validate_all records :
  preserves Im (Collection.validate_all records).
Proof.
  induction records as [|record records IH]; [apply preserves_ret|].
  cbn [Collection.validate_all].
  apply (preserves_self Im Pm); [apply in_memory_this|intros c _].
  apply preserves_bind; [apply preserves_lift|intros _].
  apply preserves_bind; [apply in_memory_generateId|intros i].
  apply preserves_bind; [apply IH|intros validated]. apply preserves_ret.
Qed.

Lemma in_memory_store_own validated :
  preserves Im (Collection.store_own validated).
Proof.
  induction validated as [|[i raw] validated IH]; [apply preserves_ret|].
  cbn [Collection.store_own].
  apply (preserves_self Im Pm); [apply in_memory_this|intros c _].
  apply preserves_bind; [apply in_memory_set_data|intros _].
  apply preserves_bind; [apply in_memory_for_own_indexes|intros _].
  apply preserves_bind; [apply IH|intros docs]. apply preserves_ret.
Qed.

Lemma in_memory_add record : preserves Im (Collection.add record).
Proof.
  unfold Collection.add.
  apply (preserves_self Im Pm); [apply in_memory_this|intros c (Hf & _ & _)].
  rewrite Hf. cbv zeta.
  apply preserves_bind; [apply preserves_lift|intros _].
  apply preserves_bind; [apply in_memory_generateId|intros i].
  apply preserves_bind; [|intros _; apply preserves_ret].
  apply preserves_bind; [apply in_memory_set_data|intros _].
  apply in_memory_for_own_indexes.
Qed.

Lemma in_memory_addMany records : preserves Im (Collection.addMany records).
Proof.
  unfold Collection.addMany.
  apply preserves_bind; [apply in_memory_validate_all|intros validated].
  apply (preserves_self Im Pm); [apply in_memory_this|intros c (Hf & _ & _)].
  rewrite Hf. apply in_memory_store_own.
Qed.

Lemma in_memory_update i partial : preserves Im (Collection.update i partial).
Proof.
  unfold Collection.update.
  apply (preserves_self Im Pm); [apply in_memory_this|intros c (Hf & _ & _)].
  rewrite Hf.
  apply preserves_bind; [apply preserves_lift|intros _].
  destruct (Collection.data c !! i) as [existing|]; [|apply preserves_throw].
  cbv zeta.
  apply preserves_bind; [apply in_memory_for_own_indexes|intros _].
  apply preserves_bind; [apply in_memory_set_data|intros _].
  apply preserves_ret.
Qed.

Lemma in_memory_remove i : preserves Im (Collection.remove i).
Proof.
  unfold Collection.remove.
  apply (preserves_self Im Pm); [apply in_memory_this|intros c (Hf & _ & _)].
  rewrite Hf.
  destruct (Collection.data c !! i) as [existing|]; [|apply preserves_throw].
  apply preserves_bind; [apply in_memory_for_own_indexes|intros _].
  apply in_memory_set_data.
Qed.

Lemma in_memory_clear : preserves Im Collection.clear.
Proof.
  unfold Collection.clear.
  apply (preserves_self Im Pm); [apply in_memory_this|intros c (Hf & _ & Hk)].
  rewrite Hf.
  apply preserves_bind; [apply in_memory_set_data|intros _].
  apply in_memory_set_indexes. fold (cleared (Collection.indexes c)).
  by rewrite cleared_keys.
Qed.

Lemma in_memory_mutate m : preserves Im (mutate m).
Proof.
  destruct m; simpl.
  - apply preserves_bind; [apply in_memory_add|intros _; apply preserves_ret].
  - apply preserves_bind; [apply in_memory_addMany|intros _; apply preserves_ret].
  - apply preserves_bind; [apply in_memory_update|intros _; apply preserves_ret].
  - apply in_memory_remove.
  - apply in_memory_clear.
Qed.

Lemma in_memory_mutated ms : ∀ w, Im w → Im (mutated ms w).
Proof.
  induction ms as [|m ms IH]; intros w Hw; [done|].
  simpl. apply IH. by apply in_memory_mutate.
Qed.
End MemoryMode.

(** X16: a memory-mode collection never writes to the storage it was given:
    after any sequence of [add], [addMany], [update], [remove] and [clear]
    calls, returning or throwing, the storage is what it was, and the
    collection is still in memory mode with its schema and the same indexed
    fields. *)
Theorem X16_memory_mode_leaves_storage `{JsNumber} ms w :
  Collection.fileMode (Collection.this w) = false →
  let w' := mutated ms w in
  Collection.storage w' = Collection.storage w
  ∧ Collection.fileMode (Collection.this w') = false
  ∧ Collection.schema (Collection.this w')
    = Collection.schema (Collection.this w)
  ∧ (Collection.indexes (Collection.this w')).*1
    = (Collection.indexes (Collection.this w)).*1.
Proof.
  intros Hf w'.
  destruct (in_memory_mutated (Collection.schema (Collection.this w))
              (Collection.storage w)
              (Collection.indexes (Collection.this w)).*1 ms w)
    as (Hf' & Hs & Hst & Hk); [by repeat split|].
  by repeat split.
Qed.

Lemma X16_witness :
  let w' := mutated (H := decimal_Number)
              [DoAdd (user "Josef" 30 "male"); DoUpdate "id0" {["age" := VNum 31]};
               DoRemove "nobody"; DoClear]
              (fresh_users false) in
  Collection.storage w' = Collection.storage (fresh_users false)
  ∧ Collection.fileMode (Collection.this w') = false
  ∧ Collection.schema (Collection.this w')
    = Collection.schema (Collection.this (fresh_users false))
  ∧ (Collection.indexes (Collection.this w')).*1
    = (Collection.indexes (Collection.this (fresh_users false))).*1.
Proof.
  apply (X16_memory_mode_leaves_storage (H := decimal_Number)). reflexivity.
Defined.

(** ** File mode: the object holds nothing, other collections are not
       touched *)

Section FileMode.
Context `{JsNumber}.
Variable c : Collection.t.
Variable other : string.
Variable D : option (gmap string (gmap string jsval)).
Variable M : option CollectionMeta.t.
Hypothesis Hfile : Collection.fileMode c = true.
Hypothesis Hother : Collection.name c ≠ other.

Abbreviation Id := (on_disk c other D M).

Lemma on_disk_this w : Id w → Collection.this w = c.
Proof. by intros (Ht & _). Qed.

Lemma on_disk_generateId : preserves Id Collection.generateId.
Proof. by intros w (Ht & Hd & Hm). Qed.

Lemma on_disk_storage_writeData d :
  preserves Id (Collection.storage_writeData d).
Proof.
  intros w (Ht & Hd & Hm). repeat split; try done.
  simpl. unfold FileAdapter.readData in *. simpl.
  rewrite lookup_insert_ne; [done|]. by rewrite Ht.
Qed.

Lemma on_disk_writeData d : preserves Id (Collection.writeData d).
Proof. apply on_disk_storage_writeData. Qed.

Lemma on_disk_storage_writeMeta meta :
  preserves Id (Collection.storage_writeMeta meta).
Proof.
  intros w (Ht & Hd & Hm). repeat split; try done.
  simpl. unfold FileAdapter.readMeta in *. simpl.
  rewrite lookup_insert_ne; [done|]. by rewrite Ht.
Qed.

Lemma on_disk_wipe : preserves Id Collection.wipe.
Proof.
  unfold Collection.wipe.
  apply (preserves_self Id (λ c', c' = c)); [apply on_disk_this|intros ? ->].
  apply preserves_bind; [apply on_disk_storage_writeData|intros _].
  apply on_disk_storage_writeMeta.
Qed.

Lemma on_disk_validate_all records :
  preserves Id (Collection.validate_all records).
Proof.
  induction records as [|record records IH]; [apply preserves_ret|].
  cbn [Collection.validate_all].
  apply (preserves_self Id (λ c', c' = c)); [apply on_disk_this|intros ? ->].
  apply preserves_bind; [apply preserves_lift|intros _].
  apply preserves_bind; [apply on_disk_generateId|intros i].
  apply preserves_bind; [apply IH|intros validated]. apply preserves_ret.
Qed.

Lemma on_disk_add record : preserves Id (Collection.add record).
Proof using Hfile Hother.
  unfold Collection.add.
  apply (preserves_self Id (λ c', c' = c)); [apply on_disk_this|intros ? ->].
  rewrite Hfile. cbv zeta.
  apply preserves_bind; [apply preserves_lift|intros _].
  apply preserves_bind; [apply on_disk_generateId|intros i].
  apply preserves_bind; [|intros _; apply preserves_ret].
  apply preserves_bind; [apply preserves_readData|intros d].
  apply preserves_bind; [apply on_disk_writeData|intros _].
  apply preserves_bind; [apply preserves_loadIndexesFromMeta|intros ixs].
  apply preserves_bind; [apply preserves_for_loaded_indexes|intros ixs'].
  apply on_disk_storage_writeMeta.
Qed.

Lemma on_disk_addMany records : preserves Id (Collection.addMany records).
Proof using Hfile Hother.
  unfold Collection.addMany.
  apply preserves_bind; [apply on_disk_validate_all|intros validated].
  apply (preserves_self Id (λ c', c' = c)); [apply on_disk_this|intros ? ->].
  rewrite Hfile.
  apply preserves_bind; [apply preserves_readData|intros d].
  apply preserves_bind; [apply preserves_loadIndexesFromMeta|intros ixs].
  apply preserves_bind; [apply preserves_store_loaded|intros [[d' ixs'] docs]].
  apply preserves_bind; [apply on_disk_writeData|intros _].
  apply preserves_bind; [apply on_disk_storage_writeMeta|intros _].
  apply preserves_ret.
Qed.

Lemma on_disk_update i partial : preserves Id (Collection.update i partial).
Proof using Hfile Hother.
  unfold Collection.update.
  apply (preserves_self Id (λ c', c' = c)); [apply on_disk_this|intros ? ->].
  rewrite Hfile.
  apply preserves_bind; [apply preserves_lift|intros _].
  apply preserves_bind; [apply preserves_readData|intros d].
  destruct (d !! i) as [existing|]; [|apply preserves_throw].
  apply preserves_bind; [apply preserves_loadIndexesFromMeta|intros ixs].
  apply preserves_bind; [apply preserves_for_loaded_indexes|intros ixs'].
  cbv zeta.
  apply preserves_bind; [apply on_disk_writeData|intros _].
  apply preserves_bind; [apply on_disk_storage_writeMeta|intros _].
  apply preserves_ret.
Qed.

Lemma on_disk_remove i : preserves Id (Collection.remove i).
Proof using Hfile Hother.
  unfold Collection.remove.
  apply (preserves_self Id (λ c', c' = c)); [apply on_disk_this|intros ? ->].
  rewrite Hfile.
  apply preserves_bind; [apply preserves_readData|intros d].
  destruct (d !! i) as [existing|]; [|apply preserves_throw].
  apply preserves_bind; [apply preserves_loadIndexesFromMeta|intros ixs].
  apply preserves_bind; [apply preserves_for_loaded_indexes|intros ixs'].
  apply preserves_bind; [apply on_disk_writeData|intros _].
  apply on_disk_storage_writeMeta.
Qed.

Lemma on_disk_clear : preserves Id Collection.clear.
Proof using Hfile Hother.
  unfold Collection.clear.
  apply (preserves_self Id (λ c', c' = c)); [apply on_disk_this|intros ? ->].
  rewrite Hfile. apply on_disk_wipe.
Qed.

Lemma on_disk_mutate m : preserves Id (mutate m).
Proof using Hfile Hother.
  destruct m; simpl.
  - apply preserves_bind; [apply on_disk_add|intros _; apply preserves_ret].
  - apply preserves_bind; [apply on_disk_addMany|intros _; apply preserves_ret].
  - apply preserves_bind; [apply on_disk_update|intros _; apply preserves_ret].
  - apply on_disk_remove.
  - apply on_disk_clear.
Qed.

Lemma on_disk_mutated ms : ∀ w, Id w → Id (mutated ms w).
Proof using Hfile Hother.
  induction ms as [|m ms IH]; intros w Hw; [done|].
  simpl. apply IH. by apply on_disk_mutate.
Qed.

Lemma on_disk_create nm sch fs gen n :
  nm ≠ other →
  FileAdapter.readData (Collection.storage
                          (Collection.create nm sch true fs gen n)) other
  = FileAdapter.readData fs other
  ∧ FileAdapter.readMeta (Collection.storage
                            (Collection.create nm sch true fs gen n)) other
    = FileAdapter.readMeta fs other.
Proof.
  intros Hnm. unfold Collection.create, Collection.initFileMode.
  rewrite bind_run, self_run, bind_run. simpl.
  unfold FileAdapter.readData, FileAdapter.readMeta.
  destruct (FileAdapter.metaFiles fs !! nm) as [meta|];
    [destruct (Collection.schemasMatch sch (CollectionMeta.schema meta))|];
    simpl; by rewrite ?lookup_insert_ne.
Qed.
End FileMode.

(** X17: a file-mode collection keeps nothing in its object and writes only
    its own two artifacts: constructing it and any sequence of [add],
    [addMany], [update], [remove] and [clear] calls on it, returning or
    throwing, leave the data and the meta artifact of every other collection
    on the same storage as they were, and the collection object as it was
    constructed. *)
Theorem X17_file_mode_writes_own_artifacts `{JsNumber} nm sch fs gen n ms other :
  nm ≠ other →
  let w := mutated ms (Collection.create nm sch true fs gen n) in
  Collection.this w
  = {| Collection.name := nm; Collection.schema := sch;
       Collection.fileMode := true; Collection.data := ∅;
       Collection.indexes := [] |}
  ∧ FileAdapter.readData (Collection.storage w) other
    = FileAdapter.readData fs other
  ∧ FileAdapter.readMeta (Collection.storage w) other
    = FileAdapter.readMeta fs other.
Proof.
  intros Hnm w.
  destruct (on_disk_create other nm sch fs gen n Hnm) as [Hd Hm].
  apply (on_disk_mutated
           {| Collection.name := nm; Collection.schema := sch;
              Collection.fileMode := true; Collection.data := ∅;
              Collection.indexes := [] |} other
           (FileAdapter.readData fs other) (FileAdapter.readMeta fs other)
           eq_refl Hnm ms).
  split; [|done]. unfold Collection.create, Collection.initFileMode.
  rewrite bind_run, self_run, bind_run. simpl.
  destruct (FileAdapter.readMeta fs nm) as [meta|];
    [by destruct (Collection.schemasMatch sch (CollectionMeta.schema meta))
    |done].
Qed.

Lemma X17_witness :
  let w := mutated (H := decimal_Number)
             [DoAdd (user "Josef" 30 "male"); DoUpdate "id0" {["age" := VNum 31]};
              DoRemove "nobody"; DoClear]
             (Collection.create "users" users_schema true
                (Collection.storage
                   (Collection.create "accounts" accounts_schema true
                      FileAdapter.empty sample_uuid 0))
                sample_uuid 0) in
  Collection.this w
  = {| Collection.name := "users"; Collection.schema := users_schema;
       Collection.fileMode := true; Collection.data := ∅;
       Collection.indexes := [] |}
  ∧ FileAdapter.readData (Collection.storage w) "accounts"
    = FileAdapter.readData
        (Collection.storage
           (Collection.create "accounts" accounts_schema true
              FileAdapter.empty sample_uuid 0)) "accounts"
  ∧ FileAdapter.readMeta (Collection.storage w) "accounts"
    = FileAdapter.readMeta
        (Collection.storage
           (Collection.create "accounts" accounts_schema true
              FileAdapter.empty sample_uuid 0)) "accounts".
Proof.
  apply (X17_file_mode_writes_own_artifacts (H := decimal_Number)). done.
Defined.

(** ** The fields a collection can be searched by *)

Lemma shaped_keys (l : Schema) E : (shaped l E).*1 = indexed_fields l.
Proof.
  unfold indexed_fields. induction l as [|[f d] l IH]; [done|].
  rewrite shaped_cons. simpl. destruct (truthy (index d)); [|done].
  rewrite !fmap_cons. simpl. by rewrite IH.
Qed.

Lemma Map_get_is_Some {V} f (m : list (string * V)) :
  is_Some (Map_get f m) ↔ f ∈ m.*1.
Proof.
  unfold Map_get. induction m as [|[k v] m IH]; simpl.
  - split; [by intros [? ?]|by intros ?%elem_of_nil].
  - destruct (String.eqb_spec k f) as [->|Hne]; simpl.
    + split; [by left|by eexists].
    + rewrite IH, elem_of_cons. split; [by right|].
      intros [Heq|Hin]; [by subst|done].
Qed.

Lemma indexed_fields_elem (sch : Schema) f :
  NoDup sch.*1 → f ∈ indexed_fields sch ↔ is_indexed sch f = true.
Proof.
  intros Hnd. unfold indexed_fields. rewrite list_elem_of_fmap. split.
  - intros ([k d] & -> & [Hin Hd]%elem_of_List_filter). simpl in *.
    by apply (is_indexed_elem sch Hnd k d).
  - unfold is_indexed. destruct (schema_get sch f) as [d|] eqn:Hget; [|done].
    simpl. intros Hd. exists (f, d). split; [done|].
    apply elem_of_List_filter. split; [|done].
    unfold schema_get in Hget. clear -Hget.
    induction sch as [|[k d'] l IH]; simpl in *; [done|].
    destruct (String.eqb_spec k f) as [->|_].
    + injection Hget as ->. by left.
    + right. by apply IH.
Qed.

Lemma find_unindexed `{JsNumber} f q rest w :
  Map_get f (current_indexes w) = None →
  Collection.find ((f, q) :: rest) w = (Throw (FieldNotIndexed f), w).
Proof.
  intros Hnone. rewrite find_run by done. cbn [Collection.find_loop].
  by rewrite Hnone.
Qed.

(** X18: after the construction and any sequence of mutating calls, in
    either mode, the collection has an index for exactly the fields its
    schema marks with [index], in schema order; a query whose first field is
    any other field throws the not-indexed error for that field. *)
Theorem X18_indexed_fields `{JsNumber} nm sch file fs gen n ms :
  NoDup sch.*1 →
  let w := mutated ms (Collection.create nm sch file fs gen n) in
  (current_indexes w).*1 = indexed_fields sch
  ∧ (∀ f, is_Some (Map_get f (current_indexes w)) ↔ is_indexed sch f = true)
  ∧ (∀ f q rest, is_indexed sch f = false →
                 Collection.find ((f, q) :: rest) w
                 = (Throw (FieldNotIndexed f), w)).
Proof.
  intros Hnd w.
  assert ((current_indexes w).*1 = indexed_fields sch) as Hkeys.
  { destruct file.
    - set (c := {| Collection.name := nm; Collection.schema := sch;
                   Collection.fileMode := true; Collection.data := ∅;
                   Collection.indexes := [] |}).
      assert (bound c w) as [Ht _].
      { apply (mutated_bound c); [done..|]. by apply create_file_bound. }
      rewrite (loaded_shaped sch Hnd w) by (by rewrite Ht).
      apply shaped_keys.
    - destruct (in_memory_mutated sch fs (indexed_fields sch) ms
                  (Collection.create nm sch false fs gen n))
        as (Hf & _ & _ & Hk).
      { repeat split; try done. simpl.
        rewrite (buildIndexes_shaped sch Hnd). apply shaped_keys. }
      unfold current_indexes. fold w in Hf, Hk. by rewrite Hf. }
  assert (∀ f, is_Some (Map_get f (current_indexes w))
               ↔ is_indexed sch f = true) as Hget.
  { intros f. by rewrite Map_get_is_Some, Hkeys, indexed_fields_elem. }
  split; [done|]. split; [done|].
  intros f q rest Hf. apply find_unindexed.
  destruct (Map_get f (current_indexes w)) as [idx|] eqn:Hidx; [|done].
  assert (is_indexed sch f = true) as Hyes by (apply Hget; by eexists).
  congruence.
Qed.

Lemma X18_witness :
  let w := mutated (H := decimal_Number)
             [DoAdd (user "Josef" 30 "male"); DoClear]
             (Collection.create "users" users_schema false FileAdapter.empty
                sample_uuid 0) in
  (current_indexes w).*1 = indexed_fields users_schema
  ∧ (∀ f, is_Some (Map_get f (current_indexes w))
          ↔ is_indexed users_schema f = true)
  ∧ (∀ f q rest, is_indexed users_schema f = false →
                 Collection.find (H := decimal_Number) ((f, q) :: rest) w
                 = (Throw (FieldNotIndexed f), w)).
Proof.
  apply (X18_indexed_fields (H := decimal_Number)).
  by apply (bool_decide_unpack _).
Defined.

(** ** The calls on a small collection *)

Lemma X11_witness :
  let w := fresh_users true in
  let record := user "Josef" 30 "male" in
  let w' := after (Collection.add (H := decimal_Number) record) w in
  let i := Collection.uuids w (Collection.issued w) in
  let withDefaults :=
    Collection.applyDefaults (Collection.schema (Collection.this w)) record in
  Collection.toDocument "id0" record = Collection.toDocument i withDefaults
  ∧ validateRecord withDefaults (Collection.schema (Collection.this w)) false
    = Ok ()
  ∧ (Collection.get i w').1
    = Ok (Some (Collection.toDocument i (stored_form w withDefaults)))
  ∧ (∀ j, j ≠ i → (Collection.get j w').1 = (Collection.get j w).1)
  ∧ (current_data w !! i = None →
     ∃ n, (Collection.count w).1 = Ok n
          ∧ (Collection.count w').1 = Ok (S n)).
Proof.
  intros w record w'.
  apply (X11_add_then_get (H := decimal_Number) w record
           (Collection.toDocument "id0" record) w').
  - intros _. exact fresh_users_disk_json.
  - reflexivity.
Defined.

Lemma X13_witness :
  let w := after (Collection.add (H := decimal_Number) (user "Josef" 30 "male"))
             (fresh_users false) in
  let partial : gmap string jsval := {["age" := VNum 31]} in
  let w' := after (Collection.update (H := decimal_Number) "id0" partial) w in
  ∃ existing,
    current_data w !! "id0" = Some existing
    ∧ validateRecord partial (Collection.schema (Collection.this w)) true
      = Ok ()
    ∧ Collection.toDocument "id0" (user "Josef" 31 "male")
      = Collection.toDocument "id0" (partial ∪ existing)
    ∧ (∀ f v, partial !! f = Some v → (partial ∪ existing) !! f = Some v)
    ∧ (∀ f, partial !! f = None → (partial ∪ existing) !! f = existing !! f)
    ∧ (Collection.get "id0" w').1
      = Ok (Some (Collection.toDocument "id0"
                    (stored_form w (partial ∪ existing))))
    ∧ (∀ j, j ≠ "id0" → (Collection.get j w').1 = (Collection.get j w).1)
    ∧ (Collection.count w').1 = (Collection.count w).1.
Proof.
  intros w partial w'.
  apply (X13_update_merges (H := decimal_Number) w "id0" partial
           (Collection.toDocument "id0" (user "Josef" 31 "male")) w').
  - intros Hf. discriminate Hf.
  - reflexivity.
Defined.

Lemma X14_witness :
  let w := after (Collection.add (H := decimal_Number) (user "Josef" 30 "male"))
             (fresh_users false) in
  let w' := after (Collection.remove (H := decimal_Number) "id0") w in
  is_Some (current_data w !! "id0")
  ∧ (Collection.get "id0" w').1 = Ok None
  ∧ (∀ j, j ≠ "id0" → (Collection.get j w').1 = (Collection.get j w).1)
  ∧ ∃ n, (Collection.count w').1 = Ok n
         ∧ (Collection.count w).1 = Ok (S n).
Proof.
  intros w w'.
  apply (X14_remove_drops (H := decimal_Number) w "id0" w').
  - intros Hf. discriminate Hf.
  - reflexivity.
Defined.

(** ** File mode: the artifacts hold what [JSON.parse] gives back *)

Section JsonArtifacts.
Context `{JsNumber}.
Variable c : Collection.t.
Hypothesis Hfile : Collection.fileMode c = true.

Abbreviation Ij := (on_json c).

Lemma on_json_this w : Ij w → Collection.this w = c.
Proof. by intros [Ht _]. Qed.

Lemma on_json_generateId : preserves Ij Collection.generateId.
Proof. by intros w [Ht Hd]. Qed.

Lemma on_json_storage_writeData d :
  preserves Ij (Collection.storage_writeData d).
Proof using Hfile.
  intros w [Ht [Hd He]]. split; [done|]. split.
  - unfold current_data. simpl. rewrite Ht, Hfile.
    unfold FileAdapter.readData. simpl. rewrite lookup_insert_eq. simpl.
    apply json_data_idem.
  - intros f. exact (He f).
Qed.

Lemma on_json_writeData d : preserves Ij (Collection.writeData d).
Proof using Hfile. apply on_json_storage_writeData. Qed.

Lemma on_json_storage_writeMeta meta :
  preserves Ij (Collection.storage_writeMeta meta).
Proof using Hfile.
  intros w [Ht [Hd He]]. split; [done|]. split; [exact Hd|].
  intros f. unfold disk_entries. simpl.
  unfold FileAdapter.readMeta. simpl. rewrite lookup_insert_eq. simpl.
  destruct (CollectionMeta.indexes meta) as [stored|]; [|done]. simpl.
  unfold json_indexes. rewrite lookup_fmap.
  destruct (stored !! f) as [es|]; [|done]. simpl. apply json_entries_idem.
Qed.

Lemma on_json_wipe : preserves Ij Collection.wipe.
Proof using Hfile.
  unfold Collection.wipe.
  apply (preserves_self Ij (λ c', c' = c)); [apply on_json_this|intros ? ->].
  apply preserves_bind; [apply on_json_storage_writeData|intros _].
  apply on_json_storage_writeMeta.
Qed.

Lemma on_json_validate_all records :
  preserves Ij (Collection.validate_all records).
Proof.
  induction records as [|record records IH]; [apply preserves_ret|].
  cbn [Collection.validate_all].
  apply (preserves_self Ij (λ c', c' = c)); [apply on_json_this|intros ? ->].
  apply preserves_bind; [apply preserves_lift|intros _].
  apply preserves_bind; [apply on_json_generateId|intros i].
  apply preserves_bind; [apply IH|intros validated]. apply preserves_ret.
Qed.

Lemma on_json_mutate m : preserves Ij (mutate m).
Proof using Hfile.
  destruct m as [record|records|i partial|i|]; simpl.
  - apply preserves_bind; [|intros _; apply preserves_ret].
    unfold Collection.add.
    apply (preserves_self Ij (λ c', c' = c)); [apply on_json_this|intros ? ->].
    rewrite Hfile. cbv zeta.
    apply preserves_bind; [apply preserves_lift|intros _].
    apply preserves_bind; [apply on_json_generateId|intros j].
    apply preserves_bind; [|intros _; apply preserves_ret].
    apply preserves_bind; [apply preserves_readData|intros d].
    apply preserves_bind; [apply on_json_writeData|intros _].
    apply preserves_bind; [apply preserves_loadIndexesFromMeta|intros ixs].
    apply preserves_bind; [apply preserves_for_loaded_indexes|intros ixs'].
    apply on_json_storage_writeMeta.
  - apply preserves_bind; [|intros _; apply preserves_ret].
    unfold Collection.addMany.
    apply preserves_bind; [apply on_json_validate_all|intros validated].
    apply (preserves_self Ij (λ c', c' = c)); [apply on_json_this|intros ? ->].
    rewrite Hfile.
    apply preserves_bind; [apply preserves_readData|intros d].
    apply preserves_bind; [apply preserves_loadIndexesFromMeta|intros ixs].
    apply preserves_bind;
      [apply preserves_store_loaded|intros [[d' ixs'] docs]].
    apply preserves_bind; [apply on_json_writeData|intros _].
    apply preserves_bind; [apply on_json_storage_writeMeta|intros _].
    apply preserves_ret.
  - apply preserves_bind; [|intros _; apply preserves_ret].
    unfold Collection.update.
    apply (preserves_self Ij (λ c', c' = c)); [apply on_json_this|intros ? ->].
    rewrite Hfile.
    apply preserves_bind; [apply preserves_lift|intros _].
    apply preserves_bind; [apply preserves_readData|intros d].
    destruct (d !! i) as [existing|]; [|apply preserves_throw].
    apply preserves_bind; [apply preserves_loadIndexesFromMeta|intros ixs].
    apply preserves_bind; [apply preserves_for_loaded_indexes|intros ixs'].
    cbv zeta.
    apply preserves_bind; [apply on_json_writeData|intros _].
    apply preserves_bind; [apply on_json_storage_writeMeta|intros _].
    apply preserves_ret.
  - unfold Collection.remove.
    apply (preserves_self Ij (λ c', c' = c)); [apply on_json_this|intros ? ->].
    rewrite Hfile.
    apply preserves_bind; [apply preserves_readData|intros d].
    destruct (d !! i) as [existing|]; [|apply preserves_throw].
    apply preserves_bind; [apply preserves_loadIndexesFromMeta|intros ixs].
    apply preserves_bind; [apply preserves_for_loaded_indexes|intros ixs'].
    apply preserves_bind; [apply on_json_writeData|intros _].
    apply on_json_storage_writeMeta.
  - unfold Collection.clear.
    apply (preserves_self Ij (λ c', c' = c)); [apply on_json_this|intros ? ->].
    rewrite Hfile. apply on_json_wipe.
Qed.

Lemma on_json_mutated ms : ∀ w, Ij w → Ij (mutated ms w).
Proof using Hfile.
  induction ms as [|m ms IH]; intros w Hw; [done|].
  simpl. apply IH. by apply on_json_mutate.
Qed.
End JsonArtifacts.

(** X19: in file mode the artifacts of the collection always hold what
    [JSON.parse] gives back (no property holding [undefined], no [NaN]):
    this is so after a construction that resets them, and every sequence of
    mutating calls, returning or throwing, keeps it so; hence [get] never
    returns a document with a property holding [undefined]. *)
Theorem X19_artifacts_are_json `{JsNumber} ms w :
  Collection.fileMode (Collection.this w) = true →
  disk_json w →
  disk_json (mutated ms w)
  ∧ ∀ i doc k, (Collection.get i (mutated ms w)).1 = Ok (Some doc) →
               doc !! k ≠ Some VUndefined.
Proof.
  intros Hf Hd.
  destruct (on_json_mutated (Collection.this w) Hf ms w) as [Ht Hjson];
    [by split|].
  split; [done|]. intros i doc k. rewrite get_run. cbn [fst].
  destruct Hjson as [Hdata _]. rewrite <- Hdata, lookup_fmap.
  destruct (current_data (mutated ms w) !! i) as [r|]; [|done].
  simpl. intros [= <-]. unfold Collection.toDocument.
  intros Hk. apply lookup_union_Some_raw in Hk as [Hk|[_ Hk]].
  - unfold json_record in Hk. rewrite lookup_omap in Hk.
    destruct (r !! k) as [v|]; [|done]. simpl in Hk.
    destruct (is_undefined v) eqn:Hv; [done|]. injection Hk as Hk.
    destruct v; try done; simpl in Hk; done.
  - apply lookup_singleton_Some in Hk as [_ Hk]. done.
Qed.

Lemma X19_witness :
  disk_json (mutated (H := decimal_Number)
               [DoAdd (user "Josef" 30 "male");
                DoUpdate "id0" {["name" := VUndefined]}]
               (fresh_users true))
  ∧ ∀ i doc k,
      (Collection.get i
         (mutated (H := decimal_Number)
            [DoAdd (user "Josef" 30 "male");
             DoUpdate "id0" {["name" := VUndefined]}]
            (fresh_users true))).1 = Ok (Some doc) →
      doc !! k ≠ Some VUndefined.
Proof.
  apply (X19_artifacts_are_json (H := decimal_Number)).
  - reflexivity.
  - exact fresh_users_disk_json.
Defined.

(** * Indexes in step with the records *)

Section Mirrors.
Context `{JsNumber}.
Variable f : string.
Variable def : FieldDefinition.

Lemma index_for_entries es es' :
  Index.with_entries (index_for f def es) es' = index_for f def es'.
Proof. done. Qed.

Lemma normalize_index_for es v :
  Index.normalize (index_for f def es) v = Index.normalize (index_for f def []) v.
Proof. done. Qed.

Lemma mirrors_length d es : mirrors f def d es → length es ≤ size d.
Proof.
  intros (_ & _ & Hnd & Hin).
  rewrite <- (length_fmap id es), <- size_dom.
  rewrite <- (size_list_to_set (C := gset string) (id <$> es)) by done.
  apply subseteq_size. intros i Hi. apply elem_of_list_to_set in Hi.
  apply list_elem_of_fmap in Hi as (e & -> & He).
  apply Hin in He as (r & Hr & _). apply elem_of_dom. by eexists.
Qed.

Lemma mirrors_small d es :
  (Z.of_nat (size d) < 2 ^ 31)%Z → mirrors f def d es → small es.
Proof.
  intros Hsize Hm. pose proof (mirrors_length d es Hm). unfold small. lia.
Qed.

(** An insertion for a new record keeps the index in step. *)
Lemma mirrors_add d es i record :
  mirrors f def d es → d !! i = None → small es →
  typed (type def) (record_get record f) →
  ∃ es', Index.add (index_for f def es) i (record_get record f)
         = Ok (index_for f def es')
         ∧ mirrors f def (<[i := record]> d) es'.
Proof.
  intros (Hs & Ht & Hnd & Hin) Hfresh Hsm Hv.
  destruct (add_spec (type def) (index_for f def es) i (record_get record f)
              Hs Ht Hv Hsm) as (l & r & Hlr & Hl & Hr & Hadd).
  simpl in Hlr. rewrite normalize_index_for in *.
  fold (field_value f def record) in *.
  set (e := {| value := field_value f def record; id := i |}) in *.
  exists (l ++ e :: r). split; [by rewrite Hadd|].
  assert (typed (type def) (value e)) as Hte
    by (by apply (normalize_typed (type def))).
  assert (i ∉ id <$> es) as Hi.
  { intros (e' & -> & He')%list_elem_of_fmap.
    apply Hin in He' as (r' & Hr' & _). congruence. }
  split; [|split; [|split]].
  - apply (sorted_insert (type def)); rewrite <- ?Hlr; done.
  - rewrite Hlr in Ht. apply Forall_app in Ht as [Htl Htr].
    apply Forall_app. split; [done|]. by constructor.
  - rewrite Hlr, fmap_app in Hnd, Hi. rewrite fmap_app, fmap_cons.
    apply NoDup_app in Hnd as (Hndl & Hdisj & Hndr).
    apply not_elem_of_app in Hi as [Hil Hir].
    apply NoDup_app. split; [done|]. split.
    + intros x Hx [->|Hxr]%elem_of_cons; [done|]. by apply (Hdisj x).
    + by apply NoDup_cons.
  - intros e'. rewrite elem_of_app, elem_of_cons.
    assert (e' ∈ es ↔ e' ∈ l ∨ e' ∈ r) as Hsplit
      by (by rewrite Hlr, elem_of_app).
    destruct (decide (id e' = i)) as [Heq|Hne].
    + rewrite Heq, lookup_insert_eq. split.
      * intros [Hl'|[->|Hr']]; [| by eexists |].
        -- exfalso. apply Hi. apply list_elem_of_fmap. exists e'.
           split; [done|]. apply Hsplit. by left.
        -- exfalso. apply Hi. apply list_elem_of_fmap. exists e'.
           split; [done|]. apply Hsplit. by right.
      * intros (r' & [= <-] & Hval). right. left.
        destruct e' as [v j]. simpl in *. by subst.
    + rewrite lookup_insert_ne by done. rewrite <- Hin, Hsplit.
      split; [intros [?|[->|?]]; [by left|done|by right]|].
      intros [?|?]; [by left|by right; right].
Qed.

Lemma remove_first_elem i nv es e :
  entries_typed (type def) es → typed (type def) nv →
  NoDup (id <$> es) → {| value := nv; id := i |} ∈ es →
  e ∈ remove_first i nv es ↔ e ∈ es ∧ id e ≠ i.
Proof.
  intros Ht Hnv Hnd Hpair. induction Ht as [|x es Hx Ht IH];
    [by apply elem_of_nil in Hpair|].
  rewrite fmap_cons in Hnd. apply NoDup_cons in Hnd as [Hxi Hnd]. simpl.
  destruct (has_value nv x && String.eqb (id x) i) eqn:Hhit.
  - apply (holds_pair_eq (type def)) in Hhit; [|done..]. subst x. simpl in *.
    rewrite elem_of_cons. split.
    + intros He. split; [by right|]. intros Heq. apply Hxi.
      apply list_elem_of_fmap. by exists e.
    + intros [[->|He] Hne]; done.
  - apply elem_of_cons in Hpair as [Heq|Hpair].
    { subst x. assert (has_value nv {| value := nv; id := i |}
                       && String.eqb (id {| value := nv; id := i |}) i = true)
        as Hyes by (by apply (holds_pair_eq (type def))).
      congruence. }
    assert (id x ≠ i) as Hxne.
    { intros Heq. apply Hxi. apply list_elem_of_fmap.
      by exists {| value := nv; id := i |}. }
    rewrite !elem_of_cons, (IH Hnd Hpair). split.
    + intros [->|[He Hne]]; [by split; [left|]|by split; [right|]].
    + intros [[->|He] Hne]; [by left|by right].
Qed.

Lemma remove_first_ids i nv es :
  NoDup (id <$> es) → NoDup (id <$> remove_first i nv es).
Proof.
  induction es as [|x es IH]; [done|]. rewrite fmap_cons.
  intros [Hx Hnd]%NoDup_cons. simpl.
  destruct (has_value nv x && String.eqb (id x) i); [done|].
  rewrite fmap_cons. apply NoDup_cons. split; [|by apply IH].
  intros (e & Heq & He)%list_elem_of_fmap. apply Hx.
  apply list_elem_of_fmap. exists e. split; [done|].
  clear -He. induction es as [|y es IH]; [done|]. simpl in He.
  destruct (has_value nv y && String.eqb (id y) i); [by right|].
  apply elem_of_cons in He as [->|He]; [by left|right; by apply IH].
Qed.

(** The removal for a stored record leaves the index in step with the other
    records. *)
Lemma mirrors_remove d es i existing :
  mirrors f def d es → d !! i = Some existing → small es →
  typed (type def) (record_get existing f) →
  Index.remove (index_for f def es) i (record_get existing f)
  = Ok (index_for f def (remove_first i (field_value f def existing) es))
  ∧ mirrors f def (delete i d) (remove_first i (field_value f def existing) es).
Proof.
  intros (Hs & Ht & Hnd & Hin) Hi Hsm Hv.
  pose proof (normalize_typed (type def) (index_for f def []) _ Hv) as Hnv.
  fold (field_value f def existing) in Hnv.
  split.
  { by rewrite (remove_spec (type def) (index_for f def es) i _ Hs Ht Hv Hsm). }
  assert ({| value := field_value f def existing; id := i |} ∈ es) as Hpair.
  { apply Hin. simpl. by exists existing. }
  split; [|split; [|split]].
  - by apply remove_first_sorted.
  - by apply remove_first_typed.
  - by apply remove_first_ids.
  - intros e. rewrite remove_first_elem by done. rewrite Hin.
    split.
    + intros [(r & Hr & Hval) Hne]. exists r. by rewrite lookup_delete_ne.
    + intros (r & Hr & Hval). destruct (decide (id e = i)) as [Heq|Hne].
      * by rewrite Heq, lookup_delete_eq in Hr.
      * rewrite lookup_delete_ne in Hr by done. split; [by exists r|done].
Qed.

(** Replacing a record by one with the same value of the field leaves the
    index in step. *)
Lemma mirrors_same_value d es i existing record :
  mirrors f def d es → d !! i = Some existing →
  field_value f def record = field_value f def existing →
  mirrors f def (<[i := record]> d) es.
Proof.
  intros (Hs & Ht & Hnd & Hin) Hi Hsame. repeat split; try done.
  - intros He. apply Hin in He as (r & Hr & Hval).
    destruct (decide (id e = i)) as [Heq|Hne].
    + exists record. rewrite Heq, lookup_insert_eq. split; [done|].
      rewrite Heq in Hr. congruence.
    + exists r. by rewrite lookup_insert_ne.
  - intros (r & Hr & Hval). apply Hin.
    destruct (decide (id e = i)) as [Heq|Hne].
    + rewrite Heq, lookup_insert_eq in Hr. injection Hr as <-.
      exists existing. rewrite Heq. split; [done|]. congruence.
    + rewrite lookup_insert_ne in Hr by done. by exists r.
Qed.
End Mirrors.

(** ** One call keeps the indexes in step *)

Lemma stepE_at body (sch : Schema) E f d es' :
  NoDup sch.*1 → (f, d) ∈ sch →
  body f (index_for f d (E f)) = Ok (index_for f d es') →
  stepE body sch E f = es'.
Proof.
  intros Hnd Hin Hb. unfold stepE.
  by rewrite (schema_get_elem_Some sch f d Hnd Hin), Hb.
Qed.

Lemma for_indexes_on_shaped body (sch : Schema) E :
  NoDup sch.*1 →
  ∀ l : Schema,
    (∀ f d, (f, d) ∈ l → (f, d) ∈ sch) →
    (∀ f d, (f, d) ∈ l → truthy (index d) = true →
            ∃ es', body f (index_for f d (E f)) = Ok (index_for f d es')) →
    Collection.for_indexes body (shaped l E)
    = (Ok (), shaped l (stepE body sch E)).
Proof.
  intros Hnd l. induction l as [|[f d] l IH]; intros Hsub Hstep; [done|].
  rewrite !shaped_cons.
  assert (Collection.for_indexes body (shaped l E)
          = (Ok (), shaped l (stepE body sch E))) as Hrest.
  { apply IH; intros f' d' Hin; [apply Hsub|apply Hstep]; by right. }
  destruct (truthy (index d)) eqn:Hd; [|done].
  destruct (Hstep f d ltac:(by left) Hd) as [es' Hb].
  cbn [Collection.for_indexes]. rewrite Hb, Hrest.
  by rewrite (stepE_at body sch E f d es' Hnd (Hsub f d ltac:(by left)) Hb).
Qed.

Lemma value_ok_typed ft v : ft ≠ TObject → value_ok ft v → typed ft v.
Proof. unfold value_ok, typed. by destruct ft, v. Qed.

Lemma typed_defined ft v : typed ft v → is_undefined v = false.
Proof. unfold typed. by destruct ft, v. Qed.

Lemma mirrors_empty `{JsNumber} f def : mirrors f def ∅ [].
Proof.
  split; [constructor|]. split; [constructor|]. split; [constructor|].
  intros e. split; [by intros ?%elem_of_nil|].
  intros (r & Hr & _). by rewrite lookup_empty in Hr.
Qed.

Lemma size_delete_Some {A} (d : gmap string A) i x :
  d !! i = Some x → size d = S (size (delete i d)).
Proof.
  intros Hi. rewrite <- (insert_delete_id d i x Hi) at 1.
  apply map_size_insert_None, lookup_delete_eq.
Qed.

(** What [JSON.parse] gives back of records and entries that hold a value
    of the field's type. *)
Lemma record_get_json ft r f :
  typed ft (record_get r f) → record_get (json_record r) f = record_get r f.
Proof.
  unfold record_get, json_record. rewrite lookup_omap.
  destruct (r !! f) as [v|]; simpl.
  - intros Ht. by rewrite (typed_defined _ _ Ht), (json_typed _ _ Ht).
  - by intros ?%typed_defined.
Qed.

Lemma json_entries_typed ft es : entries_typed ft es → json_entry <$> es = es.
Proof.
  induction 1 as [|e es He _ IH]; [done|]. rewrite fmap_cons, IH. f_equal.
  destruct e as [v i]. unfold json_entry. simpl in *.
  by rewrite (json_typed _ _ He).
Qed.

Lemma mirrors_json `{JsNumber} f def d es :
  mirrors f def d es →
  (∀ i r, d !! i = Some r → typed (type def) (record_get r f)) →
  mirrors f def (json_record <$> d) (json_entry <$> es).
Proof.
  intros (Hs & Ht & Hnd & Hmem) Hty.
  rewrite (json_entries_typed _ _ Ht).
  split; [done|]. split; [done|]. split; [done|].
  intros e. rewrite Hmem, lookup_fmap. split.
  - intros (r & Hr & Hval). exists (json_record r). rewrite Hr.
    split; [done|]. unfold field_value.
    by rewrite (record_get_json (type def)) by by eapply Hty.
  - intros (r' & Hr' & Hval).
    destruct (d !! id e) as [r|] eqn:Hr; [|done]. injection Hr' as <-.
    exists r. split; [done|]. unfold field_value in *.
    by rewrite (record_get_json (type def)) in Hval by by eapply Hty.
Qed.

Lemma updated_size `{JsNumber} w (d : gmap string (gmap string jsval)) ixs n :
  size (current_data (updated w d ixs n)) = size d.
Proof.
  rewrite updated_data. destruct (Collection.fileMode _); [|done].
  apply map_size_fmap.
Qed.

Section InStep.
Context `{JsNumber}.
Variable sch : Schema.
Hypothesis Hnodup : NoDup sch.*1.
Hypothesis Hschema : validateSchema sch = Ok ().

Lemma in_step_frame w w' :
  Collection.this w' = Collection.this w →
  Collection.storage w' = Collection.storage w →
  Collection.uuids w' = Collection.uuids w →
  Collection.issued w ≤ Collection.issued w' →
  in_step sch w → in_step sch w'.
Proof.
  intros Ht Hst Hu Hn (Hs & HE & Hty & Hids). unfold in_step.
  rewrite (current_data_frame w w'), (current_indexes_frame w w'), Ht, Hu
    by (by rewrite ?Hst).
  repeat split; try done.
  intros i Hi. destruct (Hids i Hi) as (k & Hk & Hki). exists k.
  split; [lia|done].
Qed.

(** The world a successful call leaves is in step when what it stored is. *)
Lemma in_step_updated w d E n :
  Collection.schema (Collection.this w) = sch →
  (∀ f def, (f, def) ∈ sch → truthy (index def) = true →
            mirrors f def d (E f)) →
  (∀ i r f def, d !! i = Some r → (f, def) ∈ sch →
                truthy (index def) = true →
                typed (type def) (record_get r f)) →
  (∀ i, is_Some (d !! i) → ∃ k, k < n ∧ Collection.uuids w k = i) →
  in_step sch (updated w d (shaped sch E) n).
Proof using Hnodup.
  intros Hs Hm Hty Hids.
  pose proof (updated_indexes w d E n) as Hix. rewrite Hs in Hix.
  specialize (Hix Hnodup).
  split; [by rewrite updated_schema|].
  rewrite updated_data, updated_uuids, updated_issued.
  split; [|split].
  - eexists. split; [exact Hix|]. intros f def Hin Hd.
    destruct (Collection.fileMode (Collection.this w)); [|by apply Hm].
    apply mirrors_json; [by apply Hm|]. intros i r Hr. by eapply Hty.
  - intros i r f def Hr Hin Hd.
    destruct (Collection.fileMode (Collection.this w)); [|by eapply Hty].
    rewrite lookup_fmap in Hr.
    destruct (d !! i) as [r0|] eqn:Hr0; [|done]. injection Hr as <-.
    rewrite (record_get_json (type def)); by eapply Hty.
  - intros i Hi. apply Hids.
    destruct (Collection.fileMode (Collection.this w)); [|done].
    rewrite lookup_fmap in Hi. by apply fmap_is_Some in Hi.
Qed.

(** The world [clear] and a resetting construction leave in file mode. *)
Lemma in_step_wiped w n :
  Collection.fileMode (Collection.this w) = true →
  Collection.schema (Collection.this w) = sch →
  let w' := {| Collection.this := Collection.this w;
               Collection.storage :=
                 wiped (Collection.storage w)
                   (Collection.name (Collection.this w)) sch;
               Collection.uuids := Collection.uuids w;
               Collection.issued := n |} in
  in_step sch w' ∧ current_data w' = ∅.
Proof using Hnodup.
  intros Hf Hs w'.
  assert (current_data w' = ∅) as Hd.
  { unfold current_data, w'. simpl. rewrite Hf.
    unfold FileAdapter.readData, wiped. simpl.
    by rewrite lookup_insert_eq, fmap_empty. }
  split; [|done]. split; [done|]. rewrite Hd. split; [|split].
  - exists (λ _, []). split.
    + rewrite (loaded_shaped sch Hnodup w') by done.
      apply shaped_ext_on. intros f def _ _.
      unfold disk_entries, w', FileAdapter.readMeta, wiped. simpl.
      by rewrite lookup_insert_eq.
    + intros f def _ _. apply mirrors_empty.
  - intros i r f def Hi. by rewrite lookup_empty in Hi.
  - intros i [r Hi]. by rewrite lookup_empty in Hi.
Qed.

Lemma create_file_reset nm fs gen n :
  starts_empty true fs nm sch →
  Collection.create nm sch true fs gen n
  = {| Collection.this :=
         {| Collection.name := nm; Collection.schema := sch;
            Collection.fileMode := true; Collection.data := ∅;
            Collection.indexes := [] |};
       Collection.storage := wiped fs nm sch;
       Collection.uuids := gen; Collection.issued := n |}.
Proof.
  intros Hempty. unfold Collection.create, Collection.initFileMode.
  rewrite bind_run, self_run, bind_run. simpl.
  destruct (FileAdapter.readMeta fs nm) as [meta|] eqn:Hmeta; [|done].
  by rewrite (Hempty eq_refl meta Hmeta).
Qed.

Lemma in_step_create nm file fs gen n :
  starts_empty file fs nm sch →
  in_step sch (Collection.create nm sch file fs gen n)
  ∧ current_data (Collection.create nm sch file fs gen n) = ∅
  ∧ Collection.uuids (Collection.create nm sch file fs gen n) = gen.
Proof using Hnodup.
  intros Hempty. destruct file.
  - rewrite create_file_reset by done.
    destruct (in_step_wiped
                {| Collection.this :=
                     {| Collection.name := nm; Collection.schema := sch;
                        Collection.fileMode := true; Collection.data := ∅;
                        Collection.indexes := [] |};
                   Collection.storage := fs;
                   Collection.uuids := gen; Collection.issued := n |} n
                eq_refl eq_refl) as [Hstep Hd].
    by split; [|split].
  - split; [|done]. split; [done|]. split; [|split].
    + exists (λ _, []). split; [by apply own_shaped_create|].
      intros f def _ _. apply mirrors_empty.
    + intros i r f def Hi. unfold current_data in Hi. simpl in Hi.
      by rewrite lookup_empty in Hi.
    + intros i [r Hi]. unfold current_data in Hi. simpl in Hi.
      by rewrite lookup_empty in Hi.
Qed.

Lemma index_record_step d E i raw :
  (∀ f def, (f, def) ∈ sch → truthy (index def) = true →
            mirrors f def d (E f)) →
  d !! i = None →
  (Z.of_nat (size d) < 2 ^ 31)%Z →
  (∀ f def, (f, def) ∈ sch → truthy (index def) = true →
            typed (type def) (record_get raw f)) →
  ∃ E1, Collection.for_indexes (Collection.index_record i raw) (shaped sch E)
        = (Ok (), shaped sch E1)
        ∧ ∀ f def, (f, def) ∈ sch → truthy (index def) = true →
                   mirrors f def (<[i := raw]> d) (E1 f).
Proof using Hnodup.
  intros Hm Hfresh Hsize Hraw.
  assert (∀ f def, (f, def) ∈ sch → truthy (index def) = true →
            ∃ es', Collection.index_record i raw f (index_for f def (E f))
                   = Ok (index_for f def es')
                   ∧ mirrors f def (<[i := raw]> d) es') as Hstep.
  { intros f def Hin Hd. unfold Collection.index_record.
    rewrite (typed_defined _ _ (Hraw f def Hin Hd)).
    apply mirrors_add; [by apply Hm|done| |by apply Hraw].
    eapply mirrors_small; [exact Hsize|by apply Hm]. }
  exists (stepE (Collection.index_record i raw) sch E). split.
  - apply for_indexes_on_shaped; [done|done|].
    intros f def Hin Hd. destruct (Hstep f def Hin Hd) as (es' & Hb & _).
    by exists es'.
  - intros f def Hin Hd. destruct (Hstep f def Hin Hd) as (es' & Hb & Hmir).
    by rewrite (stepE_at _ sch E f def es' Hnodup Hin Hb).
Qed.

Lemma in_step_add w record :
  in_step sch w →
  (∀ j k, Collection.uuids w j = Collection.uuids w k → j = k) →
  (Z.of_nat (size (current_data w)) < 2 ^ 31)%Z →
  valid_for_add sch record →
  ∃ doc w', Collection.add record w = (Ok doc, w')
            ∧ in_step sch w'
            ∧ Collection.uuids w' = Collection.uuids w
            ∧ size (current_data w') = S (size (current_data w)).
Proof using Hnodup Hschema.
  intros (Hs & (E & HE & Hm) & Hty & Hids) Hinj Hsize Hv.
  set (i := Collection.uuids w (Collection.issued w)).
  set (wd := Collection.applyDefaults sch record).
  set (d := current_data w) in *.
  assert (d !! i = None) as Hfresh.
  { destruct (d !! i) eqn:Hi; [|done].
    destruct (Hids i ltac:(by eexists)) as (k & Hk & Hki).
    apply Hinj in Hki. lia. }
  assert (∀ f def, (f, def) ∈ sch → truthy (index def) = true →
                   typed (type def) (record_get wd f)) as Hwd.
  { intros f def Hin Hd. apply valid_typed; [done..|].
    by eapply validateSchema_indexed. }
  destruct (index_record_step d E i wd Hm Hfresh Hsize Hwd)
    as (E1 & Hloop & Hm1).
  pose proof (add_run w record) as Hrun. cbv zeta in Hrun.
  rewrite Hs in Hrun. fold i wd d in Hrun. rewrite HE, Hloop in Hrun.
  specialize (Hrun Hv eq_refl). cbn [snd] in Hrun.
  eexists _, _. split; [exact Hrun|]. split; [|split].
  - apply in_step_updated; [done|done| |].
    + intros j r f def Hj Hin Hd.
      destruct (decide (i = j)) as [<-|Hne].
      * rewrite lookup_insert_eq in Hj. injection Hj as <-. by apply Hwd.
      * rewrite lookup_insert_ne in Hj by done. by eapply Hty.
    + intros j Hj. destruct (decide (i = j)) as [<-|Hne].
      * exists (Collection.issued w). split; [lia|done].
      * rewrite lookup_insert_ne in Hj by done.
        destruct (Hids j Hj) as (k & Hk & Hki). exists k. split; [lia|done].
  - apply updated_uuids.
  - rewrite updated_size. by apply map_size_insert_None.
Qed.

Lemma in_step_remove w i existing :
  in_step sch w →
  (Z.of_nat (size (current_data w)) < 2 ^ 31)%Z →
  current_data w !! i = Some existing →
  ∃ w', Collection.remove i w = (Ok (), w')
        ∧ in_step sch w'
        ∧ Collection.uuids w' = Collection.uuids w
        ∧ size (current_data w') ≤ size (current_data w).
Proof using Hnodup.
  intros (Hs & (E & HE & Hm) & Hty & Hids) Hsize Hi.
  set (d := current_data w) in *.
  assert (∀ f def, (f, def) ∈ sch → truthy (index def) = true →
            ∃ es', Collection.unindex i existing f (index_for f def (E f))
                   = Ok (index_for f def es')
                   ∧ mirrors f def (delete i d) es') as Hstep.
  { intros f def Hin Hd. unfold Collection.unindex.
    pose proof (Hty i existing f def Hi Hin Hd) as Hold.
    rewrite (typed_defined _ _ Hold).
    eexists. apply mirrors_remove; [by apply Hm|done| |done].
    eapply mirrors_small; [exact Hsize|by apply Hm]. }
  assert (Collection.for_indexes (Collection.unindex i existing)
            (shaped sch E)
          = (Ok (), shaped sch (stepE (Collection.unindex i existing) sch E)))
    as Hloop.
  { apply for_indexes_on_shaped; [done|done|].
    intros f def Hin Hd. destruct (Hstep f def Hin Hd) as (es' & Hb & _).
    by exists es'. }
  pose proof (remove_run w i existing) as Hrun. cbv zeta in Hrun.
  fold d in Hrun. rewrite HE, Hloop in Hrun.
  specialize (Hrun Hi eq_refl). cbn [snd] in Hrun.
  eexists. split; [exact Hrun|]. split; [|split].
  - apply in_step_updated; [done| | |].
    + intros f def Hin Hd.
      destruct (Hstep f def Hin Hd) as (es' & Hb & Hmir).
      by rewrite (stepE_at _ sch E f def es' Hnodup Hin Hb).
    + intros j r f def Hj Hin Hd.
      apply lookup_delete_Some in Hj as [_ Hj]. by eapply Hty.
    + intros j [r Hj]. apply lookup_delete_Some in Hj as [_ Hj].
      apply Hids. by eexists.
  - apply updated_uuids.
  - rewrite updated_size.
    pose proof (size_delete_Some d i existing Hi). lia.
Qed.

Lemma in_step_update w i partial existing :
  in_step sch w →
  (Z.of_nat (size (current_data w)) < 2 ^ 31)%Z →
  validateRecord partial sch true = Ok () →
  (∀ k v, partial !! k = Some v → v ≠ VUndefined) →
  current_data w !! i = Some existing →
  ∃ doc w', Collection.update i partial w = (Ok doc, w')
            ∧ in_step sch w'
            ∧ Collection.uuids w' = Collection.uuids w
            ∧ size (current_data w') = size (current_data w).
Proof using Hnodup Hschema.
  intros (Hs & (E & HE & Hm) & Hty & Hids) Hsize Hv Hdef Hi.
  set (d := current_data w) in *.
  set (merged := partial ∪ existing).
  assert (∀ f def, (f, def) ∈ sch → truthy (index def) = true →
                   typed (type def) (record_get merged f)
                   ∧ (is_undefined (record_get partial f) = true →
                      record_get merged f = record_get existing f)
                   ∧ (is_undefined (record_get partial f) = false →
                      record_get merged f = record_get partial f
                      ∧ typed (type def) (record_get partial f))) as Hmerged.
  { intros f def Hin Hd. unfold merged, record_get.
    pose proof (Hty i existing f def Hi Hin Hd) as Hold.
    destruct (partial !! f) as [v|] eqn:Hp.
    - rewrite (lookup_union_Some_l _ _ _ _ Hp). simpl.
      assert (typed (type def) v) as Hnew.
      { unfold validateRecord in Hv. case_bool_decide; [|done].
        pose proof (proj1 (check_fields_ok partial sch true) Hv f def Hin)
          as Hok.
        unfold record_get in Hok. rewrite Hp in Hok. simpl in Hok.
        destruct (is_undefined v) eqn:Hu.
        + destruct v; try done. by destruct (Hdef f VUndefined Hp).
        + apply value_ok_typed; [|done]. by eapply validateSchema_indexed. }
      rewrite (typed_defined _ _ Hnew). split; [done|]. split; [done|].
      by intros _.
    - rewrite lookup_union_r by done. simpl. split; [done|].
      split; [done|]. done. }
  assert (∀ f def, (f, def) ∈ sch → truthy (index def) = true →
            ∃ es', Collection.reindex i existing partial f
                     (index_for f def (E f))
                   = Ok (index_for f def es')
                   ∧ mirrors f def (<[i := merged]> d) es') as Hstep.
  { intros f def Hin Hd. unfold Collection.reindex.
    destruct (Hmerged f def Hin Hd) as (Htm & Hsame & Hnew).
    pose proof (Hty i existing f def Hi Hin Hd) as Hold.
    pose proof (Hm f def Hin Hd) as Hmir.
    pose proof (mirrors_small f def d (E f) Hsize Hmir) as Hsm.
    destruct (is_undefined (record_get partial f)) eqn:Hu.
    - exists (E f). split; [done|].
      apply (mirrors_same_value f def d (E f) i existing); [done..|].
      unfold field_value. by rewrite (Hsame eq_refl).
    - destruct (Hnew eq_refl) as [Heq Htp].
      rewrite (typed_defined _ _ Hold).
      destruct (mirrors_remove f def d (E f) i existing Hmir Hi Hsm Hold)
        as [Hrm Hmir'].
      rewrite Hrm. cbn [mbind result_bind].
      rewrite <- Heq.
      rewrite <- (insert_delete_eq d i merged).
      apply mirrors_add; [done|apply lookup_delete_eq| |done].
      eapply mirrors_small; [|exact Hmir'].
      pose proof (size_delete_Some d i existing Hi). lia. }
  assert (Collection.for_indexes (Collection.reindex i existing partial)
            (shaped sch E)
          = (Ok (), shaped sch
                      (stepE (Collection.reindex i existing partial) sch E)))
    as Hloop.
  { apply for_indexes_on_shaped; [done|done|].
    intros f def Hin Hd. destruct (Hstep f def Hin Hd) as (es' & Hb & _).
    by exists es'. }
  pose proof (update_run w i partial existing) as Hrun. cbv zeta in Hrun.
  fold d merged in Hrun. rewrite HE, Hloop, Hs in Hrun.
  specialize (Hrun Hv Hi eq_refl). cbn [snd] in Hrun.
  eexists _, _. split; [exact Hrun|]. split; [|split].
  - apply in_step_updated; [done| | |].
    + intros f def Hin Hd.
      destruct (Hstep f def Hin Hd) as (es' & Hb & Hmir).
      by rewrite (stepE_at _ sch E f def es' Hnodup Hin Hb).
    + intros j r f def Hj Hin Hd.
      destruct (decide (i = j)) as [<-|Hne].
      * rewrite lookup_insert_eq in Hj. injection Hj as <-.
        by apply Hmerged.
      * rewrite lookup_insert_ne in Hj by done. by eapply Hty.
    + intros j Hj. apply Hids. destruct (decide (i = j)) as [<-|Hne].
      * by eexists.
      * by rewrite lookup_insert_ne in Hj.
  - apply updated_uuids.
  - rewrite updated_size.
    rewrite <- (insert_delete_eq d i merged).
    rewrite map_size_insert_None by apply lookup_delete_eq.
    by rewrite (size_delete_Some d i existing Hi).
Qed.

Lemma in_step_clear w :
  in_step sch w →
  in_step sch (after Collection.clear w)
  ∧ Collection.uuids (after Collection.clear w) = Collection.uuids w
  ∧ current_data (after Collection.clear w) = ∅.
Proof using Hnodup.
  intros (Hs & (E & HE & Hm) & Hty & Hids).
  unfold after. rewrite clear_run. cbn [snd].
  destruct (Collection.fileMode (Collection.this w)) eqn:Hf.
  - rewrite Hs.
    destruct (in_step_wiped w (Collection.issued w) Hf Hs) as [Hstep Hd].
    by split; [|split].
  - assert (current_data
              (holding w ∅ (cleared (Collection.indexes (Collection.this w)))
                 (Collection.issued w)) = ∅) as Hd.
    { unfold current_data. simpl. by rewrite Hf. }
    split; [|by split]. split; [done|]. rewrite Hd. split; [|split].
    + exists (λ _, []). split.
      * unfold current_indexes in *. simpl. rewrite Hf in *.
        by rewrite HE, cleared_shaped.
      * intros f def _ _. apply mirrors_empty.
    + intros i r f def Hi. by rewrite lookup_empty in Hi.
    + intros i [r Hi]. by rewrite lookup_empty in Hi.
Qed.
End InStep.

(** ** A run of calls keeps the indexes in step *)

Lemma Map_get_shaped (sch : Schema) E f def :
  NoDup sch.*1 → (f, def) ∈ sch → truthy (index def) = true →
  Map_get f (shaped sch E) = Some (index_for f def (E f)).
Proof.
  induction sch as [|[k d] sch IH]; [by intros _ ?%elem_of_nil|].
  intros Hnd Hin Hd. rewrite shaped_cons.
  rewrite fmap_cons in Hnd. apply NoDup_cons in Hnd as [Hk Hnd]. simpl in Hk.
  apply elem_of_cons in Hin as [Heq|Hin].
  - injection Heq as <- <-. rewrite Hd. unfold Map_get. simpl.
    by rewrite String.eqb_refl.
  - assert (k ≠ f) as Hne.
    { intros ->. apply Hk. apply list_elem_of_fmap. by exists (f, def). }
    destruct (truthy (index d)); [|by apply IH].
    unfold Map_get. simpl. apply String.eqb_neq in Hne. rewrite Hne.
    by apply IH.
Qed.

Lemma valid_for_add_dec (sch : Schema) record :
  {valid_for_add sch record} + {¬ valid_for_add sch record}.
Proof.
  unfold valid_for_add.
  destruct (validateRecord _ _ _) as [[]|e]; [by left|by right].
Defined.

Lemma validate_all_issued records : ∀ w r w',
  Collection.validate_all records w = (r, w') →
  Collection.issued w ≤ Collection.issued w'.
Proof.
  induction records as [|record records IH]; intros w r w'.
  - by intros [= <- <-].
  - cbn [Collection.validate_all].
    rewrite bind_run, self_run, bind_run. unfold Collection.lift at 1.
    destruct (validateRecord _ _ _) as [[]|e] eqn:Hv; [|by intros [= <- <-]].
    rewrite bind_run. simpl. rewrite bind_run.
    destruct (Collection.validate_all records _) as [[validated|e] w2] eqn:Hrest;
      apply IH in Hrest; simpl in Hrest; intros [= <- <-]; lia.
Qed.

Lemma addMany_invalid_world `{JsNumber} records w :
  ¬ Forall (valid_for_add (Collection.schema (Collection.this w))) records →
  ∃ e w', Collection.addMany records w = (Throw e, w')
          ∧ is_rejection e
          ∧ Collection.this w' = Collection.this w
          ∧ Collection.storage w' = Collection.storage w
          ∧ Collection.uuids w' = Collection.uuids w
          ∧ Collection.issued w ≤ Collection.issued w'.
Proof.
  intros Hn. unfold Collection.addMany. rewrite bind_run.
  destruct (Collection.validate_all records w) as [[validated|e] w1] eqn:Hv.
  - apply validate_all_run in Hv as (_ & _ & Hall & _). done.
  - pose proof (validate_all_issued _ _ _ _ Hv) as Hn'.
    apply validate_all_run in Hv as ((Ht & Hst) & Hu & He & _).
    by exists e, w1.
Qed.

Lemma update_invalid `{JsNumber} i partial w e :
  validateRecord partial (Collection.schema (Collection.this w)) true = Throw e →
  Collection.update i partial w = (Throw e, w).
Proof.
  intros Hv. unfold Collection.update.
  rewrite bind_run, self_run, bind_run. unfold Collection.lift at 1.
  by rewrite Hv.
Qed.

Lemma store_all_insert validated : ∀ d j r,
  store_all validated d !! j = Some r → (j, r) ∈ validated ∨ d !! j = Some r.
Proof.
  induction validated as [|[i raw] validated IH]; intros d j r; [by right|].
  cbn [store_all foldl]. intros Hj. apply IH in Hj as [Hin|Hj].
  - left. by right.
  - destruct (decide (i = j)) as [<-|Hne].
    + rewrite lookup_insert_eq in Hj. injection Hj as <-. left. by left.
    + rewrite lookup_insert_ne in Hj by done. by right.
Qed.

Section InStepRun.
Context `{JsNumber}.
Variable sch : Schema.
Hypothesis Hnodup : NoDup sch.*1.
Hypothesis Hschema : validateSchema sch = Ok ().

Lemma index_all_step validated : ∀ d E,
  NoDup validated.*1 →
  (∀ i, i ∈ validated.*1 → d !! i = None) →
  (Z.of_nat (size d + length validated) < 2 ^ 31)%Z →
  (∀ i raw f def, (i, raw) ∈ validated → (f, def) ∈ sch →
                  truthy (index def) = true →
                  typed (type def) (record_get raw f)) →
  (∀ f def, (f, def) ∈ sch → truthy (index def) = true →
            mirrors f def d (E f)) →
  ∃ E', index_all validated (shaped sch E) = Ok (shaped sch E')
        ∧ (∀ f def, (f, def) ∈ sch → truthy (index def) = true →
                    mirrors f def (store_all validated d) (E' f))
        ∧ size (store_all validated d) = size d + length validated.
Proof using Hnodup.
  induction validated as [|[i raw] validated IH];
    intros d E Hnd Hfresh Hsize Hty Hm.
  - exists E. simpl. split; [done|]. split; [done|lia].
  - rewrite fmap_cons in Hnd, Hfresh. simpl in Hnd, Hfresh.
    apply NoDup_cons in Hnd as [Hi Hnd]. simpl in Hsize.
    destruct (index_record_step sch Hnodup d E i raw Hm) as (E1 & Hloop & Hm1).
    { apply Hfresh. by left. }
    { lia. }
    { intros f def. apply (Hty i raw). by left. }
    destruct (IH (<[i := raw]> d) E1 Hnd) as (E' & Hix & Hm' & Hsz); [| | |done|].
    { intros j Hj. rewrite lookup_insert_ne by (by intros ->).
      apply Hfresh. by right. }
    { rewrite map_size_insert_None by (apply Hfresh; by left). lia. }
    { intros j r f def Hin. apply (Hty j r). by right. }
    exists E'. cbn [index_all]. rewrite Hloop. cbn [mbind result_bind].
    split; [done|]. split; [done|].
    cbn [store_all foldl]. unfold store_all in Hsz. rewrite Hsz.
    rewrite map_size_insert_None by (apply Hfresh; by left). simpl. lia.
Qed.

Lemma in_step_addMany w records :
  in_step sch w →
  (∀ j k, Collection.uuids w j = Collection.uuids w k → j = k) →
  (Z.of_nat (size (current_data w) + length records) < 2 ^ 31)%Z →
  Forall (valid_for_add sch) records →
  ∃ docs w', Collection.addMany records w = (Ok docs, w')
             ∧ in_step sch w'
             ∧ Collection.uuids w' = Collection.uuids w
             ∧ size (current_data w')
               = size (current_data w) + length records.
Proof using Hnodup Hschema.
  intros (Hs & (E & HE & Hm) & Hty & Hids) Hinj Hsize Hall.
  set (d := current_data w) in *.
  set (validated := validated_of w records).
  assert (validated.*1
          = (λ k, Collection.uuids w (Collection.issued w + k))
              <$> seq 0 (length records)) as Hfst.
  { unfold validated, validated_of. apply fst_zip.
    by rewrite !length_fmap, length_seq. }
  assert (validated.*2 = Collection.applyDefaults sch <$> records) as Hsnd.
  { unfold validated, validated_of. rewrite Hs. apply snd_zip.
    by rewrite !length_fmap, length_seq. }
  assert (length validated = length records) as Hlen.
  { by rewrite <- (length_fmap fst validated), Hfst, length_fmap, length_seq. }
  assert (∀ i, i ∈ validated.*1 →
               ∃ k, k < length records
                    ∧ i = Collection.uuids w (Collection.issued w + k))
    as Hissued.
  { intros i Hi. rewrite Hfst in Hi.
    apply list_elem_of_fmap in Hi as (k & -> & Hk).
    apply elem_of_seq in Hk. exists k. split; [lia|done]. }
  assert (∀ i raw f def, (i, raw) ∈ validated → (f, def) ∈ sch →
                         truthy (index def) = true →
                         typed (type def) (record_get raw f)) as Hraws.
  { intros i raw f def Hin Hfd Hd.
    assert (raw ∈ validated.*2) as Hraw.
    { apply list_elem_of_fmap. by exists (i, raw). }
    rewrite Hsnd in Hraw. apply list_elem_of_fmap in Hraw as (record & -> & Hr).
    apply valid_typed; [|done|by eapply validateSchema_indexed].
    eapply Forall_forall in Hall; [exact Hall|done]. }
  destruct (index_all_step validated d E) as (E' & Hix & Hm' & Hsz);
    [| |lia|done|done|].
  { rewrite Hfst. apply NoDup_fmap_2_strong; [|apply NoDup_seq].
    intros j k _ _ Heq. apply Hinj in Heq. lia. }
  { intros i Hi. destruct (Hissued i Hi) as (k & _ & ->).
    destruct (d !! _) eqn:Hd; [|done].
    destruct (Hids _ ltac:(by eexists)) as (k' & Hk' & Heq).
    apply Hinj in Heq. lia. }
  pose proof (addMany_run w records (shaped sch E')) as Hrun.
  rewrite Hs, HE in Hrun. specialize (Hrun Hall Hix).
  fold d validated in Hrun.
  eexists _, _. split; [exact Hrun|]. split; [|split].
  - apply in_step_updated; [done..| |].
    + intros j r f def Hj Hin Hd.
      apply store_all_insert in Hj as [Hj|Hj]; [|by eapply Hty].
      by apply (Hraws j r).
    + intros j [r Hj]. apply store_all_insert in Hj as [Hj|Hj].
      * destruct (Hissued j) as (k & Hk & ->).
        { apply list_elem_of_fmap. by exists (j, r). }
        exists (Collection.issued w + k). split; [lia|done].
      * destruct (Hids j ltac:(by eexists)) as (k & Hk & Hki).
        exists k. split; [lia|done].
  - apply updated_uuids.
  - by rewrite updated_size, Hsz, Hlen.
Qed.

Lemma in_step_mutate m w :
  no_undefined m →
  in_step sch w →
  (∀ j k, Collection.uuids w j = Collection.uuids w k → j = k) →
  (Z.of_nat (size (current_data w) + adds m) < 2 ^ 31)%Z →
  in_step sch (after (mutate m) w)
  ∧ Collection.uuids (after (mutate m) w) = Collection.uuids w
  ∧ size (current_data (after (mutate m) w)) ≤ size (current_data w) + adds m
  ∧ match (mutate m w).1 with
    | Ok _ => accepted sch w m
    | Throw e => is_rejection e ∧ ¬ accepted sch w m
    end.
Proof using Hnodup Hschema.
  intros Hplain Hin Hinj Hsize.
  pose proof Hin as (Hs & _).
  destruct m as [record|records|i partial|i|]; simpl in Hsize;
    unfold after, mutate, accepted.
  - rewrite bind_run.
    destruct (valid_for_add_dec sch record) as [Hv|Hv].
    + destruct (in_step_add sch Hnodup Hschema w record Hin Hinj ltac:(lia) Hv)
        as (doc & w' & -> & Hin' & Hu & Hsz).
      simpl. split; [done|]. split; [done|]. split; [lia|done].
    + pose proof Hv as Hv'. rewrite <- Hs in Hv'.
      destruct (add_invalid record w Hv') as (e & He & ->).
      simpl. split; [done|]. split; [done|]. split; [lia|done].
  - rewrite bind_run.
    destruct (Forall_Exists_dec (valid_for_add sch)
                (λ record, ¬ valid_for_add sch record)
                (valid_for_add_dec sch) records) as [Hv|Hv].
    + destruct (in_step_addMany w records Hin Hinj Hsize Hv)
        as (docs & w' & -> & Hin' & Hu & Hsz).
      simpl. split; [done|]. split; [done|]. split; [lia|done].
    + assert (¬ Forall (valid_for_add sch) records) as Hnall.
      { intros Hall. apply Exists_exists in Hv as (r & Hr & Hnv).
        apply Hnv. eapply Forall_forall in Hall; [exact Hall|done]. }
      destruct (addMany_invalid_world records w)
        as (e & w' & -> & He & Ht & Hst & Hu & Hn); [by rewrite Hs|].
      simpl. split; [by eapply in_step_frame|]. split; [done|].
      rewrite (current_data_frame w w') by (by rewrite ?Hst).
      split; [lia|done].
  - rewrite bind_run.
    destruct (validateRecord partial sch true) as [[]|e] eqn:Hv.
    + destruct (current_data w !! i) as [existing|] eqn:Hi.
      * destruct (in_step_update sch Hnodup Hschema w i partial existing Hin
                    ltac:(lia) Hv Hplain Hi) as (doc & w' & -> & Hin' & Hu & Hsz).
        simpl. split; [done|]. split; [done|]. split; [lia|].
        split; [done|by eexists].
      * rewrite update_unknown; [|by rewrite Hs|done].
        simpl. split; [done|]. split; [done|]. split; [lia|].
        split; [done|]. by intros [_ [? ?]].
    + rewrite (update_invalid i partial w e) by (by rewrite Hs).
      simpl. split; [done|]. split; [done|]. split; [lia|].
      split; [by eapply validateRecord_rejection|]. by intros [? _].
  - destruct (current_data w !! i) as [existing|] eqn:Hi.
    + destruct (in_step_remove sch Hnodup w i existing Hin ltac:(lia) Hi)
        as (w' & -> & Hin' & Hu & Hsz).
      simpl. split; [done|]. split; [done|]. split; [lia|by eexists].
    + rewrite remove_unknown by done.
      simpl. split; [done|]. split; [done|]. split; [lia|].
      split; [done|]. by intros [? ?].
  - destruct (in_step_clear sch Hnodup w Hin) as (Hstep & Hu & Hd).
    unfold after in *. split; [done|]. split; [done|].
    rewrite Hd, map_size_empty. split; [lia|].
    by rewrite clear_run.
Qed.

Lemma in_step_mutated ms : ∀ w,
  Forall no_undefined ms →
  in_step sch w →
  (∀ j k, Collection.uuids w j = Collection.uuids w k → j = k) →
  (Z.of_nat (size (current_data w) + sum_list (adds <$> ms)) < 2 ^ 31)%Z →
  in_step sch (mutated ms w)
  ∧ Collection.uuids (mutated ms w) = Collection.uuids w
  ∧ size (current_data (mutated ms w))
    ≤ size (current_data w) + sum_list (adds <$> ms).
Proof using Hnodup Hschema.
  induction ms as [|m ms IH]; intros w Hplain Hin Hinj Hsize.
  { split; [done|]. split; [done|]. simpl. lia. }
  apply Forall_cons in Hplain as [Hm Hplain].
  rewrite fmap_cons in *. simpl in *.
  destruct (in_step_mutate m w Hm Hin Hinj ltac:(lia)) as (Hin' & Hu & Hsz & _).
  destruct (IH (after (mutate m) w)) as (Hfin & Hu' & Hle); [done|done| | |].
  - by rewrite Hu.
  - lia.
  - split; [done|]. unfold mutated in *. simpl.
    split; [by rewrite Hu'|lia].
Qed.

(** The state any such run leaves, from the construction on. *)
Lemma in_step_run nm file fs gen n ms :
  starts_empty file fs nm sch →
  (∀ j k : nat, gen j = gen k → j = k) →
  Forall no_undefined ms →
  (Z.of_nat (sum_list (adds <$> ms)) < 2 ^ 31)%Z →
  let w := mutated ms (Collection.create nm sch file fs gen n) in
  in_step sch w ∧ Collection.uuids w = gen
  ∧ size (current_data w) ≤ sum_list (adds <$> ms).
Proof using Hnodup Hschema.
  intros Hempty Hinj Hplain Hadds w.
  destruct (in_step_create sch Hnodup nm file fs gen n Hempty)
    as (Hstep0 & Hd0 & Hu0).
  destruct (in_step_mutated ms (Collection.create nm sch file fs gen n))
    as (Hstep & Hu & Hle); [done|done|by rewrite Hu0| |].
  { rewrite Hd0, map_size_empty. lia. }
  rewrite Hd0, map_size_empty in Hle.
  split; [done|]. split; [by rewrite <- Hu0|done].
Qed.

Lemma exact_target_typed f def q target :
  type def ≠ TObject → exact_target f def q = Some target →
  typed (type def) target.
Proof.
  unfold exact_target, typed. intros Hty.
  destruct (type def); try done.
  - destruct (_ || _); [done|]. by intros [= <-].
  - destruct (rangeMatch q); [done|].
    destruct (Number q); [|done]. by intros [= <-].
  - destruct (String.eqb q "true"); [by intros [= <-]|].
    destruct (String.eqb q "false"); [by intros [= <-]|done].
Qed.

Lemma find_exact_target f def q target es :
  exact_target f def q = Some target →
  Index.find (index_for f def es) q
  = Index.exactQuery (index_for f def es) target.
Proof.
  unfold exact_target, Index.find, index_for, Index.fromEntries. simpl.
  destruct (type def).
  - destruct (startsWith q "%"), (endsWith q "%"); simpl; try done.
    by intros [= <-].
  - destruct (rangeMatch q); [done|].
    destruct (Number q); [|done]. by intros [= <-].
  - destruct (String.eqb q "true"); [by intros [= <-]|].
    destruct (String.eqb q "false"); [by intros [= <-]|done].
  - destruct (startsWith q "%"), (endsWith q "%"); simpl; try done.
    by intros [= <-].
Qed.

Lemma Set_of_NoDup_id (l : list string) : NoDup l → Set_of l = l.
Proof.
  induction l as [|x l IH]; [done|]. intros [Hx Hnd]%NoDup_cons. simpl.
  f_equal. rewrite (IH Hnd). clear IH Hnd.
  induction l as [|y l IH]; [done|]. simpl.
  apply not_elem_of_cons in Hx as [Hne Hx].
  assert (y ≠ x) as Hne' by done. apply String.eqb_neq in Hne'.
  rewrite Hne'. simpl. by rewrite IH.
Qed.

Lemma find_in_step w f def q target :
  in_step sch w →
  (Z.of_nat (size (current_data w)) < 2 ^ 31)%Z →
  (f, def) ∈ sch → truthy (index def) = true →
  exact_target f def q = Some target →
  ∃ ids, Collection.find [(f, q)] w = (Ok (materialize w <$> ids), w)
         ∧ NoDup ids
         ∧ ∀ i, i ∈ ids ↔ ∃ r, current_data w !! i = Some r
                               ∧ field_value f def r = target.
Proof using Hnodup Hschema.
  intros (Hs & (E & HE & Hm) & Hty & Hids) Hsize Hin Hd Hq.
  pose proof (Hm f def Hin Hd) as Hmir.
  pose proof (mirrors_small f def _ _ Hsize Hmir) as Hsm.
  destruct Hmir as (Hsorted & Htyped & Hnd & Hmem).
  assert (typed (type def) target) as Htg.
  { eapply exact_target_typed; [|done]. by eapply validateSchema_indexed. }
  set (ids := id <$> List.filter (has_value target) (E f)).
  assert (NoDup ids) as Hndi.
  { unfold ids. eapply sublist_NoDup; [exact Hnd|]. clear -sch.
    induction (E f) as [|e es IH]; [done|].
    simpl. destruct (has_value target e); simpl; by constructor. }
  exists ids. split; [|split; [done|]].
  - rewrite find_run by done. f_equal.
    rewrite HE. cbn [Collection.find_loop].
    rewrite (Map_get_shaped sch E f def Hnodup Hin Hd).
    rewrite (find_exact_target f def q target (E f) Hq).
    rewrite (exactQuery_spec (type def)) by done.
    cbn [mbind result_bind].
    change (Index.entries (index_for f def (E f))) with (E f). fold ids.
    rewrite (Set_of_NoDup_id ids Hndi).
    by destruct ids.
  - intros i. unfold ids.
    rewrite list_elem_of_fmap. split.
    + intros (e & -> & He). apply elem_of_List_filter in He as [He Hv].
      apply Hmem in He as (r & Hr & Hval). exists r. split; [done|].
      rewrite <- Hval. unfold has_value in Hv.
      apply (strict_eq_typed (type def)); [|done..].
      eapply Forall_forall in Htyped; [exact Htyped|].
      apply Hmem. by exists r.
    + intros (r & Hr & Hval).
      exists {| id := i; value := field_value f def r |}. split; [done|].
      apply elem_of_List_filter. split.
      * apply Hmem. by exists r.
      * unfold has_value. simpl. rewrite Hval.
        by apply (strict_eq_refl (type def)).
Qed.
End InStepRun.

(** X20: on a memory-mode collection created over a valid schema with
    distinct field names, whose identifier generator never repeats, after any
    sequence of [add], [addMany], [update], [remove] and [clear] calls in
    which no [update] passes an explicit [undefined] and which adds fewer
    than 2^31 records, an exact-match query of one indexed field returns,
    each once, exactly the stored records whose value of the field, case-folded
    when the field asks for it, is the value queried. *)
Theorem X20_exact_find_after_a_run `{JsNumber} nm (sch : Schema) fs gen n ms
    f def q target :
  NoDup sch.*1 →
  validateSchema sch = Ok () →
  (∀ j k : nat, gen j = gen k → j = k) →
  Forall no_undefined ms →
  (Z.of_nat (sum_list (adds <$> ms)) < 2 ^ 31)%Z →
  (f, def) ∈ sch → truthy (index def) = true →
  exact_target f def q = Some target →
  let w := mutated ms (Collection.create nm sch false fs gen n) in
  ∃ ids, Collection.find [(f, q)] w = (Ok (materialize w <$> ids), w)
         ∧ NoDup ids
         ∧ ∀ i, i ∈ ids ↔ ∃ r, current_data w !! i = Some r
                               ∧ field_value f def r = target.
Proof.
  intros Hnd Hschema Hinj Hplain Hadds Hin Hd Hq w.
  destruct (in_step_run sch Hnd Hschema nm false fs gen n ms)
    as (Hstep & _ & Hle); [by intros ?|done..|].
  fold w in Hstep, Hle.
  apply (find_in_step sch Hnd Hschema w f def q target); [done|lia|done..].
Qed.

Lemma sample_uuid_inj j k : sample_uuid j = sample_uuid k → j = k.
Proof.
  unfold sample_uuid. intros Heq. apply (inj (String.app "id")) in Heq.
  by apply (inj pretty) in Heq.
Qed.

Lemma users_schema_NoDup : NoDup users_schema.*1.
Proof. apply NoDup_ListNoDup. repeat constructor; simpl; intuition discriminate. Qed.

Lemma empty_disk_starts_empty file nm sch :
  starts_empty file FileAdapter.empty nm sch.
Proof.
  intros _ meta Hmeta. unfold FileAdapter.readMeta in Hmeta. simpl in Hmeta.
  by rewrite lookup_empty in Hmeta.
Qed.

Lemma X20_witness :
  let age := {| type := TNumber; index := Some true; indexSetting := None;
                default := VUndefined |} in
  let w := mutated (H := decimal_Number)
             [DoAdd (user "Ann" 30 "f");
              DoAddMany [user "Bob" 25 "m"; user "Cy" 41 "m"];
              DoUpdate "id1" {["age" := VNum 30]};
              DoRemove "id0"]
             (fresh_users false) in
  ∃ ids, Collection.find (H := decimal_Number) [("age", "30")] w
         = (Ok (materialize w <$> ids), w)
         ∧ NoDup ids
         ∧ ∀ i, i ∈ ids ↔ ∃ r, current_data w !! i = Some r
                               ∧ field_value "age" age r = VNum 30.
Proof.
  intros age.
  apply (X20_exact_find_after_a_run (H := decimal_Number) "users" users_schema
           FileAdapter.empty sample_uuid 0 _ "age" age "30" (VNum 30)).
  - exact users_schema_NoDup.
  - reflexivity.
  - exact sample_uuid_inj.
  - repeat constructor. intros k v Hk.
    apply lookup_singleton_Some in Hk as [_ <-]. done.
  - vm_compute. reflexivity.
  - right. left.
  - reflexivity.
  - vm_compute. reflexivity.
Defined.

Lemma returns_when_accepted (r : result unit) (P : Prop) :
  match r with Ok _ => P | Throw e => is_rejection e ∧ ¬ P end →
  (r = Ok () ↔ P) ∧ ∀ e, r = Throw e → is_rejection e.
Proof.
  destruct r as [[]|e]; intros Hres; split.
  - done.
  - by intros ? [=].
  - destruct Hres as [_ Hn]. split; [done|]. by intros ?.
  - intros e' [= <-]. by destruct Hres.
Qed.

(** X21: under the conditions of X20, a further call that passes no explicit
    [undefined] to [update] returns exactly when its arguments pass its
    checks (valid records for [add] and [addMany], a valid partial record
    and a stored identifier for [update], a stored identifier for
    [remove]); when it throws, the error is one of record validation or the
    not-found error, never a failure inside the indexes. *)
Theorem X21_calls_return_or_reject `{JsNumber} nm (sch : Schema) fs gen n
    ms m :
  NoDup sch.*1 →
  validateSchema sch = Ok () →
  (∀ j k : nat, gen j = gen k → j = k) →
  Forall no_undefined ms → no_undefined m →
  (Z.of_nat (sum_list (adds <$> ms) + adds m) < 2 ^ 31)%Z →
  let w := mutated ms (Collection.create nm sch false fs gen n) in
  ((mutate m w).1 = Ok () ↔ accepted sch w m)
  ∧ ∀ e, (mutate m w).1 = Throw e → is_rejection e.
Proof.
  intros Hnd Hschema Hinj Hplain Hm Hadds w.
  destruct (in_step_run sch Hnd Hschema nm false fs gen n ms)
    as (Hstep & Hgen & Hle); [by intros ?|done..|lia|].
  fold w in Hstep, Hgen, Hle.
  destruct (in_step_mutate sch Hnd Hschema m w Hm Hstep) as (_ & _ & _ & Hres).
  { by rewrite Hgen. }
  { lia. }
  by apply returns_when_accepted.
Qed.

Lemma X21_witness :
  let w := mutated (H := decimal_Number) [DoAdd (user "Ann" 30 "f")]
             (fresh_users false) in
  let m := DoUpdate "id0" {["age" := VNum 31]} in
  ((mutate (H := decimal_Number) m w).1 = Ok () ↔ accepted users_schema w m)
  ∧ ∀ e, (mutate (H := decimal_Number) m w).1 = Throw e → is_rejection e.
Proof.
  apply (X21_calls_return_or_reject (H := decimal_Number) "users" users_schema
           FileAdapter.empty sample_uuid 0 [DoAdd (user "Ann" 30 "f")]
           (DoUpdate "id0" {["age" := VNum 31]})).
  - exact users_schema_NoDup.
  - reflexivity.
  - exact sample_uuid_inj.
  - repeat constructor.
  - intros k v Hk. apply lookup_singleton_Some in Hk as [_ <-]. done.
  - vm_compute. reflexivity.
Defined.

(** ** What a query answers does not depend on the other entries *)

Section Uniform.
Context `{JsNumber}.

Lemma find_uniform ft ic q :
  ft ≠ TObject →
  (∃ P : IndexEntry → bool,
     ∀ idx, Index.fieldType idx = ft → Index.ignoreCase idx = ic →
            searchable ft idx →
            Index.find idx q = Ok (id <$> List.filter P (Index.entries idx)))
  ∨ (∃ err, ∀ idx, Index.fieldType idx = ft → Index.ignoreCase idx = ic →
                   Index.find idx q = Throw err).
Proof.
  intros Hft. set (fold s := if ic then toLowerCase s else s).
  destruct ft; [| | |done].
  - left.
    destruct (startsWith q "%" && endsWith q "%" && (1 <? String.length q))
      eqn:Hc; [|destruct (endsWith q "%") eqn:He;
                 [|destruct (startsWith q "%") eqn:Hs]].
    + exists (text_includes (fold (slice_inner q))).
      intros idx Hf Hi _. unfold Index.find. rewrite Hf. cbv zeta. rewrite Hc.
      unfold Index.containsQuery, Index.fold_query. by rewrite Hi.
    + exists (text_starts (fold (slice_to_last q))).
      intros idx Hf Hi Hidx. unfold Index.find. rewrite Hf. cbv zeta.
      rewrite He, Hc. cbv iota. rewrite prefixQuery_spec by done.
      unfold Index.fold_query. by rewrite Hi.
    + exists (text_ends (fold (slice_from1 q))).
      intros idx Hf Hi _. unfold Index.find. rewrite Hf. cbv zeta.
      rewrite He, Hs. cbn [andb]. cbv iota.
      unfold Index.suffixQuery, Index.fold_query. by rewrite Hi.
    + exists (has_value (VStr (fold q))).
      intros idx Hf Hi (Hsorted & Htyped & Hsm). unfold Index.find.
      rewrite Hf. cbv zeta. rewrite He, Hs. cbn [andb]. cbv iota.
      rewrite (exactQuery_spec TString) by done.
      unfold Index.fold_query. by rewrite Hi.
  - destruct (rangeMatch q) as [[op lit]|] eqn:Hm.
    + destruct (Number lit) as [b|] eqn:Hlit.
      * left. apply rangeMatch_inv in Hm as Hinv.
        destruct Hinv as (c & Hc & _ & Hcase).
        destruct Hcase as [(-> & _ & _)|(-> & _)], Hc as [-> | ->].
        -- exists (λ e, (b <? entry_num e)%Z).
           intros idx Hf _ (Hsorted & Htyped & Hsm). unfold Index.find.
           rewrite Hf, Hm, Hlit. by apply rangeQuery_gt.
        -- exists (λ e, (entry_num e <? b)%Z).
           intros idx Hf _ (Hsorted & Htyped & Hsm). unfold Index.find.
           rewrite Hf, Hm, Hlit. by apply rangeQuery_lt.
        -- exists (λ e, (b <=? entry_num e)%Z).
           intros idx Hf _ (Hsorted & Htyped & Hsm). unfold Index.find.
           rewrite Hf, Hm, Hlit. by apply rangeQuery_ge.
        -- exists (λ e, (entry_num e <=? b)%Z).
           intros idx Hf _ (Hsorted & Htyped & Hsm). unfold Index.find.
           rewrite Hf, Hm, Hlit. by apply rangeQuery_le.
      * right. exists (InvalidNumericQuery q). intros idx Hf _.
        unfold Index.find. by rewrite Hf, Hm, Hlit.
    + destruct (Number q) as [b|] eqn:Hq.
      * left. exists (has_value (VNum b)).
        intros idx Hf _ (Hsorted & Htyped & Hsm). unfold Index.find.
        rewrite Hf, Hm, Hq. by apply (exactQuery_spec TNumber).
      * right. exists (InvalidNumberFieldQuery q). intros idx Hf _.
        unfold Index.find. by rewrite Hf, Hm, Hq.
  - destruct (String.eqb q "true") eqn:Ht;
      [|destruct (String.eqb q "false") eqn:Hfa].
    + left. exists (has_value (VBool true)).
      intros idx Hf _ (Hsorted & Htyped & Hsm). unfold Index.find.
      rewrite Hf, Ht. by apply (exactQuery_spec TBoolean).
    + left. exists (has_value (VBool false)).
      intros idx Hf _ (Hsorted & Htyped & Hsm). unfold Index.find.
      rewrite Hf, Ht, Hfa. by apply (exactQuery_spec TBoolean).
    + right. exists (InvalidBooleanFieldQuery q). intros idx Hf _.
      unfold Index.find. by rewrite Hf, Ht, Hfa.
Qed.

Lemma singleton_searchable f def e :
  typed (type def) (value e) → searchable (type def) (index_for f def [e]).
Proof.
  intros Ht. split; [|split].
  - repeat constructor.
  - by constructor.
  - unfold small. simpl. lia.
Qed.

Variable sch : Schema.
Hypothesis Hnodup : NoDup sch.*1.
Hypothesis Hschema : validateSchema sch = Ok ().

Lemma in_answer_in_step w fq :
  in_step sch w →
  (Z.of_nat (size (current_data w)) < 2 ^ 31)%Z →
  askable sch fq →
  answered (current_indexes w) fq
  ∧ ∀ x, in_answer (current_indexes w) x fq
         ↔ ∃ r, current_data w !! x = Some r ∧ passes sch x r fq.
Proof using Hnodup Hschema.
  intros (Hs & (E & HE & Hm) & Hty & _) Hsize (def & Hin & Hd & Hask).
  destruct fq as [f q]. simpl in *. rewrite HE.
  set (d := current_data w) in *.
  pose proof (Map_get_shaped sch E f def Hnodup Hin Hd) as Hget.
  pose proof (Hm f def Hin Hd) as Hmir.
  pose proof (mirrors_small f def d (E f) Hsize Hmir) as Hsm.
  destruct Hmir as (Hsorted & Htyped & _ & Hmem).
  assert (type def ≠ TObject) as Hobj by by eapply validateSchema_indexed.
  destruct (find_uniform (type def)
              (Index.ignoreCase (index_for f def [])) q Hobj)
    as [[P HP]|[err Herr]];
    [|by rewrite (Herr (index_for f def []) eq_refl eq_refl) in Hask].
  pose proof (HP (index_for f def (E f)) eq_refl eq_refl
                ltac:(by split; [|split])) as Hfind.
  change (Index.entries (index_for f def (E f))) with (E f) in Hfind.
  assert (∀ x r, d !! x = Some r →
                 found_alone f def q x r
                 = P {| value := field_value f def r; id := x |}) as Halone.
  { intros x r Hr. unfold found_alone.
    rewrite (HP (index_for f def [_]) eq_refl eq_refl).
    - change (Index.entries (index_for f def [?e])) with [e]. simpl.
      by destruct (P _).
    - apply singleton_searchable. simpl. apply normalize_typed.
      by apply (Hty x r f def). }
  split; [by eexists _, _|].
  intros x. unfold in_answer, passes. simpl. split.
  - intros (idx & ids & Hidx & Hids & Hx).
    rewrite Hget in Hidx. injection Hidx as <-.
    rewrite Hfind in Hids. injection Hids as <-.
    apply list_elem_of_fmap in Hx as (e & -> & He).
    apply elem_of_List_filter in He as [He HPe].
    apply Hmem in He as (r & Hr & Hval). exists r. split; [done|].
    exists def. split; [done|]. rewrite (Halone _ r Hr), <- Hval.
    by destruct e.
  - intros (r & Hr & def' & Hin' & Hfound).
    assert (def' = def) as ->.
    { pose proof (schema_get_elem_Some sch f def Hnodup Hin).
      pose proof (schema_get_elem_Some sch f def' Hnodup Hin'). congruence. }
    rewrite (Halone x r Hr) in Hfound.
    eexists _, _. split; [done|]. split; [done|].
    apply list_elem_of_fmap.
    exists {| value := field_value f def r; id := x |}. split; [done|].
    apply elem_of_List_filter. split; [|done]. apply Hmem. by exists r.
Qed.

Lemma find_recordwise w query :
  in_step sch w →
  (Z.of_nat (size (current_data w)) < 2 ^ 31)%Z →
  query ≠ [] → Forall (askable sch) query →
  ∃ ids, Collection.find query w = (Ok (materialize w <$> ids), w)
         ∧ NoDup ids
         ∧ ∀ i, i ∈ ids ↔ ∃ r, current_data w !! i = Some r
                               ∧ Forall (passes sch i r) query.
Proof using Hnodup Hschema.
  intros Hstep Hsize Hq Hask.
  assert (Forall (answered (current_indexes w)) query) as Hall.
  { eapply Forall_impl; [exact Hask|]. intros fq Hfq.
    by apply in_answer_in_step. }
  rewrite find_run by done.
  destruct (find_loop_answered _ query Hq Hall) as (ids & -> & Hnd & Hmem).
  exists ids. split; [done|]. split; [done|]. intros i. rewrite Hmem.
  split.
  - intros Hin. destruct query as [|fq0 query]; [done|].
    pose proof (Forall_inv Hin) as H0. pose proof (Forall_inv Hask) as Ha0.
    apply (in_answer_in_step w fq0 Hstep Hsize Ha0) in H0 as (r & Hr & _).
    exists r. split; [done|]. apply Forall_forall. intros fq Hfq.
    pose proof (proj1 (Forall_forall _ _) Hin fq Hfq) as Hfound.
    pose proof (proj1 (Forall_forall _ _) Hask fq Hfq) as Ha.
    apply (in_answer_in_step w fq Hstep Hsize Ha) in Hfound
      as (r' & Hr' & Hpass).
    congruence.
  - intros (r & Hr & Hpass). apply Forall_forall. intros fq Hfq.
    pose proof (proj1 (Forall_forall _ _) Hpass fq Hfq) as Hp.
    pose proof (proj1 (Forall_forall _ _) Hask fq Hfq) as Ha.
    apply (in_answer_in_step w fq Hstep Hsize Ha). by exists r.
Qed.
End Uniform.

(** X22: on a memory-mode collection as in X20, a query of one or more
    indexed fields, none of whose patterns its index refuses, returns, each
    once, exactly the stored records that every queried field finds; and a
    field finds a record exactly when the same pattern finds it in an index
    of that field holding the record alone.  So whether a record is returned
    depends on that record only, for every kind of pattern: exact, prefix,
    suffix, contains and range. *)
Theorem X22_find_is_recordwise `{JsNumber} nm (sch : Schema) fs gen n ms
    query :
  NoDup sch.*1 →
  validateSchema sch = Ok () →
  (∀ j k : nat, gen j = gen k → j = k) →
  Forall no_undefined ms →
  (Z.of_nat (sum_list (adds <$> ms)) < 2 ^ 31)%Z →
  query ≠ [] → Forall (askable sch) query →
  let w := mutated ms (Collection.create nm sch false fs gen n) in
  ∃ ids, Collection.find query w = (Ok (materialize w <$> ids), w)
         ∧ NoDup ids
         ∧ ∀ i, i ∈ ids ↔ ∃ r, current_data w !! i = Some r
                               ∧ Forall (passes sch i r) query.
Proof.
  intros Hnd Hschema Hinj Hplain Hadds Hq Hask w.
  destruct (in_step_run sch Hnd Hschema nm false fs gen n ms)
    as (Hstep & _ & Hle); [by intros ?|done..|].
  fold w in Hstep, Hle.
  apply (find_recordwise sch Hnd Hschema w query); [done|lia|done..].
Qed.

Lemma X22_witness :
  let w := mutated (H := decimal_Number)
             [DoAddMany [user "Ann" 30 "f"; user "Bob" 25 "m";
                         user "anna" 41 "f"];
              DoUpdate "id1" {["name" := VStr "Annabel"]};
              DoRemove "id0"]
             (fresh_users false) in
  let query := [("name", "ann%"); ("age", "<40")] in
  ∃ ids, Collection.find (H := decimal_Number) query w
         = (Ok (materialize w <$> ids), w)
         ∧ NoDup ids
         ∧ ∀ i, i ∈ ids ↔ ∃ r, current_data w !! i = Some r
                               ∧ Forall (passes (H := decimal_Number)
                                           users_schema i r) query.
Proof.
  apply (X22_find_is_recordwise (H := decimal_Number) "users" users_schema
           FileAdapter.empty sample_uuid 0).
  - exact users_schema_NoDup.
  - reflexivity.
  - exact sample_uuid_inj.
  - repeat constructor. intros k v Hk.
    apply lookup_singleton_Some in Hk as [_ <-]. done.
  - vm_compute. reflexivity.
  - done.
  - repeat constructor.
    + eexists. split; [by left|]. split; [reflexivity|]. vm_compute. tauto.
    + eexists. split; [right; by left|]. split; [reflexivity|].
      vm_compute. tauto.
Defined.

(** ** The database *)

Lemma Map_get_set_eq {V} key (v : V) (m : list (string * V)) :
  Map_get key (Map_set key v m) = Some v.
Proof.
  unfold Map_get. induction m as [|[k v'] m IH]; simpl.
  - by rewrite String.eqb_refl.
  - destruct (String.eqb_spec k key) as [->|Hne]; simpl.
    + by rewrite String.eqb_refl.
    + apply String.eqb_neq in Hne. by rewrite Hne.
Qed.

Lemma Map_get_set_ne {V} key key' (v : V) (m : list (string * V)) :
  key ≠ key' → Map_get key' (Map_set key v m) = Map_get key' m.
Proof.
  intros Hne. unfold Map_get. induction m as [|[k v'] m IH]; simpl.
  - apply String.eqb_neq in Hne. by rewrite Hne.
  - destruct (String.eqb_spec k key) as [->|Hk]; simpl.
    + apply String.eqb_neq in Hne. by rewrite Hne.
    + by destruct (String.eqb k key').
Qed.

Lemma Map_get_cons {V} key k (v : V) (m : list (string * V)) :
  Map_get key ((k, v) :: m)
  = if String.eqb k key then Some v else Map_get key m.
Proof. unfold Map_get. simpl. by destruct (String.eqb k key). Qed.

Lemma create_this nm sch file fs gen n :
  Collection.this (Collection.create nm sch file fs gen n)
  = constructed nm sch file.
Proof.
  unfold Collection.create, constructed. destruct file.
  - unfold Collection.initFileMode. rewrite bind_run, self_run, bind_run.
    simpl. destruct (FileAdapter.readMeta fs nm) as [meta|]; [|done].
    by destruct (Collection.schemasMatch _ _).
  - done.
Qed.

Lemma create_memory_storage nm sch fs gen n :
  Collection.storage (Collection.create nm sch false fs gen n) = fs.
Proof. done. Qed.

Lemma create_file_meta nm sch fs gen n :
  NoDup sch.*1 →
  ∃ meta, FileAdapter.readMeta
            (Collection.storage (Collection.create nm sch true fs gen n)) nm
          = Some meta
          ∧ Collection.schemasMatch sch (CollectionMeta.schema meta) = true.
Proof.
  intros Hnd. by destruct (create_file_bound nm sch fs gen n Hnd) as [_ Hmeta].
Qed.

Lemma create_others nm sch file fs gen n other :
  nm ≠ other →
  FileAdapter.readData (Collection.storage
                          (Collection.create nm sch file fs gen n)) other
  = FileAdapter.readData fs other
  ∧ FileAdapter.readMeta (Collection.storage
                            (Collection.create nm sch file fs gen n)) other
    = FileAdapter.readMeta fs other.
Proof.
  intros Hne. destruct file; [by apply on_disk_create|done].
Qed.

Section Construct.
Variable file : bool.
Variable gen : nat → string.

Lemma construct_ok entries : ∀ cols fs,
  NoDup entries.*1 →
  Forall (λ e, validateSchema e.2 = Ok ()) entries →
  ∃ cols' fs',
    Database.construct file gen entries cols fs = (Ok cols', fs')
    ∧ (∀ name, Map_get name cols'
               = match Map_get name entries with
                 | Some sch => Some (constructed name sch file)
                 | None => Map_get name cols
                 end)
    ∧ (file = false → fs' = fs)
    ∧ (∀ name sch, file = true → (name, sch) ∈ entries → NoDup sch.*1 →
         ∃ meta, FileAdapter.readMeta fs' name = Some meta
                 ∧ Collection.schemasMatch sch (CollectionMeta.schema meta)
                   = true)
    ∧ (∀ other, other ∉ entries.*1 →
         FileAdapter.readData fs' other = FileAdapter.readData fs other
         ∧ FileAdapter.readMeta fs' other = FileAdapter.readMeta fs other).
Proof.
  induction entries as [|[nm sch] entries IH]; intros cols fs Hnd Hvalid.
  { exists cols, fs. split; [done|]. split; [done|]. split; [done|].
    split; [|done]. by intros ? ? _ ?%elem_of_nil. }
  rewrite fmap_cons in Hnd. simpl in Hnd.
  apply NoDup_cons in Hnd as [Hnm Hnd].
  apply Forall_cons in Hvalid as [Hv Hvalid]. simpl in Hv.
  cbn [Database.construct]. rewrite Hv.
  set (w := Collection.create nm sch file fs gen 0).
  destruct (IH (Map_set nm (Collection.this w) cols) (Collection.storage w)
              Hnd Hvalid) as (cols' & fs' & -> & Hget & Hmem & Hmeta & Hother).
  exists cols', fs'. split; [done|]. split; [|split; [|split]].
  - intros name. rewrite Hget, Map_get_cons.
    destruct (String.eqb_spec nm name) as [<-|Hne].
    + destruct (Map_get nm entries) as [sch'|] eqn:Hin.
      * exfalso. apply Hnm. apply Map_get_is_Some. by eexists.
      * rewrite Map_get_set_eq. unfold w. by rewrite create_this.
    + destruct (Map_get name entries); [done|]. by apply Map_get_set_ne.
  - intros Hf. rewrite (Hmem Hf). unfold w. by rewrite Hf.
  - intros name sch' Hf [Heq|Hin]%elem_of_cons Hsch.
    + injection Heq as -> ->.
      destruct (Hother nm Hnm) as [_ ->]. unfold w. rewrite Hf.
      by apply create_file_meta.
    + by apply Hmeta.
  - intros other Hnot. rewrite fmap_cons in Hnot. simpl in Hnot.
    apply not_elem_of_cons in Hnot as [Hne Hnot].
    destruct (Hother other Hnot) as [-> ->].
    apply create_others. by intros ->.
Qed.

Lemma construct_invalid pre : ∀ cols fs name sch post e,
  Forall (λ e, validateSchema e.2 = Ok ()) pre →
  validateSchema sch = Throw e →
  ∃ fs', Database.construct file gen (pre ++ (name, sch) :: post) cols fs
         = (Throw e, fs')
         ∧ (file = false → fs' = fs)
         ∧ ∀ other, other ∉ pre.*1 →
             FileAdapter.readData fs' other = FileAdapter.readData fs other
             ∧ FileAdapter.readMeta fs' other = FileAdapter.readMeta fs other.
Proof.
  induction pre as [|[nm sch0] pre IH]; intros cols fs name sch post e Hvalid Hv.
  { exists fs. simpl. by rewrite Hv. }
  apply Forall_cons in Hvalid as [Hv0 Hvalid]. simpl in Hv0.
  rewrite <- app_comm_cons. cbn [Database.construct]. rewrite Hv0.
  set (w := Collection.create nm sch0 file fs gen 0).
  destruct (IH (Map_set nm (Collection.this w) cols) (Collection.storage w)
              name sch post e Hvalid Hv) as (fs' & -> & Hmem & Hother).
  exists fs'. split; [done|]. split.
  - intros Hf. rewrite (Hmem Hf). unfold w. by rewrite Hf.
  - intros other Hnot. rewrite fmap_cons in Hnot. simpl in Hnot.
    apply not_elem_of_cons in Hnot as [Hne Hnot].
    destruct (Hother other Hnot) as [-> ->].
    apply create_others. by intros ->.
Qed.
End Construct.

(** X23: [createDB] validates each schema and constructs its collection in
    the order of the entries.  When every schema is valid it returns, and
    [collection] then gives, for each configured name, the collection
    constructed for it (its name and schema, empty, in file mode exactly when
    a non-empty path was given) and the does-not-exist error for any other
    name; a memory database leaves the storage alone, and a file database
    leaves on disk, for each collection, a meta artifact whose schema matches
    the one configured.  At the first invalid schema it throws that schema's
    error, having touched the artifacts of no collection but those listed
    before it. *)
Theorem X23_createDB path fs gen entries :
  NoDup entries.*1 →
  let file := Database.uses_files path in
  (Forall (λ e, validateSchema e.2 = Ok ()) entries →
   ∃ cols fs',
     Database.createDB path fs gen entries = (Ok cols, fs')
     ∧ (∀ name, Database.collection cols name
                = match Map_get name entries with
                  | Some sch => Database.Found (constructed name sch file)
                  | None => Database.Missing name
                  end)
     ∧ (file = false → fs' = fs)
     ∧ (∀ name sch, file = true → (name, sch) ∈ entries → NoDup sch.*1 →
          ∃ meta, FileAdapter.readMeta fs' name = Some meta
                  ∧ Collection.schemasMatch sch (CollectionMeta.schema meta)
                    = true))
  ∧ (∀ pre name sch post e,
       entries = pre ++ (name, sch) :: post →
       Forall (λ e, validateSchema e.2 = Ok ()) pre →
       validateSchema sch = Throw e →
       ∃ fs', Database.createDB path fs gen entries = (Throw e, fs')
              ∧ (file = false → fs' = fs)
              ∧ ∀ other, other ∉ pre.*1 →
                  FileAdapter.readData fs' other = FileAdapter.readData fs other
                  ∧ FileAdapter.readMeta fs' other
                    = FileAdapter.readMeta fs other).
Proof.
  intros Hnd file. split.
  - intros Hvalid.
    destruct (construct_ok file gen entries [] fs Hnd Hvalid)
      as (cols & fs' & Hrun & Hget & Hmem & Hmeta & _).
    exists cols, fs'. split; [done|]. split; [|by split].
    intros name. unfold Database.collection. rewrite Hget.
    by destruct (Map_get name entries).
  - intros pre name sch post e -> Hvalid Hv.
    by apply construct_invalid.
Qed.

Lemma X23_witness :
  let path := Some "./data" in
  let entries := [("users", users_schema); ("accounts", accounts_schema)] in
  let file := Database.uses_files path in
  (Forall (λ e, validateSchema e.2 = Ok ()) entries →
   ∃ cols fs',
     Database.createDB path FileAdapter.empty sample_uuid entries
     = (Ok cols, fs')
     ∧ (∀ name, Database.collection cols name
                = match Map_get name entries with
                  | Some sch => Database.Found (constructed name sch file)
                  | None => Database.Missing name
                  end)
     ∧ (file = false → fs' = FileAdapter.empty)
     ∧ (∀ name sch, file = true → (name, sch) ∈ entries → NoDup sch.*1 →
          ∃ meta, FileAdapter.readMeta fs' name = Some meta
                  ∧ Collection.schemasMatch sch (CollectionMeta.schema meta)
                    = true))
  ∧ (∀ pre name sch post e,
       entries = pre ++ (name, sch) :: post →
       Forall (λ e, validateSchema e.2 = Ok ()) pre →
       validateSchema sch = Throw e →
       ∃ fs', Database.createDB path FileAdapter.empty sample_uuid entries
              = (Throw e, fs')
              ∧ (file = false → fs' = FileAdapter.empty)
              ∧ ∀ other, other ∉ pre.*1 →
                  FileAdapter.readData fs' other
                  = FileAdapter.readData FileAdapter.empty other
                  ∧ FileAdapter.readMeta fs' other
                    = FileAdapter.readMeta FileAdapter.empty other).
Proof.
  apply (X23_createDB (Some "./data") FileAdapter.empty sample_uuid
           [("users", users_schema); ("accounts", accounts_schema)]).
  apply NoDup_ListNoDup. repeat constructor; simpl; intuition discriminate.
Defined.

(** ** The same on disk *)



(** X25: on a file-mode collection as in X24, a further call that passes no
    explicit [undefined] to [update] returns exactly when its arguments pass
    its checks (valid records for [add] and [addMany], a valid partial
    record and an identifier of the data artifact for [update], such an
    identifier for [remove]); when it throws, the error is one of record
    validation or the not-found error, never a failure inside the indexes
    read from the meta artifact. *)
Theorem X25_calls_return_or_reject_on_disk `{JsNumber} nm (sch : Schema) fs
    gen n ms m :
  NoDup sch.*1 →
  validateSchema sch = Ok () →
  starts_empty true fs nm sch →
  (∀ j k : nat, gen j = gen k → j = k) →
  Forall no_undefined ms → no_undefined m →
  (Z.of_nat (sum_list (adds <$> ms) + adds m) < 2 ^ 31)%Z →
  let w := mutated ms (Collection.create nm sch true fs gen n) in
  ((mutate m w).1 = Ok () ↔ accepted sch w m)
  ∧ ∀ e, (mutate m w).1 = Throw e → is_rejection e.
Proof.
  intros Hnd Hschema Hempty Hinj Hplain Hm Hadds w.
  destruct (in_step_run sch Hnd Hschema nm true fs gen n ms)
    as (Hstep & Hgen & Hle); [done..|lia|].
  fold w in Hstep, Hgen, Hle.
  destruct (in_step_mutate sch Hnd Hschema m w Hm Hstep) as (_ & _ & _ & Hres).
  { by rewrite Hgen. }
  { lia. }
  by apply returns_when_accepted.
Qed.

Lemma X25_witness :
  let w := mutated (H := decimal_Number) [DoAdd (user "Ann" 30 "f")]
             (fresh_users true) in
  let m := DoRemove "id0" in
  ((mutate (H := decimal_Number) m w).1 = Ok () ↔ accepted users_schema w m)
  ∧ ∀ e, (mutate (H := decimal_Number) m w).1 = Throw e → is_rejection e.
Proof.
  apply (X25_calls_return_or_reject_on_disk (H := decimal_Number) "users"
           users_schema FileAdapter.empty sample_uuid 0
           [DoAdd (user "Ann" 30 "f")] (DoRemove "id0")).
  - exact users_schema_NoDup.
  - reflexivity.
  - apply empty_disk_starts_empty.
  - exact sample_uuid_inj.
  - repeat constructor.
  - exact I.
  - vm_compute. reflexivity.
Defined.

(** ** The order of what [find] returns *)

Lemma StronglySorted_sublist {A} (R : relation A) (l1 l2 : list A) :
  l1 `sublist_of` l2 → StronglySorted R l2 → StronglySorted R l1.
Proof.
  induction 1 as [|x l1 l2 Hsub IH|x l1 l2 Hsub IH]; intros Hs; [done| |].
  - apply StronglySorted_inv in Hs as [Hs Hx]. constructor; [by apply IH|].
    apply Forall_forall. intros y Hy.
    apply (proj1 (Forall_forall _ _) Hx). by eapply elem_of_sublist.
  - apply StronglySorted_inv in Hs as [Hs _]. by apply IH.
Qed.

Lemma List_filter_sublist {A} (p : A → bool) (l : list A) :
  List.filter p l `sublist_of` l.
Proof.
  induction l as [|x l IH]; [done|]. simpl.
  destruct (p x); by constructor.
Qed.

Lemma Set_of_sublist (l : list string) : Set_of l `sublist_of` l.
Proof.
  induction l as [|x l IH]; [done|]. simpl. constructor.
  trans (Set_of l); [apply List_filter_sublist|done].
Qed.

Lemma find_loop_sublist `{JsNumber} ixs q : ∀ r res,
  Collection.find_loop ixs q (Some r) = Ok res → res `sublist_of` r.
Proof.
  induction q as [|[f s] q IH]; intros r res; simpl.
  { by intros [= <-]. }
  destruct (Map_get f ixs) as [idx|]; [|done].
  destruct (Index.find idx s) as [found|]; [|done]. simpl.
  pose proof (List_filter_sublist (Set_has (Set_of found)) r) as Hsub.
  destruct (List.filter (Set_has (Set_of found)) r) as [|y running].
  - intros [= <-]. apply sublist_nil_l.
  - intros Hres. apply IH in Hres. by trans (y :: running).
Qed.

Lemma find_loop_first `{JsNumber} ixs f s q res :
  Collection.find_loop ixs ((f, s) :: q) None = Ok res →
  ∃ idx found, Map_get f ixs = Some idx ∧ Index.find idx s = Ok found
               ∧ res `sublist_of` found.
Proof.
  simpl. destruct (Map_get f ixs) as [idx|] eqn:Hget; [|done].
  destruct (Index.find idx s) as [found|] eqn:Hfound; [|done]. simpl.
  pose proof (Set_of_sublist found) as Hsub.
  destruct (Set_of found) as [|y running].
  - intros [= <-]. exists idx, found. split; [done|]. split; [done|].
    apply sublist_nil_l.
  - intros Hres. apply find_loop_sublist in Hres.
    exists idx, found. split; [done|]. split; [done|].
    by trans (y :: running).
Qed.

Section Ascending.
Context `{JsNumber}.
Variable sch : Schema.
Hypothesis Hnodup : NoDup sch.*1.
Hypothesis Hschema : validateSchema sch = Ok ().

Lemma mirrors_ascending w f def es :
  mirrors f def (current_data w) es → ascending w f def (id <$> es).
Proof.
  intros (Hsorted & _ & _ & Hmem).
  assert (∀ e, e ∈ es → value_at w f def (id e) = value e) as Hval.
  { intros e He. apply Hmem in He as (r & Hr & Hv).
    unfold value_at. by rewrite Hr. }
  unfold ascending. clear Hmem.
  induction Hsorted as [|e es Hs IH Hall]; [constructor|].
  rewrite fmap_cons. constructor.
  - apply IH. intros e' He'. apply Hval. by right.
  - apply Forall_fmap, Forall_forall. intros e' He'. simpl.
    rewrite (Hval e) by by left. rewrite (Hval e') by by right.
    by apply (proj1 (Forall_forall _ _) Hall).
Qed.

Lemma find_ascending w f def q rest :
  in_step sch w →
  (Z.of_nat (size (current_data w)) < 2 ^ 31)%Z →
  (f, def) ∈ sch →
  Forall (askable sch) ((f, q) :: rest) →
  ∃ ids, Collection.find ((f, q) :: rest) w
         = (Ok (materialize w <$> ids), w)
         ∧ ascending w f def ids.
Proof using Hnodup Hschema.
  intros Hstep Hsize Hin Hask.
  assert (Forall (answered (current_indexes w)) ((f, q) :: rest)) as Hall.
  { eapply Forall_impl; [exact Hask|]. intros fq Hfq.
    by apply (in_answer_in_step sch Hnodup Hschema). }
  rewrite find_run by done.
  destruct (find_loop_answered _ ((f, q) :: rest) ltac:(done) Hall)
    as (ids & Hloop & _).
  rewrite Hloop. exists ids. split; [done|].
  apply find_loop_first in Hloop as (idx & found & Hget & Hfound & Hsub).
  destruct Hstep as (Hs & (E & HE & Hm) & _).
  apply Forall_inv in Hask as (def' & Hin' & Hd & _). simpl in Hin'.
  assert (def' = def) as ->.
  { pose proof (schema_get_elem_Some sch f def Hnodup Hin).
    pose proof (schema_get_elem_Some sch f def' Hnodup Hin'). congruence. }
  rewrite HE, (Map_get_shaped sch E f def Hnodup Hin Hd) in Hget.
  injection Hget as <-.
  pose proof (Hm f def Hin Hd) as Hmir.
  pose proof (mirrors_small f def _ _ Hsize Hmir) as Hsm.
  assert (type def ≠ TObject) as Hobj by by eapply validateSchema_indexed.
  destruct (find_uniform (type def)
              (Index.ignoreCase (index_for f def [])) q Hobj)
    as [[P HP]|[err Herr]];
    [|by rewrite (Herr (index_for f def (E f)) eq_refl eq_refl) in Hfound].
  rewrite (HP (index_for f def (E f)) eq_refl eq_refl) in Hfound.
  - injection Hfound as <-.
    change (Index.entries (index_for f def (E f))) with (E f) in Hsub.
    eapply StronglySorted_sublist; [|by apply mirrors_ascending].
    etrans; [exact Hsub|]. clear.
    induction (E f) as [|e es IH]; [done|]. simpl.
    destruct (P e); simpl; by constructor.
  - destruct Hmir as (? & ? & _). by split; [|split].
Qed.
End Ascending.

(** X26: on a memory-mode collection as in X20, a query of one or more
    indexed fields, none of whose patterns its index refuses, returns the
    records in ascending order of the first queried field, case-folded when
    the field asks for it. *)
Theorem X26_find_in_ascending_order `{JsNumber} nm (sch : Schema) fs gen n ms
    f def q rest :
  NoDup sch.*1 →
  validateSchema sch = Ok () →
  (∀ j k : nat, gen j = gen k → j = k) →
  Forall no_undefined ms →
  (Z.of_nat (sum_list (adds <$> ms)) < 2 ^ 31)%Z →
  (f, def) ∈ sch →
  Forall (askable sch) ((f, q) :: rest) →
  let w := mutated ms (Collection.create nm sch false fs gen n) in
  ∃ ids, Collection.find ((f, q) :: rest) w
         = (Ok (materialize w <$> ids), w)
         ∧ ascending w f def ids.
Proof.
  intros Hnd Hschema Hinj Hplain Hadds Hin Hask w.
  destruct (in_step_run sch Hnd Hschema nm false fs gen n ms)
    as (Hstep & _ & Hle); [by intros ?|done..|].
  fold w in Hstep, Hle.
  apply (find_ascending sch Hnd Hschema w f def q rest); [done|lia|done..].
Qed.

Lemma X26_witness :
  let name := {| type := TString; index := Some true;
                 indexSetting := Some {| setting_ignoreCase := Some true |};
                 default := VUndefined |} in
  let w := mutated (H := decimal_Number)
             [DoAddMany [user "bob" 30 "m"; user "Ann" 25 "f";
                         user "anna" 41 "f"];
              DoUpdate "id0" {["name" := VStr "Bo"]}]
             (fresh_users false) in
  ∃ ids, Collection.find (H := decimal_Number)
           [("name", "%"); ("age", ">20")] w
         = (Ok (materialize w <$> ids), w)
         ∧ ascending (H := decimal_Number) w "name" name ids.
Proof.
  intros name.
  apply (X26_find_in_ascending_order (H := decimal_Number) "users"
           users_schema FileAdapter.empty sample_uuid 0).
  - exact users_schema_NoDup.
  - reflexivity.
  - exact sample_uuid_inj.
  - repeat constructor. intros k v Hk.
    apply lookup_singleton_Some in Hk as [_ <-]. done.
  - vm_compute. reflexivity.
  - by left.
  - repeat constructor.
    + eexists. split; [by left|]. split; [reflexivity|]. vm_compute. tauto.
    + eexists. split; [right; by left|]. split; [reflexivity|].
      vm_compute. tauto.
Defined.
